(** * Token-level annotation engine of gender-inclusive-gec

    A shallow embedding of [scripts/utils/annotated_tokens.py] and
    [scripts/utils/align.py], together with the part of Python's [difflib]
    that [align] calls, followed by the properties of the engine.

    Conventions.
    - A Python [str] is a [string]: a sequence of code points below 256.
    - A Python [int] that may be negative (spans, levels, deltas) is a [Z];
      list positions inside [difflib], which are never negative, are [nat].
    - A method that mutates its object and may raise is a computation in the
      monad [M]: it maps the buffer before the call to an outcome (a value or
      the exception raised) and the buffer after the call, so that whatever
      was mutated before an exception is raised stays visible. *)

From Stdlib Require Import ZArith Lia Ascii String List Permutation.
From stdpp Require Import base option list sorting gmap strings.

#[local] Set Warnings "-clear-no-such-hyp".

Local Open Scope Z_scope.

(** ** Python built-ins used by the sources *)

Module Py.

(** [str.join]: [sep.join(ls)]. *)
Definition join (sep : string) (ls : list string) : string :=
  String.concat sep ls.

(** [s.split(c)] for a separator of one character: every occurrence of the
    separator ends a field, so the result is never empty
    (["".split(" ") == [""]]). *)
Fixpoint split_char (c : ascii) (s : string) : list string :=
  match s with
  | EmptyString => [EmptyString]
  | String x s' =>
      if Ascii.eqb x c then EmptyString :: split_char c s'
      else match split_char c s' with
           | [] => [String x EmptyString]
           | w :: ws => String x w :: ws
           end
  end.

(** [str.isspace] on one code point below 256. *)
Definition isspace (x : ascii) : bool :=
  let n := N_of_ascii x in
  ((9 <=? n) && (n <=? 13) || (28 <=? n) && (n <=? 32)
   || (n =? 133) || (n =? 160))%N.

Fixpoint split_ws_go (s : string) : string * list string :=
  match s with
  | EmptyString => (EmptyString, [])
  | String x s' =>
      let '(w, ws) := split_ws_go s' in
      if isspace x
      then (EmptyString, match w with EmptyString => ws | _ => w :: ws end)
      else (String x w, ws)
  end.

(** [s.split()]: fields separated by runs of whitespace, no empty field. *)
Definition split (s : string) : list string :=
  let '(w, ws) := split_ws_go s in
  match w with EmptyString => ws | _ => w :: ws end.

(** [sub in s] on strings. *)
Fixpoint contains (sub s : string) : bool :=
  if String.prefix sub s then true
  else match s with
       | EmptyString => false
       | String _ s' => contains sub s'
       end.

(** Truth value of a string: [if s:]. *)
Definition truthy (s : string) : bool :=
  match s with EmptyString => false | _ => true end.

(** A slice bound, as [l[i:j]] resolves it against [len(l) = n]. *)
Definition clamp (n i : Z) : Z :=
  if i <? 0 then Z.max (i + n) 0 else Z.min i n.

(** [l[i:j]]. *)
Definition slice {A} (l : list A) (i j : Z) : list A :=
  let n := Z.of_nat (length l) in
  let lo := clamp n i in
  let hi := clamp n j in
  take (Z.to_nat (hi - lo)) (drop (Z.to_nat lo) l).

(** [l[i:]]. *)
Definition slice_from {A} (l : list A) (i : Z) : list A :=
  drop (Z.to_nat (clamp (Z.of_nat (length l)) i)) l.

(** [l[i]]: [None] stands for [IndexError]. *)
Definition index {A} (l : list A) (i : Z) : option A :=
  let n := Z.of_nat (length l) in
  if (0 <=? i) && (i <? n) then l !! Z.to_nat i
  else if (- n <=? i) && (i <? 0) then l !! Z.to_nat (i + n)
  else None.

(** [list.remove(x)] with the element comparison [eqb item x]: drops the
    first item that compares equal; [None] stands for [ValueError]. *)
Fixpoint list_remove {A} (eqb : A -> A -> bool) (x : A) (l : list A)
  : option (list A) :=
  match l with
  | [] => None
  | y :: l' =>
      if eqb y x then Some l'
      else match list_remove eqb x l' with
           | Some r => Some (y :: r)
           | None => None
           end
  end.

(** [sorted(l, key=...)], a stable sort: elements are inserted from the
    last one to the first, each in front of the first element that is not
    smaller, so that equal keys keep their order. *)
Fixpoint insert_sorted {A} (leb : A -> A -> bool) (x : A) (l : list A)
  : list A :=
  match l with
  | [] => [x]
  | y :: l' => if leb x y then x :: y :: l' else y :: insert_sorted leb x l'
  end.

Definition sorted {A} (leb : A -> A -> bool) (l : list A) : list A :=
  foldr (fun x acc => insert_sorted leb x acc) [] l.

End Py.

(** ** annotated_tokens.py *)

Definition NO_SUGGESTIONS : string := "NO_SUGGESTIONS".

(** [class OnOverlap(str, Enum)]: every member compares equal to its string
    value, and [combine] passes the plain strings. *)
Module OnOverlap.
Definition ERROR : string := "error".
Definition OVERRIDE : string := "override".
Definition SAVE_OLD : string := "save_old".
Definition MERGE_STRICT : string := "merge_strict".
Definition MERGE_EXPAND : string := "merge_expand".
End OnOverlap.

(** The exceptions the engine raises.  [OverlapError] is the class of the
    sources; the [ValueError]s are told apart by the place that raises them;
    [IndexError] and [AttributeError] come from a list index out of range and
    from an attribute that the object does not have. *)
Inductive value_error :=
| StartAfterEnd       (* annotate: start > end *)
| NotInList           (* remove, apply_correction *)
| UnknownAction       (* annotate: unknown on_overlap *)
| DifferentText.      (* combine *)

Inductive overlap_error :=
| OverlapDetected (n : nat)  (* annotate under "error", n overlapping *)
| MergeNotOneToOne (n : nat) (* merge_strict, merge_expand: n-1 merge *)
| SpansDiffer.               (* merge_strict *)

Inductive exn :=
| ValueError (why : value_error)
| OverlapError (why : overlap_error)
| IndexError
| AttributeError.

Inductive outcome (A : Type) :=
| Ok (a : A)
| Raise (e : exn).
Arguments Ok {A} a.
Arguments Raise {A} e.

(** *** class MutableTokens *)

Module MutableTokens.

Record t := mk {
  _tokens : list string;
  _edits : list (Z * Z * string)
}.

(** [MutableTokens(tokens)]; the buffer always passes a list of tokens. *)
Definition __init__ (tokens : list string) : t :=
  {| _tokens := tokens; _edits := [] |}.

Definition replace (start end_ : Z) (value : string) (self : t) : t :=
  {| _tokens := _tokens self;
     _edits := _edits self ++ [(start, end_, value)] |}.

Definition get_source_tokens (self : t) : list string := _tokens self.

Definition get_source_text (self : t) : string :=
  Py.join " " (get_source_tokens self).

(** The order of [key=lambda x: (x[0], x[1])]. *)
Definition edit_leb (x y : Z * Z * string) : bool :=
  let '(b1, e1, _) := x in
  let '(b2, e2, _) := y in
  (b1 <? b2) || ((b1 =? b2) && (e1 <=? e2)).

(** One turn of the loop of [get_edited_tokens] on [(result, i)]. *)
Definition edit_step (highlight : bool) (t : list string)
    (acc : list string * Z) (edit : Z * Z * string) : list string * Z :=
  let '(result, i) := acc in
  let '(begin, end_, val) := edit in
  let result := result ++ Py.slice t i begin in
  let result :=
    if negb highlight && Py.contains "NO_SUGGESTIONS" val
    then result ++ Py.slice t begin end_
    else if Py.truthy val then result ++ Py.split_char " " val
    else result in
  (result, end_).

Definition get_edited_tokens (highlight : bool) (self : t) : list string :=
  let t := _tokens self in
  let '(result, i) :=
    fold_left (edit_step highlight t)
              (Py.sorted edit_leb (_edits self)) ([], 0) in
  result ++ Py.slice_from t i.

Definition get_edited_text (highlight : bool) (self : t) : string :=
  Py.join " " (get_edited_tokens highlight self).

Definition apply_edits (self : t) : t :=
  {| _tokens := get_edited_tokens false self; _edits := [] |}.

End MutableTokens.

(** *** class TokenAnnotation *)

(** [meta] is a dict from strings to values that are only ever formatted and
    compared: an association list in insertion order, which [items()] and the
    rendering follow. *)
Definition dict : Type := list (string * string).

(** [d[k] = v]: an existing key keeps its place. *)
Fixpoint dict_set (k v : string) (d : dict) : dict :=
  match d with
  | [] => [(k, v)]
  | (k', v') :: d' =>
      if String.eqb k' k then (k', v) :: d' else (k', v') :: dict_set k v d'
  end.

(** [{**a, **b}]. *)
Definition dict_merge (a b : dict) : dict :=
  fold_left (fun d kv => dict_set kv.1 kv.2 d) b a.

(** The order of Python on the pairs of [items()]. *)
Definition item_leb (x y : string * string) : bool :=
  if String.ltb x.1 y.1 then true
  else if String.eqb x.1 y.1 then String.leb x.2 y.2
  else false.

Record TokenAnnotation := mkTokenAnnotation {
  start : Z;
  end_ : Z;
  source_text : string;
  suggestions : list string;
  meta : dict
}.

(** [a._replace(start=s, end=e)]: a new record. *)
Definition _replace (a : TokenAnnotation) (s e : Z) : TokenAnnotation :=
  mkTokenAnnotation s e (source_text a) (suggestions a) (meta a).

(** [TokenAnnotation.__eq__]. *)
Definition __eq__ (self other : TokenAnnotation) : bool :=
  (start self =? start other)
  && (end_ self =? end_ other)
  && String.eqb (source_text self) (source_text other)
  && bool_decide (suggestions self = suggestions other)
  && bool_decide (Py.sorted item_leb (meta self)
                  = Py.sorted item_leb (meta other)).

Definition top_suggestion (self : TokenAnnotation) : option string :=
  match suggestions self with
  | [] => None
  | s :: _ => Some s
  end.

Definition _format_meta (self : TokenAnnotation) : string :=
  Py.join "" (map (fun kv => ":::" +:+ kv.1 +:+ "=" +:+ kv.2) (meta self)).

Definition to_str (with_meta : bool) (self : TokenAnnotation) : string :=
  let repl :=
    match suggestions self with
    | [] => NO_SUGGESTIONS
    | _ => Py.join "|" (suggestions self)
    end in
  let meta_text := if with_meta then _format_meta self else "" in
  "{" +:+ source_text self +:+ "=>" +:+ repl +:+ meta_text +:+ "}".

(** [_unique_list]. *)
Definition _unique_list (array : list string) : list string :=
  fold_left (fun res x => if bool_decide (x ∈ res) then res else res ++ [x])
            array [].

(** [span_intersect]: the index of the first span that intersects
    [[begin, end)], or -1. *)
Definition strictly_inside (a b x y : Z) : bool :=
  (x <? a) && (a <=? b) && (b <? y).

Fixpoint span_intersect_from (index : Z) (spans : list (Z * Z))
    (begin end_ : Z) : Z :=
  match spans with
  | [] => -1
  | (b, e) :: rest =>
      let overlap := Z.max 0 (Z.min end_ e - Z.max begin b) in
      if negb (overlap =? 0) then index
      else if strictly_inside b e begin end_ then index
      else if strictly_inside begin end_ b e then index
      else span_intersect_from (index + 1) rest begin end_
  end.

Definition span_intersect (spans : list (Z * Z)) (begin end_ : Z) : Z :=
  span_intersect_from 0 spans begin end_.

(** *** class AnnotatedTokens *)

Record AnnotatedTokens := mkAnnotatedTokens {
  _tokens : list string;
  _annotations : list TokenAnnotation
}.

(** [AnnotatedTokens(tokens)]: a string is split on single spaces, a list is
    taken as it is. *)
Inductive str_or_list :=
| Str (s : string)
| Lst (l : list string).

Definition __init__ (tokens : str_or_list) : AnnotatedTokens :=
  match tokens with
  | Str s => mkAnnotatedTokens (Py.split_char " " s) []
  | Lst l => mkAnnotatedTokens l []
  end.

(** A method call: from the buffer before it to what it returns or raises,
    and the buffer after it. *)
Definition M (A : Type) : Type :=
  AnnotatedTokens -> outcome A * AnnotatedTokens.

Definition ret {A} (a : A) : M A := fun self => (Ok a, self).

Definition raise {A} (e : exn) : M A := fun self => (Raise e, self).

Definition bind {A B} (m : M A) (k : A -> M B) : M B :=
  fun self =>
    match m self with
    | (Ok a, self') => k a self'
    | (Raise e, self') => (Raise e, self')
    end.

Definition get_self : M AnnotatedTokens := fun self => (Ok self, self).

Definition set_annotations (anns : list TokenAnnotation) : M unit :=
  fun self => (Ok tt, mkAnnotatedTokens (_tokens self) anns).

Definition set_tokens (tokens : list string) : M unit :=
  fun self => (Ok tt, mkAnnotatedTokens tokens (_annotations self)).

Notation "x <- c1 ;; c2" := (bind c1 (fun x => c2))
  (at level 100, c1 at next level, right associativity).
Notation "c1 ;; c2" := (bind c1 (fun _ => c2))
  (at level 100, right associativity).

(** [for x in xs: body(x)], left as soon as a turn raises. *)
Fixpoint for_each {A} (xs : list A) (body : A -> M unit) : M unit :=
  match xs with
  | [] => ret tt
  | x :: xs' => body x ;; for_each xs' body
  end.

(** [self._annotations.append(ann)]. *)
Definition append_annotation (ann : TokenAnnotation) : M unit :=
  self <- get_self ;;
  set_annotations (_annotations self ++ [ann]).

(** The three shapes of [correct_value]. *)
Inductive correct_value :=
| Single (s : string)
| NoValue
| Several (l : list string).

(** The [on_overlap] argument: the name of a policy or a callable. *)
Inductive on_overlap_arg :=
| Policy (name : string)
| Callable (h : list TokenAnnotation -> TokenAnnotation -> M unit).

(** The test of one annotation in [_get_overlaps]. *)
Definition overlaps (s e : Z) (ann : TokenAnnotation) : bool :=
  if negb (span_intersect [(start ann, end_ ann)] s e =? -1) then true
  else (s =? e) && (start ann =? end_ ann) && (s =? start ann).

Definition _get_overlaps (self : AnnotatedTokens) (s e : Z)
  : list TokenAnnotation :=
  List.filter (overlaps s e) (_annotations self).

Definition get_annotations (self : AnnotatedTokens) : list TokenAnnotation :=
  _annotations self.

Definition get_annotation_at (self : AnnotatedTokens) (s e : Z)
  : option TokenAnnotation :=
  List.find (fun ann => (start ann =? s) && (end_ ann =? e))
            (_annotations self).

(** [AnnotatedTokens.__eq__] against another buffer.  [ann != found]
    compares the two named tuples field by field, which on integers,
    strings, lists of strings and dicts of strings is the negation of
    [TokenAnnotation.__eq__]; against [None] it holds. *)
Definition AnnotatedTokens__eq__ (self other : AnnotatedTokens) : bool :=
  if negb (bool_decide (_tokens self = _tokens other)) then false
  else if negb (length (_annotations self) =? length (_annotations other))%nat
  then false
  else
    forallb
      (fun ann =>
         match get_annotation_at self (start ann) (end_ ann) with
         | Some found => __eq__ ann found
         | None => false
         end)
      (_annotations other).

(** [remove]: [list.remove] compares with [__eq__]. *)
Definition remove (annotation : TokenAnnotation) : M unit :=
  self <- get_self ;;
  match Py.list_remove __eq__ annotation (_annotations self) with
  | Some anns => set_annotations anns
  | None => raise (ValueError NotInList)
  end.

(** [annotate], with the two merge handlers as parameters: they are defined
    after the class and call [annotate] back. *)
Definition annotate_with
    (merge_strict merge_expand
      : list TokenAnnotation -> TokenAnnotation -> M unit)
    (s e : Z) (value : correct_value) (meta : option dict)
    (on_overlap : on_overlap_arg) : M unit :=
  if s >? e then raise (ValueError StartAfterEnd)
  else
    let meta := default [] meta in
    self <- get_self ;;
    let bad := Py.join " " (Py.slice (_tokens self) s e) in
    let suggestions :=
      match value with
      | Single s => [s]
      | NoValue => []
      | Several l => l
      end in
    let new_ann := mkTokenAnnotation s e bad suggestions meta in
    let overlapping := _get_overlaps self s e in
    match overlapping with
    | [] => append_annotation new_ann
    | _ :: _ =>
        match on_overlap with
        | Callable h => h overlapping new_ann
        | Policy name =>
            if String.eqb name OnOverlap.SAVE_OLD then ret tt
            else if String.eqb name OnOverlap.OVERRIDE then
              for_each overlapping remove ;;
              append_annotation new_ann
            else if String.eqb name OnOverlap.ERROR then
              raise (OverlapError (OverlapDetected (length overlapping)))
            else if String.eqb name OnOverlap.MERGE_STRICT then
              merge_strict overlapping new_ann
            else if String.eqb name OnOverlap.MERGE_EXPAND then
              merge_expand overlapping new_ann
            else raise (ValueError UnknownAction)
        end
    end.

(** [text.annotate(..., on_overlap=OnOverlap.ERROR)] as the merge handlers
    call it: under that policy no handler is reached. *)
Definition annotate_error (s e : Z) (value : correct_value)
    (meta : option dict) : M unit :=
  annotate_with (fun _ _ => ret tt) (fun _ _ => ret tt)
                s e value meta (Policy OnOverlap.ERROR).

(** [merge_strict]. *)
Definition merge_strict (overlapping : list TokenAnnotation)
    (new_ann : TokenAnnotation) : M unit :=
  match overlapping with
  | _ :: _ :: _ =>
      raise (OverlapError (MergeNotOneToOne (length overlapping)))
  | [] => raise IndexError
  | [existing] =>
      if negb (start existing =? start new_ann)
         || negb (end_ existing =? end_ new_ann)
      then raise (OverlapError SpansDiffer)
      else
        let suggestions :=
          _unique_list (suggestions existing ++ suggestions new_ann) in
        let meta := dict_merge (meta existing) (meta new_ann) in
        remove existing ;;
        annotate_error (start new_ann) (end_ new_ann) (Several suggestions)
                       (Some meta)
  end.

(** [text._text]: [AnnotatedTokens.__init__] sets [_annotations] and
    [_tokens] and nothing else, and no method adds an attribute, so that
    reading [_text] raises [AttributeError]. *)
Definition _text : M string := raise AttributeError.

(** [s[i:j]] on a string. *)
Definition str_slice (s : string) (i j : Z) : string :=
  string_of_list_ascii (Py.slice (list_ascii_of_string s) i j).

(** [merge_expand]. *)
Definition merge_expand (overlapping : list TokenAnnotation)
    (new_ann : TokenAnnotation) : M unit :=
  match overlapping with
  | _ :: _ :: _ =>
      raise (OverlapError (MergeNotOneToOne (length overlapping)))
  | [] => raise IndexError
  | [existing] =>
      let s := Z.min (start existing) (start new_ann) in
      let e := Z.max (end_ existing) (end_ new_ann) in
      let expand (annotation : TokenAnnotation) : M (list string) :=
        text <- _text ;;
        let prefix := str_slice text s (start annotation) in
        text <- _text ;;
        let suffix := str_slice text (end_ annotation) e in
        ret (map (fun sugg => prefix +:+ sugg +:+ suffix)
                 (suggestions annotation)) in
      s1 <- expand existing ;;
      s2 <- expand new_ann ;;
      let suggestions := _unique_list (s1 ++ s2) in
      let meta := dict_merge (meta existing) (meta new_ann) in
      remove existing ;;
      annotate_error s e (Several suggestions) (Some meta)
  end.

Definition annotate : Z -> Z -> correct_value -> option dict ->
                      on_overlap_arg -> M unit :=
  annotate_with merge_strict merge_expand.

(** [len(s.split(" ")) if s else 0], the token count of [apply_correction]. *)
Definition token_count (s : string) : Z :=
  if Py.truthy s then Z.of_nat (length (Py.split_char " " s)) else 0.

(** One turn of [for i, a in enumerate(self._annotations)] in
    [apply_correction]: the list is read and written in place at [i]. *)
Definition remap_step (from delta : Z) (anns : list TokenAnnotation)
    (i : nat) : list TokenAnnotation :=
  match anns !! i with
  | Some a =>
      if start a >=? from
      then <[i := _replace a (start a + delta) (end_ a + delta)]> anns
      else anns
  | None => anns
  end.

(** [apply_correction]. *)
Definition apply_correction (annotation : TokenAnnotation) (level : Z)
  : M unit :=
  self <- get_self ;;
  match Py.list_remove __eq__ annotation (_annotations self) with
  | None => raise (ValueError NotInList)
  | Some anns =>
      set_annotations anns ;;
      let tokens := MutableTokens.__init__ (_tokens self) in
      repl <- match suggestions annotation with
              | [] => ret (source_text annotation)
              | _ :: _ =>
                  match Py.index (suggestions annotation) level with
                  | Some r => ret r
                  | None => raise IndexError
                  end
              end ;;
      let tokens :=
        MutableTokens.replace (start annotation) (end_ annotation) repl
                              tokens in
      set_tokens (MutableTokens.get_edited_tokens false tokens) ;;
      let old_len := token_count (source_text annotation) in
      let new_len := token_count repl in
      let delta := new_len - old_len in
      self <- get_self ;;
      set_annotations
        (fold_left (remap_step (start annotation) delta)
                   (seq 0 (length (_annotations self)))
                   (_annotations self))
  end.

Definition get_original_tokens (self : AnnotatedTokens) : list string :=
  _tokens self.

Definition get_original_text (self : AnnotatedTokens) : string :=
  Py.join " " (get_original_tokens self).

(** [get_corrected_tokens]: an annotation without a suggestion at [level]
    stages no edit. *)
Definition get_corrected_tokens (level : Z) (self : AnnotatedTokens)
  : list string :=
  let tokens :=
    fold_left
      (fun tokens ann =>
         match Py.index (suggestions ann) level with
         | Some sugg =>
             MutableTokens.replace (start ann) (end_ ann) sugg tokens
         | None => tokens
         end)
      (_annotations self) (MutableTokens.__init__ (_tokens self)) in
  MutableTokens.get_edited_tokens false tokens.

Definition get_corrected_text (level : Z) (self : AnnotatedTokens) : string :=
  Py.join " " (get_corrected_tokens level self).

Definition get_annotated_text (with_meta : bool) (self : AnnotatedTokens)
  : string :=
  let tokens :=
    fold_left
      (fun tokens ann =>
         MutableTokens.replace (start ann) (end_ ann) (to_str with_meta ann)
                               tokens)
      (_annotations self) (MutableTokens.__init__ (_tokens self)) in
  Py.join " " (MutableTokens.get_edited_tokens true tokens).

(** [combine].  [other] is read only; when it is the buffer itself every
    annotation overlaps itself, so nothing is appended while its list is
    walked and the walk sees the list of the start. *)
Definition combine (other : AnnotatedTokens) (discard_overlap : bool)
  : M unit :=
  self <- get_self ;;
  if negb (String.eqb (get_original_text self) (get_original_text other))
  then raise (ValueError DifferentText)
  else
    let on_overlap : string :=
      if discard_overlap then "save_old" else "error" in
    for_each (get_annotations other)
             (fun ann =>
                annotate (start ann) (end_ ann) (Several (suggestions ann))
                         (Some (meta ann)) (Policy on_overlap)).

(** *** The generator [iter_annotations]

    [for ann in tokens.iter_annotations(): body] runs the body at every
    [yield].  The body is the caller's: it receives the number of the visit
    and the annotation, and acts on the buffer.  The loop ends when the
    generator is exhausted or when an exception leaves it; the recursion is
    on a number of turns, and [OutOfFuel] says the number did not suffice. *)

Inductive loop_result :=
| Exhausted (visited : list TokenAnnotation) (self : AnnotatedTokens)
| Propagated (e : exn) (visited : list TokenAnnotation)
             (self : AnnotatedTokens)
| OutOfFuel.

Fixpoint iter_annotations_from (fuel : nat)
    (body : nat -> TokenAnnotation -> M unit) (i n_anns : Z)
    (visited : list TokenAnnotation) (self : AnnotatedTokens) : loop_result :=
  match fuel with
  | O => OutOfFuel
  | S fuel' =>
      if i <? n_anns then
        match Py.index (_annotations self) i with
        | None => Propagated IndexError visited self
        | Some ann =>
            match body (length visited) ann self with
            | (Raise e, self') => Propagated e (visited ++ [ann]) self'
            | (Ok _, self') =>
                let delta := Z.of_nat (length (_annotations self')) - n_anns in
                iter_annotations_from fuel' body (i + (delta + 1))
                  (Z.of_nat (length (_annotations self')))
                  (visited ++ [ann]) self'
            end
        end
      else Exhausted visited self
  end.

Definition iter_annotations (fuel : nat)
    (body : nat -> TokenAnnotation -> M unit) (self : AnnotatedTokens)
  : loop_result :=
  iter_annotations_from fuel body 0
    (Z.of_nat (length (_annotations self))) [] self.

(** [filter_annotations(f)] for a function of the annotation and the
    buffer. *)
Definition filter_annotations (fuel : nat)
    (f : TokenAnnotation -> AnnotatedTokens -> bool) (self : AnnotatedTokens)
  : loop_result :=
  iter_annotations fuel
    (fun _ ann => self <- get_self ;;
                  if f ann self then ret tt else remove ann)
    self.

(** ** difflib.SequenceMatcher

    [align] calls [difflib.SequenceMatcher(None, a, b).get_opcodes()] of the
    Python standard library.  This is its algorithm for sequences of strings
    with no junk predicate and the default [autojunk=True]; the loops over
    junk elements, which never run without a junk predicate, are left out. *)

Module difflib.

Definition Match : Type := nat * nat * nat.

Inductive tag := replace | delete | insert | equal.

Definition opcode : Type := tag * nat * nat * nat * nat.

Section SequenceMatcher.

Variables a b : list string.

(** [__chain_b]: the positions of every element of [b], in increasing
    order. *)
Definition chain_step (b2j : gmap string (list nat))
    (ie : nat * string) : gmap string (list nat) :=
  <[ie.2 := default [] (b2j !! ie.2) ++ [ie.1]]> b2j.

Definition b2j_all : gmap string (list nat) :=
  fold_left chain_step (imap pair b) ∅.

(** The elements that are too popular are purged when [b] is long. *)
Definition b2j : gmap string (list nat) :=
  let n := length b in
  if (200 <=? n)%nat then
    let ntest := (n / 100 + 1)%nat in
    filter (fun kv => (length kv.2 <= ntest)%nat) b2j_all
  else b2j_all.

(** The loop [for j in b2j.get(a[i], nothing)] of [find_longest_match],
    on the best match so far and [newj2len]. *)
Fixpoint scan_row (i blo bhi : nat) (j2len : gmap nat nat)
    (js : list nat) (best : Match) (newj2len : gmap nat nat)
  : Match * gmap nat nat :=
  match js with
  | [] => (best, newj2len)
  | j :: js' =>
      if (j <? blo)%nat then scan_row i blo bhi j2len js' best newj2len
      else if (bhi <=? j)%nat then (best, newj2len)
      else
        let k := (match j with
                  | O => 0
                  | S j' => default 0 (j2len !! j')
                  end + 1)%nat in
        let newj2len := <[j := k]> newj2len in
        let best :=
          if (best.2 <? k)%nat then ((i + 1 - k)%nat, (j + 1 - k)%nat, k)
          else best in
        scan_row i blo bhi j2len js' best newj2len
  end.

(** One turn of [for i in range(alo, ahi)]. *)
Definition row_step (blo bhi : nat) (acc : Match * gmap nat nat)
    (i : nat) : Match * gmap nat nat :=
  let '(best, j2len) := acc in
  let js := match a !! i with
            | Some x => default [] (b2j !! x)
            | None => []
            end in
  scan_row i blo bhi j2len js best ∅.

Definition same_at (i j : nat) : bool :=
  match a !! i, b !! j with
  | Some x, Some y => bool_decide (x = y)
  | _, _ => false
  end.

(** [while besti > alo and bestj > blo and a[besti-1] == b[bestj-1]]. *)
Fixpoint extend_left (alo blo besti bestj bestsize : nat) : Match :=
  match besti, bestj with
  | S i', S j' =>
      if (alo <? besti)%nat && (blo <? bestj)%nat && same_at i' j'
      then extend_left alo blo i' j' (S bestsize)
      else (besti, bestj, bestsize)
  | _, _ => (besti, bestj, bestsize)
  end.

(** [while besti+bestsize < ahi and bestj+bestsize < bhi and
    a[besti+bestsize] == b[bestj+bestsize]]; the recursion is on the
    distance of [besti+bestsize] to [ahi]. *)
Fixpoint extend_right (todo ahi bhi besti bestj bestsize : nat) : nat :=
  match todo with
  | O => bestsize
  | S todo' =>
      if (besti + bestsize <? ahi)%nat && (bestj + bestsize <? bhi)%nat
         && same_at (besti + bestsize) (bestj + bestsize)
      then extend_right todo' ahi bhi besti bestj (S bestsize)
      else bestsize
  end.

Definition find_longest_match (alo ahi blo bhi : nat) : Match :=
  let '((besti, bestj, bestsize), _) :=
    fold_left (row_step blo bhi) (seq alo (ahi - alo))
              ((alo, blo, 0%nat), ∅) in
  let '(besti, bestj, bestsize) :=
    extend_left alo blo besti bestj bestsize in
  let bestsize :=
    extend_right (ahi - (besti + bestsize)) ahi bhi besti bestj bestsize in
  (besti, bestj, bestsize).

(** [while queue:] of [get_matching_blocks].  The queue is used as a
    stack: it is kept here with its last element first, so [pop()] takes
    the head and [append] is a cons.  The recursion is on a number of
    turns; what is left of the queue is returned with the blocks. *)
Fixpoint match_queue (fuel : nat) (queue : list (nat * nat * nat * nat))
    (matching_blocks : list Match)
  : list (nat * nat * nat * nat) * list Match :=
  match fuel with
  | O => (queue, matching_blocks)
  | S fuel' =>
      match queue with
      | [] => (queue, matching_blocks)
      | (alo, ahi, blo, bhi) :: queue =>
          let '(i, j, k) := find_longest_match alo ahi blo bhi in
          if (0 <? k)%nat then
            let matching_blocks := matching_blocks ++ [(i, j, k)] in
            let queue :=
              if (alo <? i)%nat && (blo <? j)%nat
              then (alo, i, blo, j) :: queue else queue in
            let queue :=
              if (i + k <? ahi)%nat && (j + k <? bhi)%nat
              then ((i + k)%nat, ahi, (j + k)%nat, bhi) :: queue
              else queue in
            match_queue fuel' queue matching_blocks
          else match_queue fuel' queue matching_blocks
      end
  end.

(** The order of Python on triples, for [matching_blocks.sort()]. *)
Definition match_leb (x y : Match) : bool :=
  let '(i1, j1, k1) := x in
  let '(i2, j2, k2) := y in
  (i1 <? i2)%nat
  || ((i1 =? i2)%nat
      && ((j1 <? j2)%nat || ((j1 =? j2)%nat && (k1 <=? k2)%nat))).

(** One turn of the loop that collapses adjacent blocks, on
    [((i1, j1, k1), non_adjacent)]. *)
Definition collapse_step (acc : Match * list Match) (x : Match)
  : Match * list Match :=
  let '((i1, j1, k1), non_adjacent) := acc in
  let '(i2, j2, k2) := x in
  if (i1 + k1 =? i2)%nat && (j1 + k1 =? j2)%nat
  then ((i1, j1, (k1 + k2)%nat), non_adjacent)
  else ((i2, j2, k2),
        if (0 <? k1)%nat then non_adjacent ++ [(i1, j1, k1)]
        else non_adjacent).

(** [get_matching_blocks].  Every turn of the queue loop that finds a
    block takes at least one position of [a] out of the ranges still to
    search, and pushes at most two ranges: [2 * len(a) + 1] turns
    suffice (lemma [match_queue_empties]). *)
Definition get_matching_blocks : list Match :=
  let la := length a in
  let lb := length b in
  let '(_, matching_blocks) :=
    match_queue (2 * la + 1) [(0, la, 0, lb)%nat] [] in
  let matching_blocks := Py.sorted match_leb matching_blocks in
  let '((i1, j1, k1), non_adjacent) :=
    fold_left collapse_step matching_blocks ((0, 0, 0)%nat, []) in
  let non_adjacent :=
    if (0 <? k1)%nat then non_adjacent ++ [(i1, j1, k1)]
    else non_adjacent in
  non_adjacent ++ [(la, lb, 0%nat)].

(** One turn of the loop of [get_opcodes], on [((i, j), answer)]. *)
Definition opcode_step (acc : nat * nat * list opcode) (m : Match)
  : nat * nat * list opcode :=
  let '(i, j, answer) := acc in
  let '(ai, bj, size) := m in
  let answer :=
    if (i <? ai)%nat && (j <? bj)%nat
    then answer ++ [(replace, i, ai, j, bj)]
    else if (i <? ai)%nat then answer ++ [(delete, i, ai, j, bj)]
    else if (j <? bj)%nat then answer ++ [(insert, i, ai, j, bj)]
    else answer in
  let i := (ai + size)%nat in
  let j := (bj + size)%nat in
  let answer :=
    if (0 <? size)%nat then answer ++ [(equal, ai, i, bj, j)]
    else answer in
  (i, j, answer).

Definition get_opcodes : list opcode :=
  (fold_left opcode_step get_matching_blocks (0, 0, [])%nat).2.

End SequenceMatcher.
End difflib.

(** ** align.py *)

Definition _tag (diff : difflib.opcode) : difflib.tag := diff.1.1.1.1.

Definition _get_tokens (str_or_list : str_or_list) : list string :=
  match str_or_list with
  | Str s => Py.split s
  | Lst l => l
  end.

(** [_gen_diffs]: the opcodes are all computed before the first [yield]. *)
Definition _gen_diffs (original translation : str_or_list)
  : list (Z * Z * string) :=
  let tokens := _get_tokens original in
  let translation_tokens := _get_tokens translation in
  let diffs := difflib.get_opcodes tokens translation_tokens in
  flat_map
    (fun diff =>
       match _tag diff with
       | difflib.equal => []
       | _ =>
           let '(_, i1, i2, j1, j2) := diff in
           [(Z.of_nat i1, Z.of_nat i2,
             Py.join " " (Py.slice translation_tokens
                                   (Z.of_nat j1) (Z.of_nat j2)))]
       end)
    diffs.

(** [align]: the buffer it returns, or the exception that leaves it. *)
Definition align (source target : str_or_list) : outcome AnnotatedTokens :=
  let source := match source with
                | Str s => Py.split s
                | Lst l => l
                end in
  let ann_tokens := __init__ (Lst source) in
  match for_each (_gen_diffs (Lst source) target)
                 (fun diff =>
                    let '(l, r, repl) := diff in
                    annotate l r (Single repl) None (Policy OnOverlap.ERROR))
                 ann_tokens with
  | (Ok _, ann_tokens) => Ok ann_tokens
  | (Raise e, _) => Raise e
  end.

(** ** Notions of the statements *)

(** What [_get_overlaps] tests, as a proposition. *)
Definition overlap_spec (s e : Z) (a : TokenAnnotation) : Prop :=
  Z.max s (start a) < Z.min e (end_ a)
  \/ (s < start a /\ start a <= end_ a /\ end_ a < e)
  \/ (start a < s /\ s <= e /\ e < end_ a)
  \/ (s = e /\ start a = end_ a /\ s = start a).

(** The annotation [annotate] builds from its arguments. *)
Definition new_annotation (self : AnnotatedTokens) (s e : Z)
    (value : correct_value) (meta : option dict) : TokenAnnotation :=
  mkTokenAnnotation s e (Py.join " " (Py.slice (_tokens self) s e))
    match value with
    | Single x => [x]
    | NoValue => []
    | Several l => l
    end
    (default [] meta).

(** The buffer with another collection of annotations. *)
Definition with_annotations (self : AnnotatedTokens)
    (anns : list TokenAnnotation) : AnnotatedTokens :=
  mkAnnotatedTokens (_tokens self) anns.

(** What the loop of [apply_correction] does to one annotation. *)
Definition remap (from delta : Z) (a : TokenAnnotation) : TokenAnnotation :=
  if start a >=? from then _replace a (start a + delta) (end_ a + delta)
  else a.

(** The replacement text [apply_correction] uses, when there is one. *)
Definition replacement (ann : TokenAnnotation) (level : Z) : option string :=
  match suggestions ann with
  | [] => Some (source_text ann)
  | _ :: _ => Py.index (suggestions ann) level
  end.

(** [item_leb] as a relation. *)
Definition item_le (x y : string * string) : Prop := item_leb x y = true.

(** Equality by value: the fields [__eq__] compares. *)
Definition same_value (x y : TokenAnnotation) : Prop :=
  start x = start y
  /\ end_ x = end_ y
  /\ source_text x = source_text y
  /\ suggestions x = suggestions y
  /\ meta x ≡ₚ meta y.

(** One turn of the loop of [_unique_list]. *)
Definition unique_step (res : list string) (x : string) : list string :=
  if bool_decide (x ∈ res) then res else res ++ [x].

(** What the specification says of [combine] on buffers over one text: the
    annotations of [other] are inserted one after the other; an annotation
    that overlaps one already there is dropped when overlaps are discarded
    and stops the call with [OverlapError] otherwise. *)
Fixpoint insert_all (discard_overlap : bool) (tokens : list string)
    (anns new : list TokenAnnotation)
  : outcome unit * list TokenAnnotation :=
  match new with
  | [] => (Ok tt, anns)
  | a :: rest =>
      if start a >? end_ a then (Raise (ValueError StartAfterEnd), anns)
      else
        match List.filter (overlaps (start a) (end_ a)) anns with
        | [] =>
            insert_all discard_overlap tokens
              (anns ++ [mkTokenAnnotation (start a) (end_ a)
                          (Py.join " " (Py.slice tokens (start a) (end_ a)))
                          (suggestions a) (meta a)])
              rest
        | x :: overlapping =>
            if discard_overlap then insert_all discard_overlap tokens anns rest
            else (Raise (OverlapError
                           (OverlapDetected (length (x :: overlapping)))),
                  anns)
        end
  end.

(** What the body of the loop may do with the annotation it is given. *)
Inductive action :=
| Keep
| Remove
| Correct (level : Z).

Definition act_on (act : action) (ann : TokenAnnotation) : M unit :=
  match act with
  | Keep => ret tt
  | Remove => remove ann
  | Correct level => apply_correction ann level
  end.

(** A caller that decides from the number of the visit, the annotation and
    the buffer. *)
Definition caller
    (choose : nat -> TokenAnnotation -> AnnotatedTokens -> action)
  : nat -> TokenAnnotation -> M unit :=
  fun k ann self => act_on (choose k ann self) ann self.

(** The same annotation under remapped coordinates. *)
Definition shifted (a v : TokenAnnotation) : Prop :=
  exists d, v = _replace a (start a + d) (end_ a + d).

(** The body consumes the annotation: it removes it, or corrects it at a
    level that has a replacement. *)
Definition consuming (act : action) (ann : TokenAnnotation) : Prop :=
  act = Remove
  \/ exists level, act = Correct level /\ is_Some (replacement ann level).

(** The edit [get_annotated_text] stages for an annotation. *)
Definition edit_of (with_meta : bool) (ann : TokenAnnotation)
  : Z * Z * string :=
  (start ann, end_ ann, to_str with_meta ann).

(** The token list in which every staged edit stands as one unit, between
    the tokens it does not cover. *)
Definition place_step (t : list string) (acc : list string * Z)
    (edit : Z * Z * string) : list string * Z :=
  let '(result, i) := acc in
  let '(begin, end_, val) := edit in
  (result ++ Py.slice t i begin ++ [val], end_).

(** The tokens with the edits placed, in the order given. *)
Definition placed (t : list string) (edits : list (Z * Z * string))
  : list string :=
  let '(result, i) := fold_left (place_step t) edits ([], 0) in
  result ++ Py.slice_from t i.

(** Two token lists that render alike wherever they are placed. *)
Definition same_text (l1 l2 : list string) : Prop :=
  (l1 = [] <-> l2 = []) /\ Py.join " " l1 = Py.join " " l2.

(** Notions about the matcher of difflib, on positions. *)

Section MatcherNotions.

Local Open Scope nat_scope.

(** [m] lists, for every element of [l], its positions in increasing
    order, and has no other key. *)
Definition indexes (m : gmap string (list nat)) (l : list string) : Prop :=
  forall x,
    match m !! x with
    | Some js =>
        StronglySorted lt js /\ forall j, j ∈ js <-> l !! j = Some x
    | None => forall j, l !! j <> Some x
    end.

(** The positions [b2j] keeps for [x]: all of them, or none. *)
Definition js_of (b : list string) (x : string) : list nat :=
  default [] (difflib.b2j b !! x).

Variable toks : list string.

(** Position [j] is listed by [b2j] under the element at position [i]. *)
Definition matchable (i j : nat) : bool :=
  match toks !! i with
  | Some x => bool_decide (j ∈ js_of toks x)
  | None => false
  end.

(** The length [find_longest_match] records at [(i, j)]. *)
Fixpoint run (i j : nat) : nat :=
  match i with
  | O => if matchable 0 j then 1 else 0
  | S i' =>
      if matchable (S i') j
      then S (match j with O => 0 | S j' => run i' j' end)
      else 0
  end.

(** The length recorded in the row above, none above the first row. *)
Definition run_before (i j : nat) : nat :=
  match i with O => 0 | S i' => run i' j end.

(** What holds of the best match while row [i] is scanned and the
    positions [rest] are still to come. *)
Definition best_inv (i : nat) (rest : list nat) (best : difflib.Match)
  : Prop :=
  best.1.1 = best.1.2
  /\ best.1.1 + best.2 <= S i
  /\ (forall j, j < i -> run j j <= best.2)
  /\ (i ∉ rest -> run i i <= best.2).

(** The best match lies in the ranges searched, [a[alo:top]] and
    [b[blo:bhi]]. *)
Definition best_bounds (alo blo bhi top : nat) (best : difflib.Match)
  : Prop :=
  alo <= best.1.1 /\ best.1.1 + best.2 <= top
  /\ blo <= best.1.2 /\ best.1.2 + best.2 <= bhi.

(** A length recorded at [j] fits in the rows scanned and left of [j]. *)
Definition lens_bounds (blo rows : nat) (m : gmap nat nat) : Prop :=
  forall j v, m !! j = Some v -> v <= rows /\ v + blo <= j + 1.

(** The turns a queue can still cost. *)
Definition queue_weight (queue : list (nat * nat * nat * nat)) : nat :=
  foldr (fun item w => 2 * (item.1.1.2 - item.1.1.1) + 1 + w) 0 queue.

(** A queued range [(alo, ahi, blo, bhi)] is not reversed. *)
Definition range_ok (item : nat * nat * nat * nat) : Prop :=
  item.1.1.1 <= item.1.1.2 /\ item.1.2 <= item.2.

End MatcherNotions.

(** Notions about the blocks the matcher finds in [a] and [b]. *)

Section BlockNotions.

Local Open Scope nat_scope.

Variables a b : list string.

(** [a[i:i+k] == b[j:j+k]] for the block [(i, j, k)], position by
    position, inside [a]. *)
Definition is_match (m : difflib.Match) : Prop :=
  forall t, t < m.2 ->
    is_Some (a !! (m.1.1 + t)) /\ a !! (m.1.1 + t) = b !! (m.1.2 + t).

(** The lengths recorded for the row above row [i]: each is the length of
    a common run that ends in that row. *)
Definition lens_match (i : nat) (m : gmap nat nat) : Prop :=
  forall j v, m !! j = Some v ->
    v <= i /\ v <= S j
    /\ forall t, t < v ->
         is_Some (a !! (i - 1 - t)) /\ a !! (i - 1 - t) = b !! (j - t).

(** The ranges of [a] and of [b] a block covers, as the queue has them. *)
Definition block_range (m : difflib.Match) : nat * nat * nat * nat :=
  (m.1.1, m.1.1 + m.2, m.1.2, m.1.2 + m.2).

(** One range lies before the other, in [a] and in [b]. *)
Definition range_before (x y : nat * nat * nat * nat) : Prop :=
  x.1.1.2 <= y.1.1.1 /\ x.2 <= y.1.2.

Definition range_apart (x y : nat * nat * nat * nat) : Prop :=
  range_before x y \/ range_before y x.

(** A range of the queue lies inside the sequences. *)
Definition range_in (item : nat * nat * nat * nat) : Prop :=
  item.1.1.1 <= item.1.1.2 /\ item.1.1.2 <= length a
  /\ item.1.2 <= item.2 /\ item.2 <= length b.

(** A block the queue loop appends: not empty, a common block, inside the
    sequences. *)
Definition block_ok (m : difflib.Match) : Prop :=
  0 < m.2 /\ is_match m
  /\ m.1.1 + m.2 <= length a /\ m.1.2 + m.2 <= length b.

Definition block_before (x y : difflib.Match) : Prop :=
  x.1.1 + x.2 <= y.1.1 /\ x.1.2 + x.2 <= y.1.2.

(** What the queue loop keeps: ranges and blocks lie inside the sequences
    and any two of them are apart. *)
Definition queue_inv (queue : list (nat * nat * nat * nat))
    (blocks : list difflib.Match) : Prop :=
  Forall range_in queue
  /\ Forall block_ok blocks
  /\ ForallOrdPairs range_apart (queue ++ map block_range blocks).

(** The blocks from position [(i, j)] on go up in both sequences, are
    common blocks, and only the last one may be empty; after the last one
    both sequences are at their end. *)
Fixpoint chain (i j : nat) (blocks : list difflib.Match) : Prop :=
  match blocks with
  | [] => i = length a /\ j = length b
  | m :: rest =>
      i <= m.1.1 /\ j <= m.1.2 /\ is_match m
      /\ m.1.1 + m.2 <= length a /\ m.1.2 + m.2 <= length b
      /\ (0 < m.2 \/ rest = [])
      /\ chain (m.1.1 + m.2) (m.1.2 + m.2) rest
  end.

(** What the loop that collapses adjacent blocks returns, from the block in
    hand and the blocks to come. *)
Fixpoint collapsed (cur : difflib.Match) (blocks : list difflib.Match)
  : list difflib.Match :=
  match blocks with
  | [] => if 0 <? cur.2 then [cur] else []
  | y :: rest =>
      if (cur.1.1 + cur.2 =? y.1.1) && (cur.1.2 + cur.2 =? y.1.2)
      then collapsed (cur.1.1, cur.1.2, cur.2 + y.2) rest
      else (if 0 <? cur.2 then [cur] else []) ++ collapsed y rest
  end.

(** The stretches between the blocks, from position [(i, j)] on: the
    source range and the target range of every opcode that is not
    ['equal']. *)
Fixpoint gaps (i j : nat) (blocks : list difflib.Match)
  : list (nat * nat * nat * nat) :=
  match blocks with
  | [] => []
  | m :: rest =>
      (if (i <? m.1.1) || (j <? m.1.2) then [(i, m.1.1, j, m.1.2)] else [])
      ++ gaps (m.1.1 + m.2) (m.1.2 + m.2) rest
  end.

End BlockNotions.

(** What [_gen_diffs] yields for a stretch between two blocks. *)
Definition diff_of_gap (translation_tokens : list string)
    (g : nat * nat * nat * nat) : Z * Z * string :=
  (Z.of_nat g.1.1.1, Z.of_nat g.1.1.2,
   Py.join " " (Py.slice translation_tokens (Z.of_nat g.1.2) (Z.of_nat g.2))).

(** The annotation [align] makes of what [_gen_diffs] yields. *)
Definition annotation_of_diff (tokens : list string) (diff : Z * Z * string)
  : TokenAnnotation :=
  mkTokenAnnotation diff.1.1 diff.1.2
    (Py.join " " (Py.slice tokens diff.1.1 diff.1.2)) [diff.2] [].

(** A diff ends before the next one starts. *)
Definition diff_before (x y : Z * Z * string) : Prop := x.1.2 < y.1.1.

(** [" " in s]. *)
Fixpoint has_space (s : string) : bool :=
  match s with
  | EmptyString => false
  | String c s' => Ascii.eqb c " " || has_space s'
  end.

(** A token as [str.split] makes them: not empty, without a space. *)
Definition plain_token (t : string) : Prop :=
  t <> EmptyString /\ has_space t = false.

(** Two annotations that [_get_overlaps] keeps apart: the second does not
    overlap the span of the first. *)
Definition apart (x y : TokenAnnotation) : Prop :=
  overlaps (start x) (end_ x) y = false.

(** No two annotations of the list overlap. *)
Definition pairwise_apart (anns : list TokenAnnotation) : Prop :=
  ForallOrdPairs apart anns.

(** Every span goes forward. *)
Definition spans_forward (anns : list TokenAnnotation) : Prop :=
  Forall (fun a => start a <= end_ a) anns.

(** The spans [span_intersect] counts as intersecting [[begin, end)]: they
    share a position, or one lies strictly inside the other. *)
Definition intersects (begin end_ : Z) (span : Z * Z) : Prop :=
  Z.max begin span.1 < Z.min end_ span.2
  \/ (begin < span.1 /\ span.1 <= span.2 /\ span.2 < end_)
  \/ (span.1 < begin /\ begin <= end_ /\ end_ < span.2).

(** The annotation of [align] for a stretch between two blocks, after the
    corrections before it moved it by [shift] tokens. *)
Definition moved_annotation (a b : list string) (shift : Z)
    (g : nat * nat * nat * nat) : TokenAnnotation :=
  mkTokenAnnotation
    (Z.of_nat g.1.1.1 + shift) (Z.of_nat g.1.1.2 + shift)
    (Py.join " " (Py.slice a (Z.of_nat g.1.1.1) (Z.of_nat g.1.1.2)))
    [Py.join " " (Py.slice b (Z.of_nat g.1.2) (Z.of_nat g.2))] [].

(** The key [get_edited_tokens] sorts the edits by, and its strict order. *)
Definition edit_key (x : Z * Z * string) : Z * Z := (x.1.1, x.1.2).

Definition edit_lt (x y : Z * Z * string) : Prop :=
  x.1.1 < y.1.1 \/ (x.1.1 = y.1.1 /\ x.1.2 < y.1.2).

(** The edit [get_corrected_tokens] stages for an annotation, if any. *)
Definition correction_edit (level : Z) (ann : TokenAnnotation)
  : list (Z * Z * string) :=
  match Py.index (suggestions ann) level with
  | Some sugg => [(start ann, end_ ann, sugg)]
  | None => []
  end.

(** The span of an annotation. *)
Definition span (ann : TokenAnnotation) : Z * Z := (start ann, end_ ann).

(** The shift [apply_correction] applies to the annotations that follow
    when it corrects [x] at [level]. *)
Definition shift_of (x : TokenAnnotation) (level : Z) : Z :=
  match replacement x level with
  | Some repl => token_count repl - token_count (source_text x)
  | None => 0
  end.

(** An annotation under the coordinates that the corrections made so far
    have given it; every correction is recorded by the start of the
    corrected annotation and its shift, and remaps like the loop of
    [apply_correction]. *)
Definition moved (shifts : list (Z * Z)) (a : TokenAnnotation)
  : TokenAnnotation :=
  fold_left (fun a fd => remap fd.1 fd.2 a) shifts a.

(** What the specification says of the safe iterator: the annotations the
    collection has at the start are presented to the body one after the
    other, each exactly once and in their order, under the coordinates the
    corrections before it have given it; the body acts on the buffer, and an
    exception of the body ends the loop. *)
Fixpoint visit_in_turn
    (choose : nat -> TokenAnnotation -> AnnotatedTokens -> action)
    (visited : list TokenAnnotation) (shifts : list (Z * Z))
    (pending : list TokenAnnotation) (self : AnnotatedTokens)
  : loop_result :=
  match pending with
  | [] => Exhausted visited self
  | a :: rest =>
      let x := moved shifts a in
      let act := choose (length visited) x self in
      match act_on act x self with
      | (Raise e, self') => Propagated e (visited ++ [x]) self'
      | (Ok _, self') =>
          visit_in_turn choose (visited ++ [x])
            match act with
            | Correct level => shifts ++ [(start x, shift_of x level)]
            | _ => shifts
            end
            rest self'
      end
  end.

(** The same edit at a place that may differ: the source text, the
    suggestions, the metadata and the number of tokens covered.  The place
    itself is what [visit_in_turn] computes. *)
Definition same_edit (a v : TokenAnnotation) : Prop :=
  source_text v = source_text a
  /\ suggestions v = suggestions a
  /\ meta v = meta a
  /\ end_ v - start v = end_ a - start a.

(** * Properties *)

(** ** The examples of the docstrings *)

Example replace_doctest :
  MutableTokens.get_edited_text false
    (MutableTokens.replace 1 2 "brown"
       (MutableTokens.__init__ ["the"; "red"; "fox"]))
  = "the brown fox".
Proof. vm_compute. reflexivity. Qed.

Example annotate_doctest :
  get_annotated_text true
    (annotate 1 2 (Several ["brown"; "white"]) None (Policy OnOverlap.ERROR)
       (__init__ (Str "the red fox"))).2
  = "the {red=>brown|white} fox".
Proof. vm_compute. reflexivity. Qed.

Example apply_correction_doctest :
  let tokens :=
    ((annotate 0 1 (Single "ONE") None (Policy OnOverlap.ERROR) ;;
      annotate 1 2 (Single "two") None (Policy OnOverlap.ERROR))
       (__init__ (Str "one too"))).2 in
  match get_annotations tokens with
  | a :: _ => get_annotated_text true (apply_correction a 0 tokens).2
  | [] => ""
  end
  = "ONE {too=>two}".
Proof. vm_compute. reflexivity. Qed.

Example iter_annotations_doctest :
  let tokens :=
    ((annotate 0 1 (Single "One") None (Policy OnOverlap.ERROR) ;;
      annotate 1 2 (Single "Two") None (Policy OnOverlap.ERROR) ;;
      annotate 2 3 (Single "Three") None (Policy OnOverlap.ERROR))
       (__init__ (Str "1 2 3"))).2 in
  match iter_annotations 4
          (fun i ann => match i with
                        | O => apply_correction ann 0
                        | _ => remove ann
                        end)
          tokens with
  | Exhausted _ tokens' => get_annotated_text true tokens'
  | _ => ""
  end
  = "One 2 3".
Proof. vm_compute. reflexivity. Qed.

Example get_annotated_text_doctest :
  let tokens :=
    (annotate 0 2 (Single "Hello ,") (Some [("key", "value")])
              (Policy OnOverlap.ERROR)
       (__init__ (Str "helo . world!"))).2 in
  get_annotated_text false tokens = "{helo .=>Hello ,} world!"
  /\ get_annotated_text true tokens = "{helo .=>Hello ,:::key=value} world!".
Proof. split; vm_compute; reflexivity. Qed.

Example get_corrected_text_doctest :
  get_corrected_text 0
    (annotate 0 1 (Single "Hello") None (Policy OnOverlap.ERROR)
       (__init__ (Str "helo world !"))).2
  = "Hello world !".
Proof. vm_compute. reflexivity. Qed.

Example to_str_doctest :
  to_str true (mkTokenAnnotation 0 1 "helo" ["hello"; "hola"] [])
  = "{helo=>hello|hola}".
Proof. vm_compute. reflexivity. Qed.

Example align_doctest :
  match align (Str "Hello world") (Str "Hey world") with
  | Ok tokens => get_annotated_text true tokens
  | Raise _ => ""
  end
  = "{Hello=>Hey} world".
Proof. vm_compute. reflexivity. Qed.

(** ** Spans and overlap *)

Ltac zbool :=
  repeat match goal with
         | |- context [(?x <? ?y)%Z] => destruct (Z.ltb_spec x y)
         | |- context [(?x <=? ?y)%Z] => destruct (Z.leb_spec x y)
         | |- context [(?x >? ?y)%Z] => rewrite (Z.gtb_ltb x y)
         | |- context [(?x >=? ?y)%Z] => rewrite (Z.geb_leb x y)
         | |- context [(?x =? ?y)%Z] =>
             lazymatch x with
             | context [if _ then _ else _] => fail
             | _ => destruct (Z.eqb_spec x y)
             end
         end; simpl.

Lemma overlaps_spec s e a : overlaps s e a = true <-> overlap_spec s e a.
Proof.
  unfold overlaps, overlap_spec, span_intersect, span_intersect_from,
    strictly_inside.
  zbool; split; intros; try discriminate; try reflexivity; try lia.
Qed.

Lemma overlaps_same_point p a :
  start a = p -> end_ a = p -> overlaps p p a = true.
Proof. intros. apply overlaps_spec. unfold overlap_spec. lia. Qed.

Lemma overlaps_same_span s e a :
  s <= e -> start a = s -> end_ a = e -> overlaps s e a = true.
Proof. intros. apply overlaps_spec. unfold overlap_spec. lia. Qed.

(** Spans that only touch do not overlap, unless both are the same point. *)
Lemma touching_spans_do_not_overlap s m e a :
  start a = s -> end_ a = m -> s <= m -> m <= e -> s < e ->
  overlaps m e a = false.
Proof.
  intros Hs Hm H1 H2 H3.
  destruct (overlaps m e a) eqn:E; [|reflexivity].
  apply overlaps_spec in E. unfold overlap_spec in E. lia.
Qed.

(** [overlaps] looks at the span of the annotation only. *)
Lemma overlaps_ext s e a a' :
  start a = start a' -> end_ a = end_ a' -> overlaps s e a = overlaps s e a'.
Proof. unfold overlaps. intros -> ->. reflexivity. Qed.

(** ** annotate *)

Lemma annotate_with_bad_span ms me s e v m pol self :
  e < s ->
  annotate_with ms me s e v m pol self
  = (Raise (ValueError StartAfterEnd), self).
Proof.
  intros H. unfold annotate_with.
  rewrite Z.gtb_ltb. destruct (Z.ltb_spec e s); [reflexivity | lia].
Qed.

Lemma annotate_with_no_overlap ms me s e v m pol self :
  s <= e -> _get_overlaps self s e = [] ->
  annotate_with ms me s e v m pol self
  = (Ok tt, with_annotations self
              (_annotations self ++ [new_annotation self s e v m])).
Proof.
  intros H Hov. unfold annotate_with.
  rewrite Z.gtb_ltb. destruct (Z.ltb_spec e s); [lia|].
  unfold bind, get_self. rewrite Hov. reflexivity.
Qed.

Lemma annotate_with_policy ms me s e v m name self :
  s <= e -> _get_overlaps self s e <> [] ->
  annotate_with ms me s e v m (Policy name) self
  = let overlapping := _get_overlaps self s e in
    let new_ann := new_annotation self s e v m in
    (if String.eqb name OnOverlap.SAVE_OLD then ret tt
     else if String.eqb name OnOverlap.OVERRIDE then
            for_each overlapping remove ;; append_annotation new_ann
     else if String.eqb name OnOverlap.ERROR then
            raise (OverlapError (OverlapDetected (length overlapping)))
     else if String.eqb name OnOverlap.MERGE_STRICT then ms overlapping new_ann
     else if String.eqb name OnOverlap.MERGE_EXPAND then me overlapping new_ann
     else raise (ValueError UnknownAction)) self.
Proof.
  intros H Hov. unfold annotate_with.
  rewrite Z.gtb_ltb. destruct (Z.ltb_spec e s); [lia|].
  unfold bind at 1, get_self at 1.
  destruct (_get_overlaps self s e) eqn:E; [congruence|]. reflexivity.
Qed.

Lemma annotate_error_overlap s e v m self :
  s <= e -> _get_overlaps self s e <> [] ->
  annotate s e v m (Policy OnOverlap.ERROR) self
  = (Raise (OverlapError (OverlapDetected (length (_get_overlaps self s e)))),
     self).
Proof.
  intros. unfold annotate. rewrite annotate_with_policy by assumption.
  reflexivity.
Qed.

(** Under the policy ["error"] the merge handlers are never reached: the
    call of the handlers is the method itself. *)
Lemma annotate_error_is_annotate s e v m self :
  annotate_error s e v m self = annotate s e v m (Policy OnOverlap.ERROR) self.
Proof.
  unfold annotate_error, annotate.
  destruct (Z.ltb_spec e s).
  - rewrite !annotate_with_bad_span by assumption. reflexivity.
  - destruct (_get_overlaps self s e) eqn:E.
    + rewrite !annotate_with_no_overlap by assumption. reflexivity.
    + rewrite !annotate_with_policy by (rewrite ?E; easy). reflexivity.
Qed.

(** ** Two insertions at one point (C8) *)

(** C8.  Whatever the buffer and the position [p], when the zero-length
    span [(p, p)] is annotated twice with the default policy ["error"], the
    second call raises [OverlapError] and leaves the buffer as the first call
    left it: two zero-length annotations at one point overlap.  Two distinct
    spans that only touch, [(s, m)] and [(m, e)], do not overlap, whichever
    of the two is the stored one. *)
Theorem annotate_same_point_twice_raises :
  (forall (self : AnnotatedTokens) (p : Z) (v1 v2 : correct_value)
          (m1 m2 : option dict),
      let self1 := (annotate p p v1 m1 (Policy OnOverlap.ERROR) self).2 in
      exists n, (1 <= n)%nat /\
        annotate p p v2 m2 (Policy OnOverlap.ERROR) self1
        = (Raise (OverlapError (OverlapDetected n)), self1))
  /\ (forall (s m e : Z) (a1 a2 : TokenAnnotation),
        s <= m -> m <= e -> s < e ->
        start a1 = s -> end_ a1 = m -> start a2 = m -> end_ a2 = e ->
        overlaps m e a1 = false /\ overlaps s m a2 = false).
Proof.
  split.
  - intros self p v1 v2 m1 m2 self1.
    assert (Hne : _get_overlaps self1 p p <> []).
    { subst self1. destruct (_get_overlaps self p p) eqn:E.
      - unfold annotate.
        rewrite annotate_with_no_overlap by (lia || assumption).
        simpl. unfold _get_overlaps, with_annotations. simpl.
        rewrite List.filter_app. simpl.
        rewrite overlaps_same_point by reflexivity.
        intros H. apply app_eq_nil in H as [_ H]. discriminate.
      - rewrite annotate_error_overlap by (rewrite ?E; (lia || easy)).
        simpl. rewrite E. easy. }
    exists (length (_get_overlaps self1 p p)). split.
    + destruct (_get_overlaps self1 p p); [congruence | simpl; lia].
    + apply annotate_error_overlap; [lia | assumption].
  - intros s m e a1 a2 ? ? ? ? ? ? ?. split.
    + eapply touching_spans_do_not_overlap; eauto.
    + destruct (overlaps s m a2) eqn:E; [|reflexivity].
      apply overlaps_spec in E. unfold overlap_spec in E. lia.
Qed.

Lemma annotate_same_point_twice_raises_witness :
  (exists n, (1 <= n)%nat /\
     annotate 1 1 (Single "very") None (Policy OnOverlap.ERROR)
       (annotate 1 1 (Single "quite") None (Policy OnOverlap.ERROR)
          (__init__ (Str "the fox"))).2
     = (Raise (OverlapError (OverlapDetected n)),
        (annotate 1 1 (Single "quite") None (Policy OnOverlap.ERROR)
           (__init__ (Str "the fox"))).2))
  /\ overlaps 1 2 (mkTokenAnnotation 0 1 "the" ["a"] []) = false
  /\ overlaps 0 1 (mkTokenAnnotation 1 2 "fox" ["dog"] []) = false.
Proof.
  destruct annotate_same_point_twice_raises as [H1 H2]. split.
  - exact (H1 (__init__ (Str "the fox")) 1 (Single "quite") (Single "very")
              None None).
  - apply (H2 0 1 2); simpl; lia.
Defined.

(** ** A level without a suggestion (C2) *)

(** The order of [apply_correction]: the annotation is removed, then the
    level is read. *)
Lemma apply_correction_raises_after_remove
    (self : AnnotatedTokens) (ann : TokenAnnotation) (level : Z)
    (anns : list TokenAnnotation) :
  Py.list_remove __eq__ ann (_annotations self) = Some anns ->
  suggestions ann <> [] ->
  Py.index (suggestions ann) level = None ->
  apply_correction ann level self
  = (Raise IndexError, mkAnnotatedTokens (_tokens self) anns).
Proof.
  intros Hrm Hne Hidx. unfold apply_correction, bind, get_self.
  rewrite Hrm. simpl.
  destruct (suggestions ann) eqn:E; [congruence|].
  rewrite Hidx. reflexivity.
Qed.

Lemma list_remove_length {A} (eqb : A -> A -> bool) x l r :
  Py.list_remove eqb x l = Some r -> length l = S (length r).
Proof.
  revert r. induction l as [|y l IH]; intros r; simpl; [discriminate|].
  destruct (eqb y x); [now intros [= <-]|].
  destruct (Py.list_remove eqb x l) as [r'|]; [|discriminate].
  intros [= <-]. simpl. now rewrite (IH r').
Qed.

(** C2.  [apply_correction] is not atomic.  When the annotation is in the
    buffer, has suggestions, and [level] indexes none of them, the call
    raises [IndexError] and leaves a buffer that is not the one before the
    call: the token list is as it was, and the annotation has been removed
    from the collection. *)
Theorem apply_correction_bad_level_removes_annotation
    (self : AnnotatedTokens) (ann : TokenAnnotation) (level : Z)
    (anns : list TokenAnnotation) :
  Py.list_remove __eq__ ann (_annotations self) = Some anns ->
  suggestions ann <> [] ->
  Py.index (suggestions ann) level = None ->
  exists self',
    apply_correction ann level self = (Raise IndexError, self')
    /\ _tokens self' = _tokens self
    /\ _annotations self' = anns
    /\ length (_annotations self) = S (length (_annotations self'))
    /\ self' <> self.
Proof.
  intros Hrm Hne Hidx. exists (mkAnnotatedTokens (_tokens self) anns).
  split; [now apply apply_correction_raises_after_remove|].
  pose proof (list_remove_length _ _ _ _ Hrm) as Hlen.
  split_and!; auto.
  intros E. rewrite <- E in Hlen. cbn in Hlen. lia.
Qed.

Lemma apply_correction_bad_level_removes_annotation_witness :
  let a := mkTokenAnnotation 0 1 "one" ["ONE"] [] in
  let a' := mkTokenAnnotation 1 2 "too" ["two"] [] in
  let self := mkAnnotatedTokens ["one"; "too"] [a; a'] in
  exists self',
    apply_correction a 1 self = (Raise IndexError, self')
    /\ _tokens self' = _tokens self
    /\ _annotations self' = [a']
    /\ length (_annotations self) = S (length (_annotations self'))
    /\ self' <> self.
Proof.
  intros a a' self.
  apply (apply_correction_bad_level_removes_annotation self a 1 [a']).
  - reflexivity.
  - discriminate.
  - reflexivity.
Defined.

(** When the annotation is not in the buffer, the call raises before it
    changes anything. *)
Lemma apply_correction_not_found self ann level :
  Py.list_remove __eq__ ann (_annotations self) = None ->
  apply_correction ann level self = (Raise (ValueError NotInList), self).
Proof.
  intros H. unfold apply_correction, bind, get_self. rewrite H. reflexivity.
Qed.

(** ** merge_expand (C3) *)

(** C3.  With the policy ["merge_expand"], when exactly one annotation
    overlaps the new span the handler reads [text._text], which the buffer
    does not have: the call raises [AttributeError] and the buffer is
    unchanged, no merged annotation is made.  When two or more annotations
    overlap, the call raises [OverlapError]. *)
Theorem annotate_merge_expand_raises
    (self : AnnotatedTokens) (s e : Z) (v : correct_value)
    (m : option dict) :
  s <= e ->
  (forall existing, _get_overlaps self s e = [existing] ->
     annotate s e v m (Policy OnOverlap.MERGE_EXPAND) self
     = (Raise AttributeError, self))
  /\ ((2 <= length (_get_overlaps self s e))%nat ->
      annotate s e v m (Policy OnOverlap.MERGE_EXPAND) self
      = (Raise (OverlapError
                  (MergeNotOneToOne (length (_get_overlaps self s e)))),
         self)).
Proof.
  intros Hse. split.
  - intros existing Hov. unfold annotate.
    rewrite annotate_with_policy by (rewrite ?Hov; easy).
    rewrite Hov. reflexivity.
  - intros Hlen. unfold annotate.
    destruct (_get_overlaps self s e) as [|x [|y l]] eqn:Hov;
      simpl in Hlen; try lia.
    rewrite annotate_with_policy by (rewrite ?Hov; easy).
    rewrite Hov. reflexivity.
Qed.

Lemma annotate_merge_expand_raises_witness :
  let a := mkTokenAnnotation 0 2 "a b" ["x"] [] in
  let a' := mkTokenAnnotation 2 3 "c" ["y"] [] in
  annotate 1 2 (Single "z") None (Policy OnOverlap.MERGE_EXPAND)
    (mkAnnotatedTokens ["a"; "b"; "c"] [a; a'])
  = (Raise AttributeError, mkAnnotatedTokens ["a"; "b"; "c"] [a; a'])
  /\ annotate 1 3 (Single "z") None (Policy OnOverlap.MERGE_EXPAND)
       (mkAnnotatedTokens ["a"; "b"; "c"] [a; a'])
     = (Raise (OverlapError (MergeNotOneToOne 2)),
        mkAnnotatedTokens ["a"; "b"; "c"] [a; a']).
Proof.
  intros a a'. split.
  - apply (proj1 (annotate_merge_expand_raises
                    (mkAnnotatedTokens ["a"; "b"; "c"] [a; a']) 1 2
                    (Single "z") None ltac:(lia)) a).
    reflexivity.
  - apply (proj2 (annotate_merge_expand_raises
                    (mkAnnotatedTokens ["a"; "b"; "c"] [a; a']) 1 3
                    (Single "z") None ltac:(lia))).
    simpl. lia.
Defined.

(** ** Remapping after a correction (C1) *)

Lemma remap_loop_from from delta (pre post : list TokenAnnotation) :
  fold_left (remap_step from delta) (seq (length pre) (length post))
            (pre ++ post)
  = pre ++ map (remap from delta) post.
Proof.
  revert pre. induction post as [|a post IH]; intros pre; [reflexivity|].
  cbn [length seq fold_left map].
  assert (Hstep : remap_step from delta (pre ++ a :: post) (length pre)
                  = (pre ++ [remap from delta a]) ++ post).
  { unfold remap_step, remap. rewrite list_lookup_middle by reflexivity.
    destruct (start a >=? from).
    - rewrite (insert_app_r_alt pre (a :: post) (length pre)) by lia.
      rewrite Nat.sub_diag. cbn. now rewrite <- app_assoc.
    - now rewrite <- app_assoc. }
  rewrite Hstep.
  replace (S (length pre)) with (length (pre ++ [remap from delta a]))
    by (rewrite length_app; simpl; lia).
  rewrite IH. now rewrite <- app_assoc.
Qed.

Lemma remap_loop from delta (anns : list TokenAnnotation) :
  fold_left (remap_step from delta) (seq 0 (length anns)) anns
  = map (remap from delta) anns.
Proof. exact (remap_loop_from from delta [] anns). Qed.

(** The call as a whole, when it goes through. *)
Lemma apply_correction_ok self ann level anns repl :
  Py.list_remove __eq__ ann (_annotations self) = Some anns ->
  replacement ann level = Some repl ->
  apply_correction ann level self
  = (Ok tt,
     mkAnnotatedTokens
       (MutableTokens.get_edited_tokens false
          (MutableTokens.replace (start ann) (end_ ann) repl
             (MutableTokens.__init__ (_tokens self))))
       (map (remap (start ann)
                   (token_count repl - token_count (source_text ann)))
            anns)).
Proof.
  intros Hrm Hrepl. unfold apply_correction, bind, get_self.
  rewrite Hrm. cbn [set_annotations].
  unfold replacement in Hrepl.
  destruct (suggestions ann) eqn:E.
  - injection Hrepl as <-. cbn. now rewrite remap_loop.
  - rewrite Hrepl. cbn. now rewrite remap_loop.
Qed.

(** The call goes through exactly when the annotation is found and the
    level has a replacement. *)
Lemma apply_correction_ok_inv self ann level self' :
  apply_correction ann level self = (Ok tt, self') ->
  exists anns repl,
    Py.list_remove __eq__ ann (_annotations self) = Some anns
    /\ replacement ann level = Some repl.
Proof.
  intros H.
  destruct (Py.list_remove __eq__ ann (_annotations self)) as [anns|] eqn:Hrm.
  - destruct (replacement ann level) as [repl|] eqn:Hrepl; [eauto|].
    unfold replacement in Hrepl.
    destruct (suggestions ann) eqn:E; [discriminate|].
    rewrite <- E in Hrepl.
    assert (Hne : suggestions ann <> []) by congruence.
    rewrite (apply_correction_raises_after_remove
               self ann level anns Hrm Hne Hrepl) in H.
    discriminate.
  - rewrite apply_correction_not_found in H by assumption. discriminate.
Qed.

Lemma remap_Forall2 from delta (anns : list TokenAnnotation) :
  Forall2
    (fun a a' =>
       (from <= start a ->
        a' = mkTokenAnnotation (start a + delta) (end_ a + delta)
               (source_text a) (suggestions a) (meta a))
       /\ (start a < from -> a' = a))
    anns (map (remap from delta) anns).
Proof.
  induction anns as [|a anns IH]; cbn [map]; constructor; [|exact IH].
  unfold remap, _replace. rewrite Z.geb_leb.
  destruct (Z.leb_spec from (start a)); split; intros; (reflexivity || lia).
Qed.

(** C1.  After a successful [apply_correction(annotation, level)], the
    annotations of the buffer are the remaining ones, in their order, and for
    every one of them: when its start is at or after the start of the
    corrected annotation, its start and its end are both shifted by
    [delta], the token count of the replacement minus the token count of the
    corrected annotation's [source_text]; when its start is before, it is
    the same record, wherever it ends. *)
Theorem apply_correction_remaps_annotations
    (self self' : AnnotatedTokens) (ann : TokenAnnotation) (level : Z) :
  apply_correction ann level self = (Ok tt, self') ->
  exists (anns : list TokenAnnotation) (repl : string),
    Py.list_remove __eq__ ann (_annotations self) = Some anns
    /\ replacement ann level = Some repl
    /\ let delta := token_count repl - token_count (source_text ann) in
       Forall2
         (fun a a' =>
            (start ann <= start a ->
             a' = mkTokenAnnotation (start a + delta) (end_ a + delta)
                    (source_text a) (suggestions a) (meta a))
            /\ (start a < start ann -> a' = a))
         anns (_annotations self').
Proof.
  intros H.
  destruct (apply_correction_ok_inv _ _ _ _ H) as (anns & repl & Hrm & Hrepl).
  exists anns, repl. split; [assumption|]. split; [assumption|].
  rewrite (apply_correction_ok _ _ _ _ _ Hrm Hrepl) in H.
  injection H as <-. cbn [_annotations]. apply remap_Forall2.
Qed.

Lemma apply_correction_remaps_annotations_witness :
  let a := mkTokenAnnotation 1 2 "b" ["x y z"] [] in
  let before := mkTokenAnnotation 0 1 "a" ["A"] [] in
  let straddling := mkTokenAnnotation 0 3 "a b c" ["w"] [] in
  let after := mkTokenAnnotation 2 3 "c" ["C"] [] in
  let self := mkAnnotatedTokens ["a"; "b"; "c"]
                                [before; a; straddling; after] in
  exists anns repl,
    Py.list_remove __eq__ a (_annotations self) = Some anns
    /\ replacement a 0 = Some repl
    /\ let delta := token_count repl - token_count (source_text a) in
       Forall2
         (fun x x' =>
            (start a <= start x ->
             x' = mkTokenAnnotation (start x + delta) (end_ x + delta)
                    (source_text x) (suggestions x) (meta x))
            /\ (start x < start a -> x' = x))
         anns
         [before; straddling; mkTokenAnnotation 4 5 "c" ["C"] []].
Proof.
  intros a before straddling after self.
  apply (apply_correction_remaps_annotations self
           (mkAnnotatedTokens ["a"; "x"; "y"; "z"; "c"]
              [before; straddling; mkTokenAnnotation 4 5 "c" ["C"] []])
           a 0).
  vm_compute. reflexivity.
Defined.

(** ** Equality of annotations (C10) *)

Lemma string_ltb_spec (s1 s2 : string) :
  String.ltb s1 s2 = true <-> String.leb s1 s2 = true /\ s1 <> s2.
Proof.
  unfold String.ltb, String.leb.
  destruct (String.compare s1 s2) eqn:E; split; try easy.
  - apply String.compare_eq_iff in E. intros [_ H]. contradiction.
  - intros _. split; [reflexivity|]. intros ->.
    pose proof (String.compare_antisym s2 s2) as H.
    rewrite E in H. discriminate.
Qed.

Lemma item_le_lexico x y :
  item_le x y <->
  (String.le x.1 y.1 /\ x.1 <> y.1) \/ (x.1 = y.1 /\ String.le x.2 y.2).
Proof.
  unfold item_le, item_leb, String.le.
  destruct (String.ltb x.1 y.1) eqn:E1.
  - apply string_ltb_spec in E1 as [H1 H2]. rewrite H1. split; [|easy].
    intros _. left. split; [exact I | assumption].
  - destruct (String.eqb_spec x.1 y.1) as [Heq|Hne].
    + split.
      * intros H. right. split; [assumption|]. rewrite H. exact I.
      * intros [[_ H]|[_ H]]; [contradiction|]. now apply Is_true_true.
    + split; [discriminate|].
      intros [[H1 _]|[H1 _]]; [|contradiction].
      apply Is_true_true in H1.
      assert (String.ltb x.1 y.1 = true) by now apply string_ltb_spec.
      congruence.
Qed.

#[local] Instance item_le_trans : Transitive item_le.
Proof.
  intros x y z Hxy Hyz. apply item_le_lexico in Hxy, Hyz.
  apply item_le_lexico.
  destruct Hxy as [[H1 H2]|[H1 H2]], Hyz as [[H3 H4]|[H3 H4]].
  - left. split; [etrans; eassumption|].
    intros E. rewrite E in H1. apply H4. now apply (anti_symm String.le).
  - left. rewrite <- H3. easy.
  - left. rewrite H1. easy.
  - right. split; [congruence | etrans; eassumption].
Qed.

#[local] Instance item_le_antisym : AntiSymm (=) item_le.
Proof.
  intros x y Hxy Hyx. apply item_le_lexico in Hxy, Hyx.
  destruct x as [k1 v1], y as [k2 v2]. simpl in *.
  destruct Hxy as [[H1 H2]|[H1 H2]], Hyx as [[H3 H4]|[H3 H4]];
    try congruence.
  - exfalso. apply H2. now apply (anti_symm String.le).
  - subst. f_equal. now apply (anti_symm String.le).
Qed.

Lemma item_leb_total x y : item_leb x y = false -> item_leb y x = true.
Proof.
  intros H. apply item_le_lexico.
  assert (Hn : ~ item_le x y) by (unfold item_le; congruence).
  rewrite item_le_lexico in Hn.
  destruct (decide (x.1 = y.1)) as [E|E].
  - right. split; [easy|].
    destruct (total String.le x.2 y.2); [|assumption].
    exfalso. apply Hn. now right.
  - left. split; [|congruence].
    destruct (total String.le x.1 y.1); [|assumption].
    exfalso. apply Hn. now left.
Qed.

Lemma insert_sorted_perm {A} (leb : A -> A -> bool) x l :
  Py.insert_sorted leb x l ≡ₚ x :: l.
Proof.
  induction l as [|y l IH]; simpl; [reflexivity|].
  destruct (leb x y); [reflexivity|].
  rewrite IH. apply Permutation_swap.
Qed.

Lemma sorted_perm {A} (leb : A -> A -> bool) l : Py.sorted leb l ≡ₚ l.
Proof.
  induction l as [|x l IH]; simpl; [reflexivity|].
  rewrite insert_sorted_perm. now rewrite IH.
Qed.

Lemma insert_sorted_items x l :
  Sorted item_le l -> Sorted item_le (Py.insert_sorted item_leb x l).
Proof.
  induction 1 as [|y l Hs IH Hd]; simpl.
  - repeat constructor.
  - destruct (item_leb x y) eqn:E.
    + repeat constructor; assumption.
    + constructor; [assumption|].
      apply item_leb_total in E.
      destruct l as [|z l]; simpl.
      * now constructor.
      * destruct (item_leb x z); constructor; [assumption|].
        now inversion Hd.
Qed.

Lemma sorted_items m : Sorted item_le (Py.sorted item_leb m).
Proof.
  induction m as [|x m IH]; simpl; [constructor|].
  now apply insert_sorted_items.
Qed.

(** Sorting the items forgets the insertion order of a dict. *)
Lemma sorted_items_perm m1 m2 :
  Py.sorted item_leb m1 = Py.sorted item_leb m2 <-> m1 ≡ₚ m2.
Proof.
  split.
  - intros H. rewrite <- (sorted_perm item_leb m1), H. apply sorted_perm.
  - intros H. apply (Sorted_unique item_le); try apply sorted_items.
    now rewrite !sorted_perm.
Qed.

Lemma __eq___spec x y : __eq__ x y = true <-> same_value x y.
Proof.
  unfold __eq__, same_value.
  rewrite !andb_true_iff, !Z.eqb_eq, String.eqb_eq, !bool_decide_eq_true,
    sorted_items_perm.
  tauto.
Qed.

Lemma same_value_refl x : same_value x x.
Proof. unfold same_value. repeat split; reflexivity. Qed.

Lemma same_value_sym x y : same_value x y -> same_value y x.
Proof. unfold same_value. intros (?&?&?&?&?). repeat split; easy. Qed.

Lemma same_value_trans x y z :
  same_value x y -> same_value y z -> same_value x z.
Proof.
  unfold same_value. intros (?&?&?&?&?) (?&?&?&?&?).
  repeat split; try congruence. etrans; eassumption.
Qed.

(** [list.remove] splits the list at the first item equal to the value. *)
Lemma list_remove_Some_inv {A} (eqb : A -> A -> bool) x l r :
  Py.list_remove eqb x l = Some r ->
  exists pre y post,
    l = pre ++ y :: post /\ r = pre ++ post
    /\ eqb y x = true /\ Forall (fun z => eqb z x = false) pre.
Proof.
  revert r. induction l as [|z l IH]; intros r; simpl; [discriminate|].
  destruct (eqb z x) eqn:E.
  - intros [= <-]. exists [], z, l. repeat split; auto.
  - destruct (Py.list_remove eqb x l) as [r'|]; [|discriminate].
    intros [= <-].
    destruct (IH r' eq_refl) as (pre & y & post & -> & -> & Hy & Hpre).
    exists (z :: pre), y, post. repeat split; auto.
Qed.

Lemma list_remove_split {A} (eqb : A -> A -> bool) x pre y post :
  eqb y x = true -> Forall (fun z => eqb z x = false) pre ->
  Py.list_remove eqb x (pre ++ y :: post) = Some (pre ++ post).
Proof.
  intros Hy. induction 1 as [|z pre Hz _ IH]; simpl.
  - now rewrite Hy.
  - now rewrite Hz, IH.
Qed.

Lemma list_remove_found {A} (eqb : A -> A -> bool) x l y :
  In y l -> eqb y x = true -> exists r, Py.list_remove eqb x l = Some r.
Proof.
  induction l as [|z l IH]; simpl; [easy|].
  intros [->|Hin] Hy.
  - rewrite Hy. eauto.
  - destruct (eqb z x); [eauto|].
    destruct (IH Hin Hy) as [r ->]. eauto.
Qed.

Lemma replacement_default ann : exists repl, replacement ann 0 = Some repl.
Proof.
  unfold replacement. destruct (suggestions ann) as [|s l]; [eauto|].
  exists s. unfold Py.index. simpl.
  destruct (0 <? Z.pos (Pos.of_succ_nat (length l))) eqn:E; [reflexivity|].
  apply Z.ltb_ge in E. lia.
Qed.

(** C10.  [remove] and [apply_correction] find the annotation by value.
    When the buffer holds an annotation [stored], and [given] is any record
    with the same start, end, source text and suggestions and with the same
    metadata pairs (in whatever order), then [remove given] succeeds and
    takes out the first annotation of the collection that is equal by value
    to [given], and [apply_correction given] (at the default level) succeeds
    and consumes that same annotation. *)
Theorem remove_matches_by_value
    (self : AnnotatedTokens) (stored given : TokenAnnotation) :
  In stored (_annotations self) ->
  same_value given stored ->
  exists pre first post,
    _annotations self = pre ++ first :: post
    /\ same_value first given
    /\ Forall (fun a => ~ same_value a given) pre
    /\ remove given self
       = (Ok tt, mkAnnotatedTokens (_tokens self) (pre ++ post))
    /\ exists tokens' delta,
         apply_correction given 0 self
         = (Ok tt, mkAnnotatedTokens tokens'
                     (map (remap (start given) delta) (pre ++ post))).
Proof.
  intros Hin Hsame.
  destruct (list_remove_found __eq__ given (_annotations self) stored Hin)
    as [r Hr].
  { apply __eq___spec. now apply same_value_sym. }
  destruct (list_remove_Some_inv _ _ _ _ Hr)
    as (pre & first & post & Hl & -> & Hfirst & Hpre).
  exists pre, first, post. split; [assumption|].
  split; [now apply __eq___spec|]. split.
  { eapply Forall_impl; [exact Hpre|]. cbn. intros a Ha Hs.
    apply __eq___spec in Hs. congruence. }
  split.
  - unfold remove, bind, get_self. rewrite Hr. reflexivity.
  - destruct (replacement_default given) as [repl Hrepl].
    eexists _, _. apply (apply_correction_ok _ _ _ _ _ Hr Hrepl).
Qed.

Lemma remove_matches_by_value_witness :
  let other := mkTokenAnnotation 1 2 "b" ["B"] [] in
  let stored := mkTokenAnnotation 0 1 "a" ["A"] [("k", "1"); ("j", "2")] in
  let given := mkTokenAnnotation 0 1 "a" ["A"] [("j", "2"); ("k", "1")] in
  let self := mkAnnotatedTokens ["a"; "b"] [other; stored] in
  exists pre first post,
    _annotations self = pre ++ first :: post
    /\ same_value first given
    /\ Forall (fun a => ~ same_value a given) pre
    /\ remove given self
       = (Ok tt, mkAnnotatedTokens (_tokens self) (pre ++ post))
    /\ exists tokens' delta,
         apply_correction given 0 self
         = (Ok tt, mkAnnotatedTokens tokens'
                     (map (remap (start given) delta) (pre ++ post))).
Proof.
  intros other stored given self.
  apply (remove_matches_by_value self stored given).
  - simpl. right. left. reflexivity.
  - unfold same_value. simpl. repeat split. apply perm_swap.
Defined.

(** ** merge_strict (C6) *)

Lemma _unique_list_fold array :
  _unique_list array = fold_left unique_step array [].
Proof. reflexivity. Qed.

(** The loop of [_unique_list] keeps what it has, adds a subsequence of what
    it reads, keeps the list free of duplicates, and misses no element. *)
Lemma unique_fold_spec (array res : list string) :
  NoDup res ->
  exists r,
    fold_left unique_step array res = res ++ r
    /\ sublist r array
    /\ NoDup (res ++ r)
    /\ (forall x, x ∈ res ++ r <-> x ∈ res \/ x ∈ array).
Proof.
  revert res. induction array as [|y array IH]; intros res Hnd.
  - exists []. rewrite app_nil_r. split_and!; auto. set_solver.
  - cbn [fold_left]. unfold unique_step at 2. case_bool_decide as Hy.
    + destruct (IH res Hnd) as (r & Hr & Hsub & Hnd' & Hel).
      exists r. split_and!; auto.
      * now apply sublist_cons.
      * intros x. rewrite Hel. set_solver.
    + assert (Hnd1 : NoDup (res ++ [y])).
      { apply NoDup_app. split_and!; auto.
        - intros x Hx Hx'. apply list_elem_of_singleton in Hx'. now subst.
        - apply NoDup_singleton. }
      destruct (IH (res ++ [y]) Hnd1) as (r & Hr & Hsub & Hnd' & Hel).
      exists (y :: r). rewrite Hr, <- app_assoc. simpl.
      rewrite <- app_assoc in Hnd', Hel. simpl in Hnd', Hel.
      split_and!; auto.
      * now apply sublist_skip.
      * intros x. rewrite Hel. set_solver.
Qed.

Lemma _unique_list_spec array :
  NoDup (_unique_list array)
  /\ sublist (_unique_list array) array
  /\ (forall x, In x (_unique_list array) <-> In x array).
Proof.
  destruct (unique_fold_spec array [] (NoDup_nil_2))
    as (r & Hr & Hsub & Hnd & Hel).
  rewrite _unique_list_fold, Hr. simpl in *. split_and!; auto.
  intros x. rewrite <- !list_elem_of_In, Hel. set_solver.
Qed.

Lemma remove_ok self ann anns :
  Py.list_remove __eq__ ann (_annotations self) = Some anns ->
  remove ann self = (Ok tt, mkAnnotatedTokens (_tokens self) anns).
Proof. intros H. unfold remove, bind, get_self. now rewrite H. Qed.

(** When one annotation only passes a test that equality respects, removing
    it leaves none that passes. *)
Lemma list_remove_only (p : TokenAnnotation -> bool) x l :
  List.filter p l = [x] ->
  (forall y, __eq__ y x = true -> p y = true) ->
  exists l', Py.list_remove __eq__ x l = Some l' /\ List.filter p l' = [].
Proof.
  intros Hf Hp. induction l as [|y l IH]; simpl in *; [discriminate|].
  destruct (p y) eqn:Ey.
  - injection Hf as -> Hf.
    assert (__eq__ x x = true) as -> by (apply __eq___spec, same_value_refl).
    eauto.
  - destruct (__eq__ y x) eqn:E; [apply Hp in E; congruence|].
    destruct (IH Hf) as (l' & -> & Hl'). exists (y :: l'). split; [easy|].
    simpl. now rewrite Ey.
Qed.

Lemma __eq___overlaps s e x y :
  __eq__ y x = true -> overlaps s e x = true -> overlaps s e y = true.
Proof.
  intros H Ho. apply __eq___spec in H as (Hs & He & _).
  now rewrite (overlaps_ext s e y x).
Qed.

Lemma filter_nil_weaker {A} (p q : A -> bool) l :
  List.filter p l = [] -> (forall x, q x = true -> p x = true) ->
  List.filter q l = [].
Proof.
  intros Hp Hq. induction l as [|x l IH]; simpl in *; [reflexivity|].
  destruct (p x) eqn:Ep; [discriminate|].
  destruct (q x) eqn:Eq; [apply Hq in Eq; congruence | auto].
Qed.

(** The policy ["merge_strict"] with one overlapping annotation over the
    very span of the new one. *)
Lemma annotate_merge_strict_one self s e v m existing :
  s <= e ->
  _get_overlaps self s e = [existing] ->
  start existing = s -> end_ existing = e ->
  exists anns,
    Py.list_remove __eq__ existing (_annotations self) = Some anns
    /\ List.filter (overlaps s e) anns = []
    /\ annotate s e v m (Policy OnOverlap.MERGE_STRICT) self
       = (Ok tt,
          mkAnnotatedTokens (_tokens self)
            (anns ++
             [mkTokenAnnotation s e
                (Py.join " " (Py.slice (_tokens self) s e))
                (_unique_list
                   (suggestions existing
                    ++ suggestions (new_annotation self s e v m)))
                (dict_merge (meta existing) (default [] m))])).
Proof.
  intros Hse Hov Hs He.
  destruct (list_remove_only (overlaps s e) existing (_annotations self))
    as (anns & Hrm & Hnone); [exact Hov | |].
  { intros y Hy. apply (__eq___overlaps s e existing y Hy).
    now apply overlaps_same_span. }
  exists anns. split; [assumption|]. split; [assumption|].
  unfold annotate. rewrite annotate_with_policy by (rewrite ?Hov; easy).
  rewrite Hov. cbn -[_unique_list dict_merge remove annotate_error].
  rewrite Hs, He, !Z.eqb_refl.
  cbn -[_unique_list dict_merge remove annotate_error].
  unfold bind. rewrite (remove_ok _ _ _ Hrm).
  unfold annotate_error.
  rewrite annotate_with_no_overlap by assumption.
  reflexivity.
Qed.

(** C6.  Let the span [(s, e)] be free in the buffer.  When it is annotated
    twice, the second time with the policy ["merge_strict"], the buffer ends
    with one annotation over that span and its former annotations: the
    suggestions of that annotation have no duplicates, are the suggestions
    of the first call followed by the new ones of the second, in their order,
    and as a collection they are the same whichever of the two calls comes
    first. *)
Theorem merge_strict_identical_spans
    (self : AnnotatedTokens) (s e : Z) (v1 v2 : correct_value)
    (m1 m2 : option dict) (pol : on_overlap_arg) :
  s <= e ->
  _get_overlaps self s e = [] ->
  let s1 := suggestions (new_annotation self s e v1 m1) in
  let s2 := suggestions (new_annotation self s e v2 m2) in
  exists merged merged',
    (annotate s e v1 m1 pol ;;
     annotate s e v2 m2 (Policy OnOverlap.MERGE_STRICT)) self
    = (Ok tt, mkAnnotatedTokens (_tokens self)
                (_annotations self ++ [merged]))
    /\ (annotate s e v2 m2 pol ;;
        annotate s e v1 m1 (Policy OnOverlap.MERGE_STRICT)) self
       = (Ok tt, mkAnnotatedTokens (_tokens self)
                   (_annotations self ++ [merged']))
    /\ List.filter (fun a => (start a =? s) && (end_ a =? e))
                   (_annotations self ++ [merged]) = [merged]
    /\ suggestions merged = _unique_list (s1 ++ s2)
    /\ NoDup (suggestions merged)
    /\ sublist (suggestions merged) (s1 ++ s2)
    /\ (forall x, In x (suggestions merged) <-> In x s1 \/ In x s2)
    /\ (forall x, In x (suggestions merged) <-> In x (suggestions merged')).
Proof.
  intros Hse Hfree s1 s2.
  assert (Hstep : forall va ma vb mb,
    (annotate s e va ma pol ;;
     annotate s e vb mb (Policy OnOverlap.MERGE_STRICT)) self
    = (Ok tt,
       mkAnnotatedTokens (_tokens self)
         (_annotations self ++
          [mkTokenAnnotation s e
             (Py.join " " (Py.slice (_tokens self) s e))
             (_unique_list (suggestions (new_annotation self s e va ma)
                            ++ suggestions (new_annotation self s e vb mb)))
             (dict_merge (default [] ma) (default [] mb))]))).
  { intros va ma vb mb. unfold bind at 1. unfold annotate at 1.
    rewrite annotate_with_no_overlap by assumption.
    set (a1 := new_annotation self s e va ma).
    set (self1 := with_annotations self (_annotations self ++ [a1])).
    assert (Hov1 : _get_overlaps self1 s e = [a1]).
    { unfold _get_overlaps, self1. cbn [_annotations with_annotations].
      rewrite List.filter_app. unfold _get_overlaps in Hfree. rewrite Hfree.
      cbn [List.filter app].
      now rewrite (overlaps_same_span s e a1 Hse eq_refl eq_refl). }
    destruct (annotate_merge_strict_one self1 s e vb mb a1 Hse Hov1
                eq_refl eq_refl) as (anns & Hrm & _ & Heq).
    rewrite Heq. cbn [_annotations with_annotations self1] in Hrm.
    rewrite list_remove_split in Hrm.
    - injection Hrm as <-. rewrite app_nil_r. reflexivity.
    - apply __eq___spec, same_value_refl.
    - apply Forall_forall. intros y Hy.
      destruct (__eq__ y a1) eqn:E; [|reflexivity].
      apply (__eq___overlaps s e a1 y) in E;
        [|now apply overlaps_same_span].
      unfold _get_overlaps in Hfree.
      assert (Hin : In y (List.filter (overlaps s e) (_annotations self)))
        by (apply List.filter_In; split; [now apply list_elem_of_In | easy]).
      rewrite Hfree in Hin. destruct Hin. }
  eexists _, _. split; [apply Hstep|]. split; [apply Hstep|].
  cbn [suggestions]. fold s1 s2.
  destruct (_unique_list_spec (s1 ++ s2)) as (Hnd & Hsub & Hel).
  destruct (_unique_list_spec (s2 ++ s1)) as (_ & _ & Hel').
  split_and!; auto.
  - rewrite List.filter_app. cbn [List.filter start end_].
    rewrite !Z.eqb_refl. cbn [andb].
    rewrite (filter_nil_weaker (overlaps s e)); [reflexivity | exact Hfree |].
    intros a Ha. apply andb_true_iff in Ha as [Hs He].
    apply Z.eqb_eq in Hs, He. now apply overlaps_same_span.
  - intros x. rewrite Hel, in_app_iff. tauto.
  - intros x. rewrite Hel, Hel', !in_app_iff. tauto.
Qed.

Lemma merge_strict_identical_spans_witness :
  let self := __init__ (Str "the red fox") in
  let v1 := Several ["brown"; "white"] in
  let v2 := Several ["white"; "black"] in
  let s1 := suggestions (new_annotation self 1 2 v1 None) in
  let s2 := suggestions (new_annotation self 1 2 v2 None) in
  exists merged merged',
    (annotate 1 2 v1 None (Policy OnOverlap.ERROR) ;;
     annotate 1 2 v2 None (Policy OnOverlap.MERGE_STRICT)) self
    = (Ok tt, mkAnnotatedTokens (_tokens self)
                (_annotations self ++ [merged]))
    /\ (annotate 1 2 v2 None (Policy OnOverlap.ERROR) ;;
        annotate 1 2 v1 None (Policy OnOverlap.MERGE_STRICT)) self
       = (Ok tt, mkAnnotatedTokens (_tokens self)
                   (_annotations self ++ [merged']))
    /\ List.filter (fun a => (start a =? 1) && (end_ a =? 2))
                   (_annotations self ++ [merged]) = [merged]
    /\ suggestions merged = _unique_list (s1 ++ s2)
    /\ NoDup (suggestions merged)
    /\ sublist (suggestions merged) (s1 ++ s2)
    /\ (forall x, In x (suggestions merged) <-> In x s1 \/ In x s2)
    /\ (forall x, In x (suggestions merged) <-> In x (suggestions merged')).
Proof.
  intros self v1 v2.
  apply (merge_strict_identical_spans self 1 2 v1 v2 None None
           (Policy OnOverlap.ERROR)).
  - lia.
  - reflexivity.
Defined.

Example merge_strict_example :
  (annotate 1 2 (Several ["brown"; "white"]) None (Policy OnOverlap.ERROR) ;;
   annotate 1 2 (Several ["white"; "black"]) (Some [("k", "v")])
            (Policy OnOverlap.MERGE_STRICT))
    (__init__ (Str "the red fox"))
  = (Ok tt,
     mkAnnotatedTokens ["the"; "red"; "fox"]
       [mkTokenAnnotation 1 2 "red" ["brown"; "white"; "black"]
                          [("k", "v")]]).
Proof. vm_compute. reflexivity. Qed.

(** ** combine (C5) *)

Lemma for_each_annotate_insert_all (discard : bool) tokens new : forall anns,
  for_each new
    (fun ann =>
       annotate (start ann) (end_ ann) (Several (suggestions ann))
                (Some (meta ann))
                (Policy (if discard then "save_old" else "error")))
    (mkAnnotatedTokens tokens anns)
  = let '(r, anns') := insert_all discard tokens anns new in
    (r, mkAnnotatedTokens tokens anns').
Proof.
  induction new as [|a rest IH]; intros anns; [reflexivity|].
  cbn [for_each insert_all]. unfold bind at 1. unfold annotate at 1.
  rewrite Z.gtb_ltb. destruct (Z.ltb_spec (end_ a) (start a)) as [Hlt|Hle].
  - rewrite annotate_with_bad_span by assumption. reflexivity.
  - destruct (List.filter (overlaps (start a) (end_ a)) anns) eqn:Hov.
    + rewrite annotate_with_no_overlap by assumption.
      unfold with_annotations, new_annotation.
      cbn [_tokens _annotations default].
      apply IH.
    + rewrite annotate_with_policy
        by (try assumption; unfold _get_overlaps; cbn [_annotations];
            rewrite Hov; easy).
      unfold _get_overlaps. cbn [_annotations]. rewrite Hov.
      destruct discard.
      * cbn. apply IH.
      * reflexivity.
Qed.

Lemma insert_all_discard_prefix tokens new : forall anns r anns',
  insert_all true tokens anns new = (r, anns') ->
  exists extra, anns' = anns ++ extra.
Proof.
  induction new as [|a rest IH]; intros anns r anns'; cbn [insert_all].
  - intros [= _ <-]. exists []. now rewrite app_nil_r.
  - destruct (start a >? end_ a).
    + intros [= _ <-]. exists []. now rewrite app_nil_r.
    + destruct (List.filter _ anns).
      * intros H. apply IH in H as [extra ->].
        rewrite <- app_assoc. eauto.
      * apply IH.
Qed.

(** C5, as the code has it.  [combine] compares the two original texts, the
    tokens joined by single spaces.  When the texts differ, the call raises
    the [ValueError] of the mismatch and the buffer is unchanged.  When they
    are equal, as they are for identical token sequences, the annotations of
    [other] are inserted in their order, over the tokens of the buffer:
    with [discard_overlap] an annotation that overlaps is dropped, and the
    annotations the buffer had stay in front; without it the first overlap
    stops the call with [OverlapError]. *)
Theorem combine_compares_texts
    (self other : AnnotatedTokens) (discard_overlap : bool) :
  (get_original_text self <> get_original_text other ->
   combine other discard_overlap self
   = (Raise (ValueError DifferentText), self))
  /\ (get_original_text self = get_original_text other ->
      combine other discard_overlap self
      = (let '(r, anns) :=
           insert_all discard_overlap (_tokens self) (_annotations self)
                      (_annotations other) in
         (r, mkAnnotatedTokens (_tokens self) anns))
      /\ (discard_overlap = true ->
          exists extra,
            (combine other discard_overlap self).2
            = mkAnnotatedTokens (_tokens self) (_annotations self ++ extra)))
  /\ (_tokens self = _tokens other ->
      get_original_text self = get_original_text other).
Proof.
  split_and!.
  - intros Hne. unfold combine, bind, get_self.
    destruct (String.eqb_spec (get_original_text self)
                              (get_original_text other)); [contradiction|].
    reflexivity.
  - intros Heq.
    assert (Hc : combine other discard_overlap self
      = (let '(r, anns) :=
           insert_all discard_overlap (_tokens self) (_annotations self)
                      (_annotations other) in
         (r, mkAnnotatedTokens (_tokens self) anns))).
    { unfold combine, bind at 1, get_self at 1.
      rewrite Heq, String.eqb_refl. cbn [negb]. unfold get_annotations.
      destruct self as [tokens anns].
      apply for_each_annotate_insert_all. }
    split; [exact Hc|].
    intros ->. rewrite Hc.
    destruct (insert_all true (_tokens self) (_annotations self)
                         (_annotations other)) as [r anns'] eqn:E.
    apply insert_all_discard_prefix in E as [extra ->]. eauto.
  - unfold get_original_text, get_original_tokens. now intros ->.
Qed.

(** C5 as the specification states it fails on token sequences that differ
    and join to one text: the call goes through. *)
Lemma combine_differing_tokens_counterexample :
  let self := mkAnnotatedTokens ["a b"] [] in
  let other :=
    mkAnnotatedTokens ["a"; "b"] [mkTokenAnnotation 0 1 "a" ["x"] []] in
  _tokens self <> _tokens other
  /\ combine other true self
     = (Ok tt,
        mkAnnotatedTokens ["a b"] [mkTokenAnnotation 0 1 "a b" ["x"] []]).
Proof. split; [discriminate | vm_compute; reflexivity]. Qed.

Lemma combine_compares_texts_witness :
  let kept := mkTokenAnnotation 0 1 "a" ["A"] [] in
  let self := mkAnnotatedTokens ["a"; "b"] [kept] in
  let other :=
    mkAnnotatedTokens ["a"; "b"]
      [mkTokenAnnotation 0 1 "a" ["X"] [];
       mkTokenAnnotation 1 2 "b" ["B"] []] in
  let stranger := mkAnnotatedTokens ["c"] [] in
  combine stranger true self = (Raise (ValueError DifferentText), self)
  /\ combine other true self
     = (Ok tt, mkAnnotatedTokens ["a"; "b"]
                 [kept; mkTokenAnnotation 1 2 "b" ["B"] []])
  /\ combine other false self
     = (Raise (OverlapError (OverlapDetected 1)), self)
  /\ (exists extra,
        (combine other true self).2
        = mkAnnotatedTokens (_tokens self) (_annotations self ++ extra))
  /\ get_original_text self = get_original_text other.
Proof.
  intros kept self other stranger.
  destruct (combine_compares_texts self stranger true) as (H1 & _ & _).
  destruct (combine_compares_texts self other true) as (_ & H2 & H3).
  destruct (combine_compares_texts self other false) as (_ & H4 & _).
  split_and!.
  - apply H1. vm_compute. discriminate.
  - rewrite (proj1 (H2 eq_refl)). reflexivity.
  - rewrite (proj1 (H4 eq_refl)). reflexivity.
  - apply (proj2 (H2 eq_refl)). reflexivity.
  - apply H3. reflexivity.
Defined.

(** ** The safe iterator (C7) *)

Lemma shifted_refl a : shifted a a.
Proof.
  exists 0. destruct a. unfold _replace. cbn. now rewrite !Z.add_0_r.
Qed.

Lemma shifted_remap from delta a v :
  shifted a v -> shifted a (remap from delta v).
Proof.
  intros [d ->]. unfold remap. destruct (_ >=? _); [|now exists d].
  exists (d + delta). unfold _replace. cbn. f_equal; lia.
Qed.

Lemma index_in_range {A} (l : list A) i :
  0 <= i < Z.of_nat (length l) -> Py.index l i = l !! Z.to_nat i.
Proof.
  intros [H1 H2]. unfold Py.index.
  destruct (Z.leb_spec 0 i); [|lia].
  destruct (Z.ltb_spec i (Z.of_nat (length l))); [reflexivity | lia].
Qed.

(** Removing the value found at position [k] shortens the list by one and
    leaves what came after position [k] where it was, one place down. *)
Lemma list_remove_at (l : list TokenAnnotation) k ann :
  l !! k = Some ann ->
  exists l',
    Py.list_remove __eq__ ann l = Some l'
    /\ S (length l') = length l
    /\ drop k l' = drop (S k) l.
Proof.
  revert k. induction l as [|y l IH]; intros k Hk; [discriminate|].
  cbn [Py.list_remove]. destruct (__eq__ y ann) eqn:E.
  - exists l. split_and!; auto.
  - destruct k as [|k]; cbn in Hk.
    + injection Hk as ->.
      rewrite (proj2 (__eq___spec ann ann) (same_value_refl ann)) in E.
      discriminate.
    + destruct (IH k Hk) as (l' & -> & Hlen & Hdrop).
      exists (y :: l'). split_and!; auto. cbn. now rewrite Hlen.
Qed.

Section SafeIteration.

Variable choose : nat -> TokenAnnotation -> AnnotatedTokens -> action.

Lemma moved_snoc shifts from delta a :
  moved (shifts ++ [(from, delta)]) a = remap from delta (moved shifts a).
Proof. unfold moved. now rewrite fold_left_app. Qed.

Lemma shifted_moved shifts a : shifted a (moved shifts a).
Proof.
  induction shifts as [|[from delta] shifts IH] using rev_ind;
    [apply shifted_refl|].
  rewrite moved_snoc. now apply shifted_remap.
Qed.

Lemma drop_cons_inv {A} (l : list A) n x r :
  drop n l = x :: r -> l !! n = Some x /\ drop (S n) l = r.
Proof.
  intros H. split.
  - rewrite <- (Nat.add_0_r n), <- lookup_drop, H. reflexivity.
  - rewrite <- (Nat.add_1_r n), <- (drop_drop l 1 n), H. reflexivity.
Qed.

(** What one turn of the walk does to the buffer and to what is left to
    visit, when the annotation of the turn is at position [n] and what is
    left stands behind it. *)
Lemma turn_outcome (self : AnnotatedTokens) (n k : nat) shifts a rest :
  drop n (_annotations self) = map (moved shifts) (a :: rest) ->
  let x := moved shifts a in
  let act := choose k x self in
  (exists level,
      act = Correct level /\ replacement x level = None
      /\ exists self', act_on act x self = (Raise IndexError, self'))
  \/ exists self' n',
       act_on act x self = (Ok tt, self')
       /\ (n' = match act with Keep => S n | _ => n end)
       /\ Z.of_nat (length (_annotations self'))
          = Z.of_nat (length (_annotations self))
            + match act with Keep => 0 | _ => -1 end
       /\ drop n' (_annotations self')
          = map (moved match act with
                       | Correct level => shifts ++ [(start x, shift_of x level)]
                       | _ => shifts
                       end) rest.
Proof.
  intros Hdrop x act. cbn [map] in Hdrop. fold x in Hdrop.
  apply drop_cons_inv in Hdrop as [Hx Hrest].
  destruct (list_remove_at _ _ _ Hx) as (anns' & Hrm & Hlen & Hd).
  destruct act as [| |level] eqn:Hact; cbn [act_on].
  - right. exists self, (S n). split_and!; [reflexivity..|lia|assumption].
  - right. exists (mkAnnotatedTokens (_tokens self) anns'), n.
    rewrite (remove_ok _ _ _ Hrm). cbn [_annotations].
    split_and!; [reflexivity..|lia|congruence].
  - destruct (replacement x level) as [repl|] eqn:Hrepl.
    + right. rewrite (apply_correction_ok _ _ _ _ _ Hrm Hrepl).
      eexists _, n. split_and!; [reflexivity..| |].
      * cbn [_annotations]. rewrite length_map. lia.
      * cbn [_annotations]. rewrite <- fmap_drop, Hd, Hrest.
        change (fmap ?f ?l) with (map f l). rewrite map_map.
        apply map_ext. intros y. rewrite moved_snoc.
        unfold shift_of. now rewrite Hrepl.
    + left. exists level. split_and!; [reflexivity | assumption |].
      pose proof Hrepl as Hnone. unfold replacement in Hrepl.
      destruct (suggestions x) eqn:Es; [discriminate|].
      rewrite <- Es in Hrepl.
      rewrite (apply_correction_raises_after_remove self x level anns' Hrm)
        by congruence.
      eauto.
Qed.

(** The generator, run in lockstep with the caller, is the walk over the
    collection of the start. *)
Lemma iter_annotations_from_visit_in_turn :
  forall pending fuel i visited shifts self,
    0 <= i ->
    drop (Z.to_nat i) (_annotations self) = map (moved shifts) pending ->
    (length pending < fuel)%nat ->
    iter_annotations_from fuel (caller choose) i
      (Z.of_nat (length (_annotations self))) visited self
    = visit_in_turn choose visited shifts pending self.
Proof.
  induction pending as [|a rest IH];
    intros fuel i visited shifts self Hi Hdrop Hfuel;
    (destruct fuel as [|fuel]; [cbn in Hfuel; lia|]);
    cbn [iter_annotations_from visit_in_turn].
  - apply (f_equal length) in Hdrop. rewrite length_drop in Hdrop.
    cbn in Hdrop.
    destruct (Z.ltb_spec i (Z.of_nat (length (_annotations self))));
      [lia | reflexivity].
  - pose proof (turn_outcome self (Z.to_nat i) (length visited) shifts a rest
                  Hdrop) as Hturn.
    cbn [map] in Hdrop. apply drop_cons_inv in Hdrop as [Hx _].
    pose proof (lookup_lt_Some _ _ _ Hx) as Hlt.
    rewrite (proj2 (Z.ltb_lt _ _)) by lia.
    rewrite index_in_range, Hx by lia. unfold caller at 1.
    cbn zeta in Hturn.
    destruct Hturn as [(level & Hact & Hnone & self' & Hraise)
                      |(self' & n' & Hok & Hn' & Hlen & Hd)].
    + rewrite Hraise. reflexivity.
    + rewrite Hok.
      replace (i + (Z.of_nat (length (_annotations self'))
                    - Z.of_nat (length (_annotations self)) + 1))
        with (Z.of_nat n')
        by (rewrite Hlen, Hn';
            destruct (choose (length visited) (moved shifts a) self); lia).
      apply IH; [lia| |cbn [length] in Hfuel; lia].
      now rewrite Nat2Z.id.
Qed.

(** What the walk visits: every annotation of the start once, and it is
    left early only by a correction at a level without a replacement. *)
Lemma visit_in_turn_spec : forall pending visited shifts self n,
  drop n (_annotations self) = map (moved shifts) pending ->
  match visit_in_turn choose visited shifts pending self with
  | Exhausted vis _ =>
      exists vis', vis = visited ++ vis' /\ Forall2 shifted pending vis'
  | Propagated e vis _ =>
      e = IndexError
      /\ exists vis' a level buffer,
           vis = visited ++ vis' ++ [a]
           /\ (length vis' < length pending)%nat
           /\ Forall2 shifted (take (length vis') pending) vis'
           /\ choose (length (visited ++ vis')) a buffer = Correct level
           /\ replacement a level = None
  | OutOfFuel => False
  end.
Proof.
  induction pending as [|a rest IH]; intros visited shifts self n Hdrop;
    cbn [visit_in_turn].
  - exists []. rewrite app_nil_r. split; [reflexivity | constructor].
  - destruct (turn_outcome self n (length visited) shifts a rest Hdrop)
      as [(level & Hact & Hnone & self' & Hraise)
         |(self' & n' & Hok & _ & _ & Hd)].
    + rewrite Hraise. split; [reflexivity|].
      exists [], (moved shifts a), level, self.
      rewrite app_nil_r. cbn [app length take].
      split_and!; [reflexivity | lia | constructor | assumption | assumption].
    + rewrite Hok. specialize (IH (visited ++ [moved shifts a]) _ self' n' Hd).
      destruct (visit_in_turn _ _ _ _ _) as [vis s|e vis s|]; [| |easy].
      * destruct IH as (vis' & -> & Hv). exists (moved shifts a :: vis').
        rewrite <- app_assoc. split; [reflexivity|].
        constructor; [apply shifted_moved | assumption].
      * destruct IH
          as (-> & vis' & x & level & buffer & -> & Hl & Hv & Hc & Hr).
        split; [reflexivity|].
        exists (moved shifts a :: vis'), x, level, buffer.
        rewrite <- !app_assoc. cbn [app length take].
        rewrite <- app_assoc in Hc. cbn [app] in Hc.
        split_and!; [reflexivity | lia | | assumption | assumption].
        constructor; [apply shifted_moved | assumption].
Qed.

(** Without corrections the walk visits the annotations as they are. *)
Lemma visit_in_turn_no_correction :
  (forall k a s level, choose k a s <> Correct level) ->
  forall pending visited self n,
    drop n (_annotations self) = pending ->
    exists self',
      visit_in_turn choose visited [] pending self
      = Exhausted (visited ++ pending) self'.
Proof.
  intros Hnever. induction pending as [|a rest IH];
    intros visited self n Hdrop; cbn [visit_in_turn].
  - rewrite app_nil_r. eauto.
  - assert (Hdrop' : drop n (_annotations self) = map (moved []) (a :: rest)).
    { rewrite Hdrop. symmetry. apply map_id. }
    destruct (turn_outcome self n (length visited) [] a rest Hdrop')
      as [(level & Hact & _)|(self' & n' & Hok & _ & _ & Hd)].
    + now apply Hnever in Hact.
    + rewrite Hok. change (moved [] a) with a in *.
      destruct (choose (length visited) a self) eqn:Hact;
        [| |now apply Hnever in Hact].
      * destruct (IH (visited ++ [a]) self' n') as [s Hs].
        { rewrite Hd. apply map_id. }
        rewrite Hs, <- app_assoc. eauto.
      * destruct (IH (visited ++ [a]) self' n') as [s Hs].
        { rewrite Hd. apply map_id. }
        rewrite Hs, <- app_assoc. eauto.
Qed.

End SafeIteration.

Lemma Forall2_diag {A} (R : A -> A -> Prop) (l : list A) :
  (forall x, R x x) -> Forall2 R l l.
Proof. intros H. induction l; constructor; auto. Qed.

(** A caller that consumes every annotation it is given empties the
    collection. *)
Lemma iter_annotations_consume_all choose :
  (forall k a s, consuming (choose k a s) a) ->
  forall fuel visited self,
    (length (_annotations self) < fuel)%nat ->
    exists vis self',
      iter_annotations_from fuel (caller choose) 0
        (Z.of_nat (length (_annotations self))) visited self
      = Exhausted vis self'
      /\ _annotations self' = [].
Proof.
  intros Hall. induction fuel as [|fuel IH]; intros visited self Hfuel; [lia|].
  cbn [iter_annotations_from].
  destruct (_annotations self) as [|ann rest] eqn:Hanns.
  - cbn. eauto.
  - cbn [length] in *.
    destruct (Z.ltb_spec 0 (Z.of_nat (S (length rest)))); [|lia].
    rewrite index_in_range by (cbn [length]; lia).
    change ((ann :: rest) !! Z.to_nat 0) with (Some ann). cbv beta iota.
    assert (Hrm : Py.list_remove __eq__ ann (_annotations self) = Some rest).
    { rewrite Hanns. cbn.
      now rewrite (proj2 (__eq___spec ann ann) (same_value_refl ann)). }
    unfold caller.
    destruct (Hall (length visited) ann self) as [Hact|(level & Hact & Hsome)];
      rewrite Hact; cbn [act_on].
    + rewrite (remove_ok _ _ _ Hrm). cbn [_annotations].
      replace (0 + (Z.of_nat (length rest) - Z.of_nat (S (length rest)) + 1))
        with 0 by lia.
      apply (IH (visited ++ [ann]) (mkAnnotatedTokens (_tokens self) rest)).
      cbn. lia.
    + destruct Hsome as [repl Hrepl].
      rewrite (apply_correction_ok _ _ _ _ _ Hrm Hrepl).
      cbn [_annotations]. rewrite length_map.
      replace (0 + (Z.of_nat (length rest) - Z.of_nat (S (length rest)) + 1))
        with 0 by lia.
      match goal with
      | |- context [iter_annotations_from _ _ _ _ _ ?s] =>
          specialize (IH (visited ++ [ann]) s)
      end.
      cbn [_annotations] in IH. rewrite length_map in IH.
      apply IH. lia.
Qed.

(** C7.  A loop over [iter_annotations()] whose body keeps, removes or
    corrects the annotation it is given is the walk [visit_in_turn] over the
    collection of the start: it visits the annotations the collection had at
    the start one by one in their order, none skipped and none twice, each
    under the coordinates to which the corrections before it have remapped
    it, and its buffer at the end is the one the actions of the body leave.
    It ends after at most as many turns as the collection had annotations.
    It is left early only by the [IndexError] of a correction at a level
    without a replacement, raised at the annotation visited last.  When
    every correction has a replacement, whatever else the body keeps or
    removes, the loop ends without an exception after as many visits as the
    collection had annotations.  Without corrections the visited annotations
    are exactly those of the start.  When every visited annotation is
    removed or corrected, the loop ends with an empty collection. *)
Theorem iter_annotations_visits_each_once
    (choose : nat -> TokenAnnotation -> AnnotatedTokens -> action)
    (self : AnnotatedTokens) (fuel : nat) :
  (length (_annotations self) < fuel)%nat ->
  let run := iter_annotations fuel (caller choose) self in
  run = visit_in_turn choose [] [] (_annotations self) self
  /\ run <> OutOfFuel
  /\ (forall e vis self',
         run = Propagated e vis self' ->
         e = IndexError
         /\ exists before a level buffer,
              vis = before ++ [a]
              /\ (length before < length (_annotations self))%nat
              /\ Forall2 same_edit (take (length before) (_annotations self))
                         before
              /\ choose (length before) a buffer = Correct level
              /\ replacement a level = None)
  /\ ((forall k a s level,
          choose k a s = Correct level -> is_Some (replacement a level)) ->
      exists vis self',
        run = Exhausted vis self'
        /\ length vis = length (_annotations self)
        /\ Forall2 same_edit (_annotations self) vis)
  /\ ((forall k a s level, choose k a s <> Correct level) ->
      exists self', run = Exhausted (_annotations self) self')
  /\ ((forall k a s, consuming (choose k a s) a) ->
      exists vis self',
        run = Exhausted vis self'
        /\ _annotations self' = []
        /\ length vis = length (_annotations self)
        /\ Forall2 same_edit (_annotations self) vis).
Proof.
  intros Hfuel run.
  assert (Hstart : drop 0 (_annotations self)
                   = map (moved []) (_annotations self))
    by (symmetry; apply map_id).
  assert (Hwalk : run = visit_in_turn choose [] [] (_annotations self) self).
  { apply (iter_annotations_from_visit_in_turn choose (_annotations self)
             fuel 0 [] [] self); [lia | exact Hstart | exact Hfuel]. }
  pose proof (visit_in_turn_spec choose (_annotations self) [] [] self 0%nat
                Hstart) as Hspec.
  rewrite <- Hwalk in Hspec. cbn [app] in Hspec.
  assert (Hedit : forall l vis,
             Forall2 shifted l vis -> Forall2 same_edit l vis).
  { intros l vis Hv. eapply Forall2_impl; [exact Hv|].
    intros a v [d ->]. unfold same_edit, _replace. cbn.
    split_and!; try reflexivity. lia. }
  assert (Hvalid :
    (forall k a s level,
        choose k a s = Correct level -> is_Some (replacement a level)) ->
    exists vis self',
      run = Exhausted vis self'
      /\ length vis = length (_annotations self)
      /\ Forall2 same_edit (_annotations self) vis).
  { intros Hlevels. destruct run as [vis s|e vis s|]; [| |easy].
    - destruct Hspec as (vis' & -> & Hv). exists vis', s.
      split_and!; [reflexivity | | now apply Hedit].
      symmetry. now apply Forall2_length in Hv.
    - destruct Hspec as (_ & vis' & a & level & buffer & _ & _ & _ & Hc & Hr).
      apply Hlevels in Hc. rewrite Hr in Hc. now destruct Hc. }
  split_and!.
  - exact Hwalk.
  - intros E. now rewrite E in Hspec.
  - intros e vis self' E. rewrite E in Hspec.
    destruct Hspec
      as (-> & vis' & a & level & buffer & -> & Hl & Hv & Hc & Hr).
    split; [reflexivity|]. exists vis', a, level, buffer.
    split_and!; auto.
  - exact Hvalid.
  - intros Hnever.
    destruct (visit_in_turn_no_correction choose Hnever (_annotations self)
                [] self 0%nat eq_refl) as [s Hs].
    exists s. now rewrite Hwalk, Hs.
  - intros Hall.
    destruct (iter_annotations_consume_all choose Hall fuel [] self Hfuel)
      as (vis & self' & Hrun & Hempty).
    change (iter_annotations_from _ _ _ _ _ _) with run in Hrun.
    destruct Hvalid as (vis0 & self0 & E & Hlen & Hv).
    { intros k a s level Hc. destruct (Hall k a s) as [Hact|(l & Hact & Hs)].
      - congruence.
      - rewrite Hc in Hact. now injection Hact as <-. }
    rewrite E in Hrun. injection Hrun as <- <-.
    exists vis0, self0. auto.
Qed.

Lemma iter_annotations_visits_each_once_witness :
  let one := mkTokenAnnotation 0 1 "1" ["One and"] [] in
  let two := mkTokenAnnotation 1 2 "2" ["Two"] [] in
  let three := mkTokenAnnotation 2 3 "3" ["Three"] [] in
  let self := mkAnnotatedTokens ["1"; "2"; "3"] [one; two; three] in
  let first_corrected := fun (k : nat) (_ : TokenAnnotation)
                             (_ : AnnotatedTokens) =>
                           match k with O => Correct 0 | _ => Remove end in
  let second_removed := fun (k : nat) (_ : TokenAnnotation)
                            (_ : AnnotatedTokens) =>
                          match k with 1%nat => Remove | _ => Keep end in
  let first_corrected_rest_kept :=
    fun (k : nat) (_ : TokenAnnotation) (_ : AnnotatedTokens) =>
      match k with O => Correct 0 | _ => Keep end in
  iter_annotations 4 (caller first_corrected) self
  = Exhausted [one; mkTokenAnnotation 2 3 "2" ["Two"] [];
               mkTokenAnnotation 3 4 "3" ["Three"] []]
              (mkAnnotatedTokens ["One"; "and"; "2"; "3"] [])
  /\ (exists vis self',
        iter_annotations 4 (caller first_corrected) self = Exhausted vis self'
        /\ _annotations self' = []
        /\ length vis = length (_annotations self)
        /\ Forall2 same_edit (_annotations self) vis)
  /\ (exists self',
        iter_annotations 4 (caller second_removed) self
        = Exhausted (_annotations self) self')
  /\ iter_annotations 4 (caller first_corrected_rest_kept) self
     = Exhausted [one; mkTokenAnnotation 2 3 "2" ["Two"] [];
                  mkTokenAnnotation 3 4 "3" ["Three"] []]
                 (mkAnnotatedTokens ["One"; "and"; "2"; "3"]
                    [mkTokenAnnotation 2 3 "2" ["Two"] [];
                     mkTokenAnnotation 3 4 "3" ["Three"] []])
  /\ (exists vis self',
        iter_annotations 4 (caller first_corrected_rest_kept) self
        = Exhausted vis self'
        /\ length vis = length (_annotations self)
        /\ Forall2 same_edit (_annotations self) vis).
Proof.
  intros one two three self first_corrected second_removed
         first_corrected_rest_kept.
  destruct (iter_annotations_visits_each_once first_corrected self 4
              ltac:(simpl; lia)) as (_ & _ & _ & _ & _ & H6).
  destruct (iter_annotations_visits_each_once second_removed self 4
              ltac:(simpl; lia)) as (_ & _ & _ & _ & H5 & _).
  destruct (iter_annotations_visits_each_once first_corrected_rest_kept self 4
              ltac:(simpl; lia)) as (H1 & _ & _ & H4 & _ & _).
  split_and!.
  - vm_compute. reflexivity.
  - apply H6. intros k a s. destruct k.
    + right. exists 0. split; [reflexivity|]. apply replacement_default.
    + now left.
  - apply H5. intros k a s level. now destruct k as [|[|k]].
  - rewrite H1. vm_compute. reflexivity.
  - apply H4. intros k a s level. destruct k; [|discriminate].
    intros [= <-]. apply replacement_default.
Defined.

(** ** The matcher of difflib *)

Section ChainB.

Local Open Scope nat_scope.

Lemma b2j_all_snoc (b : list string) (e : string) :
  difflib.b2j_all (b ++ [e])
  = difflib.chain_step (difflib.b2j_all b) (length b, e).
Proof.
  unfold difflib.b2j_all. rewrite imap_app, fold_left_app. cbn.
  now rewrite Nat.add_0_r.
Qed.

Lemma b2j_all_indexes (b : list string) : indexes (difflib.b2j_all b) b.
Proof.
  induction b as [|e b IH] using rev_ind.
  - intros x. unfold difflib.b2j_all. cbn. rewrite lookup_empty.
    intros j. now rewrite lookup_nil.
  - rewrite b2j_all_snoc. unfold difflib.chain_step. cbn [fst snd].
    intros x. destruct (decide (e = x)) as [<-|Hne].
    + rewrite lookup_insert_eq. specialize (IH e).
      destruct (difflib.b2j_all b !! e) as [js|]; cbn [default].
      * destruct IH as [Hs Hj]. split.
        -- apply StronglySorted_app_2; auto.
           ++ intros j1 j2 H1 H2. apply list_elem_of_singleton in H2 as ->.
              apply Hj in H1. now apply lookup_lt_Some in H1.
           ++ repeat constructor.
        -- intros j. rewrite elem_of_app, list_elem_of_singleton, Hj.
           destruct (lt_eq_lt_dec j (length b)) as [[Hlt|Heq]|Hgt];
             [| subst j |].
           ++ rewrite lookup_app_l by assumption. intuition lia.
           ++ rewrite list_lookup_middle by reflexivity.
              intuition.
           ++ rewrite (lookup_ge_None_2 (b ++ [e])) by
                (rewrite length_app; cbn; lia).
              rewrite (lookup_ge_None_2 b) by lia. intuition (lia || easy).
      * split; [repeat constructor|].
        intros j. cbn [app]. rewrite list_elem_of_singleton.
        destruct (lt_eq_lt_dec j (length b)) as [[Hlt|Heq]|Hgt]; [| subst j |].
        -- rewrite lookup_app_l by assumption.
           split; [lia | intros H; now apply IH in H].
        -- rewrite list_lookup_middle by reflexivity. intuition.
        -- rewrite (lookup_ge_None_2 (b ++ [e])) by
             (rewrite length_app; cbn; lia).
           intuition (lia || easy).
    + rewrite lookup_insert_ne by assumption. specialize (IH x).
      assert (Hlk : forall j, (b ++ [e]) !! j = Some x <-> b !! j = Some x).
      { intros j.
        destruct (lt_eq_lt_dec j (length b)) as [[Hlt|Heq]|Hgt];
          [| subst j |].
        - now rewrite lookup_app_l.
        - rewrite list_lookup_middle by reflexivity.
          rewrite (lookup_ge_None_2 b) by lia.
          split; [intros [= ->]; contradiction | discriminate].
        - rewrite (lookup_ge_None_2 (b ++ [e])) by
            (rewrite length_app; cbn; lia).
          now rewrite (lookup_ge_None_2 b) by lia. }
      destruct (difflib.b2j_all b !! x) as [js|].
      * destruct IH as [Hs Hj]. split; [assumption|].
        intros j. now rewrite Hj, Hlk.
      * intros j. rewrite Hlk. apply IH.
Qed.

Lemma js_of_cases b x :
  js_of b x = []
  \/ (StronglySorted lt (js_of b x)
      /\ forall j, j ∈ js_of b x <-> b !! j = Some x).
Proof.
  unfold js_of. destruct (difflib.b2j b !! x) as [js|] eqn:E; [|now left].
  right. cbn [default].
  assert (H : difflib.b2j_all b !! x = Some js).
  { unfold difflib.b2j in E. destruct (200 <=? length b).
    - now apply map_lookup_filter_Some in E as [E _].
    - exact E. }
  pose proof (b2j_all_indexes b x) as Hx. now rewrite H in Hx.
Qed.

Lemma js_of_sorted b x : StronglySorted lt (js_of b x).
Proof.
  destruct (js_of_cases b x) as [->|[H _]]; [constructor | assumption].
Qed.

Lemma js_of_sound b x j : j ∈ js_of b x -> b !! j = Some x.
Proof.
  destruct (js_of_cases b x) as [->|[_ H]]; [|apply H].
  intros H. now apply elem_of_nil in H.
Qed.

Lemma js_of_complete b x i j :
  j ∈ js_of b x -> b !! i = Some x -> i ∈ js_of b x.
Proof.
  destruct (js_of_cases b x) as [->|[_ H]]; [|intros _; apply H].
  intros H. now apply elem_of_nil in H.
Qed.

End ChainB.

(** *** A sequence against itself *)

Section SameSequence.

Local Open Scope nat_scope.

Variable toks : list string.

Lemma run_unfold i j :
  run toks i j
  = if matchable toks i j
    then S (match j with O => 0 | S j' => run_before toks i j' end)
    else 0.
Proof. destruct i, j; cbn; reflexivity. Qed.

Lemma matchable_inv i j :
  matchable toks i j = true ->
  matchable toks i i = true /\ matchable toks j j = true /\ i < length toks.
Proof.
  unfold matchable. destruct (toks !! i) as [x|] eqn:Ei; [|discriminate].
  intros H. apply bool_decide_eq_true in H.
  pose proof (js_of_sound _ _ _ H) as Ej. rewrite Ej.
  split_and!.
  - apply bool_decide_eq_true. eapply js_of_complete; eassumption.
  - now apply bool_decide_eq_true.
  - now apply lookup_lt_Some in Ei.
Qed.

Lemma run_le_diag : forall i j,
  run toks i j <= run toks j j /\ run toks i j <= run toks i i.
Proof.
  induction i as [|i IH]; intros j; rewrite (run_unfold _ j);
    destruct (matchable toks _ j) eqn:E; try lia;
    apply matchable_inv in E as (Hi & Hj & _);
    rewrite (run_unfold j j), Hj, (run_unfold _ (_ : nat)), Hi.
  - destruct j; cbn; lia.
  - destruct j as [|j]; cbn [run_before]; [lia|].
    destruct (IH j). lia.
Qed.

Lemma run_bound : forall i j, run toks i j <= S i.
Proof.
  induction i as [|i IH]; intros j; cbn.
  - destruct (matchable toks 0 j); lia.
  - destruct (matchable toks (S i) j); [|lia].
    destruct j as [|j]; [lia|]. specialize (IH j). lia.
Qed.

Lemma scan_row_spec i (j2len : gmap nat nat) :
  (forall j, default 0 (j2len !! j) = run_before toks i j) ->
  forall rest best (new : gmap nat nat),
    StronglySorted lt rest ->
    Forall (fun j => matchable toks i j = true) rest ->
    best_inv toks i rest best ->
    let r := difflib.scan_row i 0 (length toks) j2len rest best new in
    best_inv toks i [] r.1
    /\ forall j, r.2 !! j
                 = if bool_decide (j ∈ rest) then Some (run toks i j)
                   else new !! j.
Proof.
  intros Hprev. induction rest as [|j rest IH]; intros best new Hs Hm Hb.
  - cbn. split; [assumption|]. intros j. reflexivity.
  - apply StronglySorted_cons in Hs as [Hj Hs].
    apply Forall_cons in Hm as [Hmj Hm].
    assert (Hlen : j < length toks).
    { apply matchable_inv in Hmj as (_ & Hjj & _).
      now apply matchable_inv in Hjj. }
    cbn [difflib.scan_row].
    rewrite (proj2 (Nat.ltb_ge j 0)) by lia.
    rewrite (proj2 (Nat.leb_gt (length toks) j)) by lia.
    assert (Hk : match j with O => 0 | S j' => default 0 (j2len !! j') end + 1
                 = run toks i j).
    { rewrite run_unfold, Hmj. destruct j; [reflexivity|].
      rewrite Hprev. lia. }
    rewrite Hk.
    assert (Hnotin : j ∉ rest).
    { intros Hin. rewrite Forall_forall in Hj. apply Hj in Hin. lia. }
    match goal with
    | |- context [difflib.scan_row _ _ _ _ _ ?b ?m] =>
        specialize (IH b m Hs Hm)
    end.
    destruct best as [[bi bj] bs]. destruct Hb as (Hd & Hle & Hlow & Hi).
    cbn [fst snd] in *.
    destruct IH as [IH1 IH2].
    { destruct (Nat.ltb_spec bs (run toks i j)) as [Hgt|Hngt];
        unfold best_inv; cbn [fst snd].
      - assert (j = i) as ->.
        { destruct (lt_eq_lt_dec j i) as [[Hlt|Heq]|Hgt']; [|assumption|].
          - specialize (Hlow j Hlt). destruct (run_le_diag i j). lia.
          - assert (Hni : i ∉ j :: rest).
            { intros Hin. apply elem_of_cons in Hin as [->|Hin]; [lia|].
              rewrite Forall_forall in Hj. apply Hj in Hin. lia. }
            specialize (Hi Hni). destruct (run_le_diag i j). lia. }
        pose proof (run_bound i i). split_and!; try lia.
        intros j Hlt. specialize (Hlow j Hlt). lia.
      - split_and!; auto. intros Hni.
        destruct (decide (i = j)) as [->|Hne]; [lia|].
        apply Hi. intros Hin. apply elem_of_cons in Hin as [?|?]; auto. }
    split; [exact IH1|].
    intros j0. rewrite IH2.
    destruct (decide (j0 = j)) as [->|Hne].
    + rewrite (bool_decide_eq_false_2 _ Hnotin), lookup_insert_eq.
      rewrite bool_decide_eq_true_2 by apply list_elem_of_here.
      reflexivity.
    + rewrite lookup_insert_ne by congruence.
      repeat case_bool_decide; try reflexivity.
      * exfalso. apply H0. now apply list_elem_of_further.
      * exfalso. apply elem_of_cons in H0 as [?|?]; auto.
Qed.

Lemma rows_spec m :
  m <= length toks ->
  let r := fold_left (difflib.row_step toks toks 0 (length toks))
                     (seq 0 m) ((0, 0, 0), ∅) in
  r.1.1.1 = r.1.1.2
  /\ r.1.1.1 + r.1.2 <= m
  /\ (forall j, j < m -> run toks j j <= r.1.2)
  /\ (forall j, default 0 (r.2 !! j) = run_before toks m j).
Proof.
  induction m as [|m IH]; intros Hm.
  - cbn. split_and!; try lia; auto.
  - rewrite seq_S, fold_left_app. cbn [fold_left Nat.add].
    specialize (IH ltac:(lia)). cbv zeta in IH.
    destruct (fold_left _ (seq 0 m) _) as [best j2len].
    cbn [fst snd] in IH. destruct IH as (Hd & Hle & Hlow & Hprev).
    unfold difflib.row_step.
    destruct (lookup_lt_is_Some_2 toks m ltac:(lia)) as [x Hx].
    rewrite Hx. fold (js_of toks x).
    destruct (scan_row_spec m j2len Hprev (js_of toks x) best ∅)
      as [(H1 & H2 & H3 & H4) H5].
    + apply js_of_sorted.
    + apply Forall_forall. intros j Hj. unfold matchable. rewrite Hx.
      now apply bool_decide_eq_true.
    + unfold best_inv. split_and!; auto; try lia.
      intros Hni. rewrite run_unfold. unfold matchable. rewrite Hx.
      rewrite bool_decide_eq_false_2 by assumption. lia.
    + cbv zeta. split_and!; auto.
      * intros j Hj. destruct (decide (j = m)) as [->|Hne].
        -- apply H4. apply not_elem_of_nil.
        -- apply H3. lia.
      * intros j. rewrite H5. cbn [run_before].
        case_bool_decide as Hin; [reflexivity|].
        rewrite lookup_empty, (run_unfold m j). unfold matchable.
        rewrite Hx. now rewrite bool_decide_eq_false_2.
Qed.

Lemma same_at_diag i :
  i < length toks -> difflib.same_at toks toks i i = true.
Proof.
  intros Hi. unfold difflib.same_at.
  destruct (lookup_lt_is_Some_2 toks i Hi) as [x ->].
  now apply bool_decide_eq_true.
Qed.

Lemma extend_left_diag : forall i size,
  i <= length toks ->
  difflib.extend_left toks toks 0 0 i i size = (0, 0, size + i).
Proof.
  induction i as [|i IH]; intros size Hi; cbn [difflib.extend_left].
  - now rewrite Nat.add_0_r.
  - cbn [Nat.ltb Nat.leb andb]. rewrite same_at_diag by lia.
    rewrite IH by lia. f_equal. lia.
Qed.

Lemma extend_right_diag : forall todo size,
  size + todo = length toks ->
  difflib.extend_right toks toks todo (length toks) (length toks) 0 0 size
  = length toks.
Proof.
  induction todo as [|todo IH]; intros size Hs; cbn [difflib.extend_right].
  - lia.
  - cbn [Nat.add].
    rewrite (proj2 (Nat.ltb_lt size (length toks))) by lia.
    rewrite same_at_diag by lia. cbn [andb]. apply IH. lia.
Qed.

(** The longest match of a sequence with itself is the whole of it. *)
Lemma find_longest_match_same :
  difflib.find_longest_match toks toks 0 (length toks) 0 (length toks)
  = (0, 0, length toks).
Proof.
  unfold difflib.find_longest_match. rewrite Nat.sub_0_r.
  pose proof (rows_spec (length toks) (Nat.le_refl _)) as H. cbv zeta in H.
  destruct (fold_left _ _ _) as [[[bi bj] bs] j2len].
  cbn [fst snd] in H. destruct H as (<- & Hle & _ & _).
  rewrite extend_left_diag by lia. cbn [Nat.add].
  rewrite extend_right_diag by lia. reflexivity.
Qed.

Lemma match_queue_nil (a b : list string) fuel blocks :
  difflib.match_queue a b fuel [] blocks = ([], blocks).
Proof. now destruct fuel. Qed.

Lemma get_matching_blocks_same :
  difflib.get_matching_blocks toks toks
  = if 0 <? length toks
    then [(0, 0, length toks); (length toks, length toks, 0)]
    else [(0, 0, 0)].
Proof.
  unfold difflib.get_matching_blocks.
  replace (2 * length toks + 1) with (S (2 * length toks)) by lia.
  cbn [difflib.match_queue]. rewrite find_longest_match_same.
  destruct (Nat.ltb_spec 0 (length toks)) as [Hpos|Hzero].
  - rewrite Nat.ltb_irrefl. cbn [andb Nat.add].
    rewrite Nat.ltb_irrefl. cbn [andb]. rewrite match_queue_nil.
    cbn [app Py.sorted foldr Py.insert_sorted fold_left
         difflib.collapse_step Nat.add Nat.eqb andb].
    rewrite (proj2 (Nat.ltb_lt 0 (length toks))) by lia. reflexivity.
  - replace (length toks) with 0 by lia. reflexivity.
Qed.

Lemma get_opcodes_same :
  difflib.get_opcodes toks toks
  = if 0 <? length toks
    then [(difflib.equal, 0, length toks, 0, length toks)]
    else [].
Proof.
  unfold difflib.get_opcodes. rewrite get_matching_blocks_same.
  destruct (Nat.ltb_spec 0 (length toks)) as [Hpos|Hzero].
  - cbn [fold_left difflib.opcode_step].
    rewrite Nat.ltb_irrefl. cbn [andb Nat.add app].
    rewrite (proj2 (Nat.ltb_lt 0 (length toks))) by lia.
    rewrite !Nat.ltb_irrefl. cbn [andb app]. rewrite Nat.add_0_r.
    reflexivity.
  - reflexivity.
Qed.

End SameSequence.

(** ** Aligning a sequence with itself (C4) *)

Lemma slice_from_0 {A} (l : list A) : Py.slice_from l 0 = l.
Proof.
  unfold Py.slice_from, Py.clamp. cbn.
  now rewrite Z.min_l by lia.
Qed.

Lemma get_corrected_text_no_annotations level tokens :
  get_corrected_text level (mkAnnotatedTokens tokens []) = Py.join " " tokens.
Proof.
  unfold get_corrected_text, get_corrected_tokens,
    MutableTokens.get_edited_tokens. cbn.
  now rewrite slice_from_0.
Qed.

Lemma _gen_diffs_same tokens : _gen_diffs (Lst tokens) (Lst tokens) = [].
Proof.
  unfold _gen_diffs. cbn [_get_tokens]. rewrite get_opcodes_same.
  now destruct (0 <? length tokens)%nat.
Qed.

(** C4.  For every token sequence [S], [align(S, S)] returns the buffer
    over [S] with no annotation, and [get_corrected_text()] of that buffer is
    [S] joined by single spaces.  The same holds when the sequence is given
    as a text, for the tokens the text splits into. *)
Theorem align_same_sequence :
  (forall S : list string,
      align (Lst S) (Lst S) = Ok (mkAnnotatedTokens S [])
      /\ get_corrected_text 0 (mkAnnotatedTokens S []) = Py.join " " S)
  /\ (forall s : string,
        align (Str s) (Str s) = Ok (mkAnnotatedTokens (Py.split s) [])
        /\ get_corrected_text 0 (mkAnnotatedTokens (Py.split s) [])
           = Py.join " " (Py.split s)).
Proof.
  split.
  - intros S. split; [|apply get_corrected_text_no_annotations].
    unfold align. now rewrite _gen_diffs_same.
  - intros s. split; [|apply get_corrected_text_no_annotations].
    unfold align.
    change (_gen_diffs (Lst (Py.split s)) (Str s))
      with (_gen_diffs (Lst (Py.split s)) (Lst (Py.split s))).
    now rewrite _gen_diffs_same.
Qed.

(** ** Rendering (C9) *)

Lemma string_app_assoc (s1 s2 s3 : string) :
  (s1 +:+ s2) +:+ s3 = s1 +:+ s2 +:+ s3.
Proof.
  induction s1 as [|c s1 IH]; [reflexivity|].
  change (String c ((s1 +:+ s2) +:+ s3) = String c (s1 +:+ s2 +:+ s3)).
  now rewrite IH.
Qed.

Lemma join_cons sep x l :
  Py.join sep (x :: l)
  = match l with [] => x | _ :: _ => x +:+ sep +:+ Py.join sep l end.
Proof. reflexivity. Qed.

Lemma join_app sep l1 l2 :
  Py.join sep (l1 ++ l2)
  = match l1, l2 with
    | [], _ => Py.join sep l2
    | _, [] => Py.join sep l1
    | _ :: _, _ :: _ => Py.join sep l1 +:+ sep +:+ Py.join sep l2
    end.
Proof.
  induction l1 as [|x l1 IH]; [reflexivity|].
  destruct l2 as [|y l2]; [now rewrite app_nil_r|].
  cbn [app]. rewrite !join_cons.
  destruct l1 as [|x' l1]; [reflexivity|].
  cbn [app] in *. rewrite IH. now rewrite !string_app_assoc.
Qed.

Lemma split_char_not_nil c s : Py.split_char c s <> [].
Proof.
  destruct s as [|x s]; cbn; [easy|].
  destruct (Ascii.eqb x c); [easy|]. now destruct (Py.split_char c s).
Qed.

(** Splitting on a character and joining with it gives the string back. *)
Lemma join_split_char c s :
  Py.join (String c EmptyString) (Py.split_char c s) = s.
Proof.
  induction s as [|x s IH]; [reflexivity|].
  cbn [Py.split_char]. destruct (Ascii.eqb_spec x c) as [->|Hne].
  - rewrite join_cons.
    destruct (Py.split_char c s) eqn:E; [now apply split_char_not_nil in E|].
    rewrite IH. reflexivity.
  - destruct (Py.split_char c s) as [|w ws] eqn:E;
      [now apply split_char_not_nil in E|].
    rewrite join_cons in *. destruct ws; cbn; now rewrite <- IH.
Qed.

Lemma same_text_refl l : same_text l l.
Proof. now split. Qed.

Lemma same_text_app a b c d :
  same_text a b -> same_text c d -> same_text (a ++ c) (b ++ d).
Proof.
  intros [Hab Eab] [Hcd Ecd]. split.
  - split; intros H; apply app_eq_nil in H as [H1 H2];
      apply Hab in H1 || apply Hab in H1; apply Hcd in H2 || apply Hcd in H2;
      now subst.
  - rewrite !join_app.
    destruct a, b, c, d; try reflexivity; try assumption;
      try (now destruct Hab as [H1 H2]; (discriminate H1 || discriminate H2));
      try (now destruct Hcd as [H1 H2]; (discriminate H1 || discriminate H2));
      try (rewrite app_nil_r in *);
      congruence.
Qed.

Lemma same_text_split v : same_text (Py.split_char " " v) [v].
Proof.
  split.
  - split; [intros H; now apply split_char_not_nil in H | discriminate].
  - now rewrite join_split_char.
Qed.

Lemma staged_edits with_meta anns : forall m,
  fold_left
    (fun tokens ann =>
       MutableTokens.replace (start ann) (end_ ann) (to_str with_meta ann)
                             tokens)
    anns m
  = MutableTokens.mk (MutableTokens._tokens m)
      (MutableTokens._edits m ++ map (edit_of with_meta) anns).
Proof.
  induction anns as [|a anns IH]; intros m; cbn [fold_left map].
  - rewrite app_nil_r. now destruct m.
  - rewrite IH. unfold MutableTokens.replace. cbn.
    now rewrite <- app_assoc.
Qed.

Lemma to_str_truthy with_meta a : Py.truthy (to_str with_meta a) = true.
Proof. reflexivity. Qed.

Lemma render_fold t edits :
  Forall (fun e : Z * Z * string => Py.truthy e.2 = true) edits ->
  forall r1 r2 i,
    same_text r1 r2 ->
    (fold_left (MutableTokens.edit_step true t) edits (r1, i)).2
    = (fold_left (place_step t) edits (r2, i)).2
    /\ same_text (fold_left (MutableTokens.edit_step true t) edits (r1, i)).1
                 (fold_left (place_step t) edits (r2, i)).1.
Proof.
  induction 1 as [|[[b e] v] edits Hv _ IH]; intros r1 r2 i Hr.
  - cbn. auto.
  - cbn [fold_left MutableTokens.edit_step place_step negb andb].
    cbn [snd] in Hv. rewrite Hv. apply IH.
    rewrite (app_assoc r2). apply same_text_app; [|apply same_text_split].
    apply same_text_app; [assumption | apply same_text_refl].
Qed.

(** [get_annotated_text] puts the marker of every annotation, whole, in the
    place of the tokens the annotation covers. *)
Lemma get_annotated_text_places_markers with_meta self :
  get_annotated_text with_meta self
  = Py.join " "
      (placed (_tokens self)
         (Py.sorted MutableTokens.edit_leb
            (map (edit_of with_meta) (_annotations self)))).
Proof.
  unfold get_annotated_text. rewrite staged_edits.
  unfold MutableTokens.get_edited_tokens, placed. cbn [MutableTokens.__init__
    MutableTokens._tokens MutableTokens._edits app].
  set (edits := Py.sorted _ _).
  assert (Ht : Forall (fun e : Z * Z * string => Py.truthy e.2 = true) edits).
  { apply Forall_forall. intros e He.
    apply list_elem_of_In in He.
    apply (Permutation_in _ (sorted_perm _ _)) in He.
    apply in_map_iff in He as (a & <- & _). apply to_str_truthy. }
  destruct (render_fold (_tokens self) edits Ht [] [] 0 (same_text_refl _))
    as [Hi Hs].
  destruct (fold_left (MutableTokens.edit_step _ _) _ _) as [r1 i1].
  destruct (fold_left (place_step _) _ _) as [r2 i2].
  cbn [fst snd] in *. subst i2.
  apply (same_text_app _ _ _ _ Hs (same_text_refl _)).
Qed.

(** C9.  [align("the red fox", "the brown fox")] is the buffer over the
    tokens of the source with the one annotation [(1, 2, "red", ["brown"])],
    and [get_annotated_text()] of it is ["the {red=>brown} fox"].  The marker
    of an annotation is [{source=>sugg1|sugg2...:::k1=v1:::k2=v2}], with the
    placeholder [NO_SUGGESTIONS] when the list of suggestions is empty, and
    the annotated text has that marker, whole, where the annotated tokens
    were. *)
Theorem align_red_fox_and_marker_format :
  align (Str "the red fox") (Str "the brown fox")
  = Ok (mkAnnotatedTokens ["the"; "red"; "fox"]
          [mkTokenAnnotation 1 2 "red" ["brown"] []])
  /\ get_annotated_text true
       (mkAnnotatedTokens ["the"; "red"; "fox"]
          [mkTokenAnnotation 1 2 "red" ["brown"] []])
     = "the {red=>brown} fox"
  /\ (forall a : TokenAnnotation,
        to_str true a
        = "{" +:+ source_text a +:+ "=>"
          +:+ match suggestions a with
              | [] => "NO_SUGGESTIONS"
              | _ :: _ => Py.join "|" (suggestions a)
              end
          +:+ Py.join "" (map (fun kv => ":::" +:+ kv.1 +:+ "=" +:+ kv.2)
                              (meta a))
          +:+ "}")
  /\ to_str true (mkTokenAnnotation 0 1 "helo" ["hello"; "hola"]
                    [("key", "value"); ("k2", "v2")])
     = "{helo=>hello|hola:::key=value:::k2=v2}"
  /\ to_str true (mkTokenAnnotation 0 1 "helo" [] []) = "{helo=>NO_SUGGESTIONS}"
  /\ (forall (with_meta : bool) (self : AnnotatedTokens),
        get_annotated_text with_meta self
        = Py.join " "
            (placed (_tokens self)
               (Py.sorted MutableTokens.edit_leb
                  (map (edit_of with_meta) (_annotations self))))).
Proof.
  split_and!.
  - vm_compute. reflexivity.
  - vm_compute. reflexivity.
  - intros a. unfold to_str, _format_meta, NO_SUGGESTIONS.
    now destruct (suggestions a).
  - vm_compute. reflexivity.
  - vm_compute. reflexivity.
  - apply get_annotated_text_places_markers.
Qed.

(** ** The queue of [get_matching_blocks] empties *)

Section MatcherTerminates.

Local Open Scope nat_scope.

Variables a b : list string.

Lemma scan_row_bounds alo blo bhi i (j2len : gmap nat nat) :
  alo <= i -> lens_bounds blo (i - alo) j2len ->
  forall js best new,
    best_bounds alo blo bhi (S i) best ->
    lens_bounds blo (S i - alo) new ->
    let r := difflib.scan_row i blo bhi j2len js best new in
    best_bounds alo blo bhi (S i) r.1 /\ lens_bounds blo (S i - alo) r.2.
Proof.
  intros Hi Hprev. induction js as [|j js IH]; intros best new Hb Hn.
  - cbn. auto.
  - cbn [difflib.scan_row].
    destruct (Nat.ltb_spec j blo) as [|Hlo]; [now apply IH|].
    destruct (Nat.leb_spec bhi j) as [|Hhi]; [cbn; auto|].
    set (prev := match j with O => 0 | S j' => default 0 (j2len !! j') end).
    assert (Hp : prev <= i - alo /\ prev + blo <= j).
    { subst prev. destruct j as [|j']; [lia|].
      destruct (j2len !! j') as [v|] eqn:E; cbn [default from_option id];
        [|lia].
      apply Hprev in E. lia. }
    apply IH.
    + destruct best as [[bi bj] bs]. unfold best_bounds in *.
      cbn [fst snd] in *.
      destruct (Nat.ltb_spec bs (prev + 1)); cbn [fst snd]; lia.
    + intros j0 v. destruct (decide (j = j0)) as [->|Hne].
      * rewrite lookup_insert_eq. intros [= <-]. lia.
      * rewrite lookup_insert_ne by assumption. apply Hn.
Qed.

Lemma rows_bounds alo blo bhi : forall t,
  blo <= bhi ->
  let r := fold_left (difflib.row_step a b blo bhi) (seq alo t)
                     ((alo, blo, 0), ∅) in
  best_bounds alo blo bhi (alo + t) r.1 /\ lens_bounds blo t r.2.
Proof.
  induction t as [|t IH]; intros Hb.
  - cbn. unfold best_bounds, lens_bounds. cbn. split; [lia|].
    intros j v. now rewrite lookup_empty.
  - rewrite seq_S, fold_left_app. cbn [fold_left].
    specialize (IH Hb). cbv zeta in IH.
    destruct (fold_left _ (seq alo t) _) as [best j2len].
    cbn [fst snd] in IH. destruct IH as [Hbest Hlens].
    unfold difflib.row_step.
    replace (alo + S t) with (S (alo + t)) by lia.
    replace (S t) with (S (alo + t) - alo) by lia.
    apply scan_row_bounds.
    + lia.
    + now replace (alo + t - alo) with t by lia.
    + unfold best_bounds in *. lia.
    + intros j v. now rewrite lookup_empty.
Qed.

Lemma extend_left_bounds alo blo : forall bi bj bs,
  alo <= bi -> blo <= bj ->
  let r := difflib.extend_left a b alo blo bi bj bs in
  alo <= r.1.1 /\ blo <= r.1.2
  /\ r.1.1 + r.2 = bi + bs /\ r.1.2 + r.2 = bj + bs.
Proof.
  induction bi as [|bi IH]; intros bj bs Hi Hj; cbn [difflib.extend_left].
  - cbn. lia.
  - destruct bj as [|bj]; [cbn; lia|].
    destruct (Nat.ltb_spec alo (S bi)); cbn [andb]; [|cbn; lia].
    destruct (Nat.ltb_spec blo (S bj)); cbn [andb]; [|cbn; lia].
    destruct (difflib.same_at a b bi bj); [|cbn; lia].
    specialize (IH bj (S bs) ltac:(lia) ltac:(lia)). cbv zeta in IH. lia.
Qed.

Lemma extend_right_bounds ahi bhi bi bj : forall todo size,
  bi + size <= ahi -> bj + size <= bhi ->
  let s := difflib.extend_right a b todo ahi bhi bi bj size in
  bi + s <= ahi /\ bj + s <= bhi /\ size <= s.
Proof.
  induction todo as [|todo IH]; intros size Hi Hj;
    cbn [difflib.extend_right]; [lia|].
  destruct (Nat.ltb_spec (bi + size) ahi); cbn [andb]; [|lia].
  destruct (Nat.ltb_spec (bj + size) bhi); cbn [andb]; [|lia].
  destruct (difflib.same_at a b (bi + size) (bj + size)); [|lia].
  specialize (IH (S size) ltac:(lia) ltac:(lia)). cbv zeta in IH. lia.
Qed.

(** [find_longest_match] answers inside the ranges it is given. *)
Lemma find_longest_match_bounds alo ahi blo bhi :
  alo <= ahi -> blo <= bhi ->
  best_bounds alo blo bhi ahi
              (difflib.find_longest_match a b alo ahi blo bhi).
Proof.
  intros Ha Hb. unfold difflib.find_longest_match.
  pose proof (rows_bounds alo blo bhi (ahi - alo) Hb) as H. cbv zeta in H.
  destruct (fold_left _ _ _) as [[[bi bj] bs] j2len].
  destruct H as [(H1 & H2 & H3 & H4) _]. cbn [fst snd] in *.
  pose proof (extend_left_bounds alo blo bi bj bs H1 H3) as H.
  cbv zeta in H.
  destruct (difflib.extend_left a b alo blo bi bj bs) as [[bi' bj'] bs'].
  cbn [fst snd] in H. destruct H as (H5 & H6 & H7 & H8).
  pose proof (extend_right_bounds ahi bhi bi' bj'
                (ahi - (bi' + bs')) bs' ltac:(lia) ltac:(lia)) as H.
  cbv zeta in H. unfold best_bounds. cbn [fst snd]. lia.
Qed.

Lemma match_queue_empties_from : forall fuel queue blocks,
  Forall range_ok queue ->
  queue_weight queue <= fuel ->
  (difflib.match_queue a b fuel queue blocks).1 = [].
Proof.
  induction fuel as [|fuel IH]; intros queue blocks Hok Hw.
  - destruct queue as [|[[[alo ahi] blo] bhi] queue]; [reflexivity|].
    cbn in Hw. lia.
  - destruct queue as [|[[[alo ahi] blo] bhi] queue]; [reflexivity|].
    cbn [difflib.match_queue].
    apply Forall_cons in Hok as [[Ha Hb] Hok]. cbn [fst snd] in Ha, Hb.
    cbn [queue_weight foldr fst snd] in Hw. fold (queue_weight queue) in Hw.
    pose proof (find_longest_match_bounds alo ahi blo bhi Ha Hb) as H.
    destruct (difflib.find_longest_match a b alo ahi blo bhi)
      as [[i j] k].
    unfold best_bounds in H. cbn [fst snd] in H.
    destruct (Nat.ltb_spec 0 k) as [Hk|Hk]; [|apply IH; [assumption | lia]].
    apply IH.
    + destruct (Nat.ltb_spec alo i), (Nat.ltb_spec blo j),
        (Nat.ltb_spec (i + k) ahi), (Nat.ltb_spec (j + k) bhi);
        cbn [andb]; repeat (apply Forall_cons; split);
        try assumption; unfold range_ok; cbn [fst snd]; lia.
    + destruct (Nat.ltb_spec alo i), (Nat.ltb_spec blo j),
        (Nat.ltb_spec (i + k) ahi), (Nat.ltb_spec (j + k) bhi);
        cbn [andb queue_weight foldr fst snd]; fold (queue_weight queue);
        lia.
Qed.

(** With the turns [get_matching_blocks] is given, its loop runs until the
    queue is empty: no range is left unsearched. *)
Lemma match_queue_empties :
  (difflib.match_queue a b (2 * length a + 1)
                       [(0, length a, 0, length b)] []).1 = [].
Proof.
  apply match_queue_empties_from.
  - repeat constructor; cbn; lia.
  - cbn. lia.
Qed.

End MatcherTerminates.

(** * More of the matcher: the blocks it finds *)

Section MatcherBlocks.

Local Open Scope nat_scope.

Variables a b : list string.

Lemma same_at_spec i j :
  difflib.same_at a b i j = true ->
  is_Some (a !! i) /\ a !! i = b !! j.
Proof.
  unfold difflib.same_at.
  destruct (a !! i) as [x|], (b !! j) as [y|]; try discriminate.
  intros H. apply bool_decide_eq_true in H. subst. eauto.
Qed.

Lemma scan_row_match i (j2len : gmap nat nat) :
  lens_match a b i j2len ->
  forall js best new,
    Forall (fun j => is_Some (a !! i) /\ a !! i = b !! j) js ->
    is_match a b best ->
    lens_match a b (S i) new ->
    forall blo bhi,
      let r := difflib.scan_row i blo bhi j2len js best new in
      is_match a b r.1 /\ lens_match a b (S i) r.2.
Proof.
  intros Hprev. induction js as [|j js IH]; intros best new Hjs Hb Hn blo bhi.
  - cbn. auto.
  - apply Forall_cons in Hjs as [[Hsome Hij] Hjs].
    cbn [difflib.scan_row].
    destruct (j <? blo); [now apply IH|].
    destruct (bhi <=? j); [cbn; auto|].
    set (prev := match j with O => 0 | S j' => default 0 (j2len !! j') end).
    assert (Hp : prev <= i /\ prev <= j
                 /\ forall t, t < prev ->
                      is_Some (a !! (i - 1 - t))
                      /\ a !! (i - 1 - t) = b !! (j - 1 - t)).
    { subst prev. destruct j as [|j']; [split_and!; intros; lia|].
      destruct (j2len !! j') as [v|] eqn:E; cbn [default from_option id];
        [|split_and!; intros; lia].
      apply Hprev in E as (H1 & H2 & H3). split_and!; try lia.
      intros t Ht. replace (S j' - 1 - t) with (j' - t) by lia. now apply H3. }
    destruct Hp as (Hp1 & Hp2 & Hp3).
    assert (Hrun : forall u, u < prev + 1 ->
                     is_Some (a !! (i - u)) /\ a !! (i - u) = b !! (j - u)).
    { intros [|u] Hu.
      - now rewrite !Nat.sub_0_r.
      - replace (i - S u) with (i - 1 - u) by lia.
        replace (j - S u) with (j - 1 - u) by lia. apply Hp3. lia. }
    apply IH; try assumption.
    + destruct (best.2 <? prev + 1); [|assumption].
      intros t Ht. cbn [fst snd] in *.
      replace (i + 1 - (prev + 1) + t) with (i - (prev - t)) by lia.
      replace (j + 1 - (prev + 1) + t) with (j - (prev - t)) by lia.
      apply Hrun. lia.
    + intros j0 v. destruct (decide (j = j0)) as [->|Hne].
      * rewrite lookup_insert_eq. intros [= <-]. split_and!; try lia.
        intros t Ht. replace (S i - 1 - t) with (i - t) by lia.
        now apply Hrun.
      * rewrite lookup_insert_ne by assumption. apply Hn.
Qed.

Lemma lens_match_empty i : lens_match a b i ∅.
Proof. intros j v. now rewrite lookup_empty. Qed.

Lemma rows_match alo blo bhi : forall t,
  let r := fold_left (difflib.row_step a b blo bhi) (seq alo t)
                     ((alo, blo, 0), ∅) in
  is_match a b r.1 /\ lens_match a b (alo + t) r.2.
Proof.
  induction t as [|t IH].
  - cbn. split; [|apply lens_match_empty]. intros t Ht. cbn in Ht. lia.
  - rewrite seq_S, fold_left_app. cbn [fold_left]. cbv zeta in IH.
    destruct (fold_left _ (seq alo t) _) as [best j2len].
    cbn [fst snd] in IH. destruct IH as [Hbest Hlens].
    unfold difflib.row_step.
    replace (alo + S t) with (S (alo + t)) by lia.
    apply scan_row_match; try assumption; [|apply lens_match_empty].
    destruct (a !! (alo + t)) as [x|] eqn:Ex; [|constructor].
    apply Forall_forall. intros j Hj. split; [eauto|].
    symmetry. now apply js_of_sound.
Qed.

Lemma extend_left_match alo blo : forall bi bj bs,
  is_match a b (bi, bj, bs) ->
  is_match a b (difflib.extend_left a b alo blo bi bj bs).
Proof.
  induction bi as [|bi IH]; intros bj bs Hm; cbn [difflib.extend_left];
    [assumption|].
  destruct bj as [|bj]; [assumption|].
  destruct (alo <? S bi); cbn [andb]; [|assumption].
  destruct (blo <? S bj); cbn [andb]; [|assumption].
  destruct (difflib.same_at a b bi bj) eqn:E; [|assumption].
  apply IH. intros [|t] Ht; cbn [fst snd] in *.
  - rewrite !Nat.add_0_r. now apply same_at_spec.
  - replace (bi + S t) with (S bi + t) by lia.
    replace (bj + S t) with (S bj + t) by lia. apply Hm. cbn. lia.
Qed.

Lemma extend_right_match ahi bhi bi bj : forall todo size,
  is_match a b (bi, bj, size) ->
  is_match a b (bi, bj, difflib.extend_right a b todo ahi bhi bi bj size).
Proof.
  induction todo as [|todo IH]; intros size Hm; cbn [difflib.extend_right];
    [assumption|].
  destruct (bi + size <? ahi); cbn [andb]; [|assumption].
  destruct (bj + size <? bhi); cbn [andb]; [|assumption].
  destruct (difflib.same_at a b (bi + size) (bj + size)) eqn:E; [|assumption].
  apply IH. intros t Ht. cbn [fst snd] in *.
  destruct (decide (t = size)) as [->|Hne]; [now apply same_at_spec|].
  apply Hm. cbn. lia.
Qed.

(** What [find_longest_match] returns is a block common to [a] and [b]. *)
Lemma find_longest_match_match alo ahi blo bhi :
  is_match a b (difflib.find_longest_match a b alo ahi blo bhi).
Proof.
  unfold difflib.find_longest_match.
  pose proof (rows_match alo blo bhi (ahi - alo)) as H. cbv zeta in H.
  destruct (fold_left _ _ _) as [[[bi bj] bs] j2len].
  destruct H as [H _]. cbn [fst] in H.
  pose proof (extend_left_match alo blo bi bj bs H) as H'.
  destruct (difflib.extend_left a b alo blo bi bj bs) as [[bi' bj'] bs'].
  now apply extend_right_match.
Qed.

End MatcherBlocks.

(** ** Pairs of a list *)

Lemma ForallOrdPairs_cons_iff {A} (R : A -> A -> Prop) x l :
  ForallOrdPairs R (x :: l) <-> Forall (R x) l /\ ForallOrdPairs R l.
Proof.
  split.
  - intros H. inversion H; subst. auto.
  - intros [H1 H2]. now constructor.
Qed.

Lemma ForallOrdPairs_perm {A} (R : A -> A -> Prop) l l' :
  (forall x y, R x y -> R y x) ->
  l ≡ₚ l' -> ForallOrdPairs R l -> ForallOrdPairs R l'.
Proof.
  intros Hsym Hp. induction Hp as [|x l l' Hp IH|x y l|l l' l'' _ IH1 _ IH2].
  - auto.
  - rewrite !ForallOrdPairs_cons_iff. intros [H1 H2]. split; [|auto].
    now rewrite <- Hp.
  - rewrite !ForallOrdPairs_cons_iff, !Forall_cons.
    intros ([Hyx Hy] & Hx & Hl). auto.
  - auto.
Qed.

Section MatcherChain.

Local Open Scope nat_scope.

Variables a b : list string.

Lemma range_apart_sym x y : range_apart x y -> range_apart y x.
Proof. unfold range_apart. tauto. Qed.

(** A range inside a range that is apart from [x] is apart from [x]. *)
Lemma range_apart_inside x q s :
  range_apart x q ->
  q.1.1.1 <= s.1.1.1 -> s.1.1.2 <= q.1.1.2 ->
  q.1.2 <= s.1.2 -> s.2 <= q.2 ->
  range_apart x s.
Proof. unfold range_apart, range_before. lia. Qed.

Lemma match_queue_inv : forall fuel queue blocks,
  queue_inv a b queue blocks ->
  queue_inv a b (difflib.match_queue a b fuel queue blocks).1
                (difflib.match_queue a b fuel queue blocks).2.
Proof.
  induction fuel as [|fuel IH]; intros queue blocks Hinv; [assumption|].
  destruct queue as [|[[[alo ahi] blo] bhi] queue]; [assumption|].
  cbn [difflib.match_queue].
  destruct Hinv as (Hq & Hb & Hp).
  apply Forall_cons in Hq as [(Ha1 & Ha2 & Hb1 & Hb2) Hq].
  cbn [fst snd] in Ha1, Ha2, Hb1, Hb2.
  cbn [app] in Hp. apply ForallOrdPairs_cons_iff in Hp as [Hx Hp].
  pose proof (find_longest_match_bounds a b alo ahi blo bhi Ha1 Hb1) as Hbd.
  pose proof (find_longest_match_match a b alo ahi blo bhi) as Hm.
  destruct (difflib.find_longest_match a b alo ahi blo bhi) as [[i j] k].
  unfold best_bounds in Hbd. cbn [fst snd] in Hbd.
  destruct (Nat.ltb_spec 0 k) as [Hk|Hk];
    [|apply IH; split_and!; assumption].
  apply IH.
  set (left := (alo, i, blo, j)).
  set (right := (i + k, ahi, j + k, bhi)).
  assert (Hothers : forall s,
    alo <= s.1.1.1 -> s.1.1.2 <= ahi -> blo <= s.1.2 -> s.2 <= bhi ->
    Forall (range_apart s) (queue ++ map (block_range) blocks)).
  { intros s ? ? ? ?. eapply Forall_impl; [exact Hx|].
    intros x Hxq. apply range_apart_sym.
    apply (range_apart_inside x (alo, ahi, blo, bhi) s); auto.
    now apply range_apart_sym. }
  assert (Hnorm : ForallOrdPairs range_apart
            (block_range (i, j, k) :: right :: left
             :: queue ++ map block_range blocks)).
  { rewrite !ForallOrdPairs_cons_iff, !Forall_cons. split_and!.
    - left. unfold range_before, block_range, right. cbn. lia.
    - right. unfold range_before, block_range, left. cbn. lia.
    - apply Hothers; unfold block_range; cbn; lia.
    - right. unfold range_before, left, right. cbn. lia.
    - apply Hothers; unfold right; cbn; lia.
    - apply Hothers; unfold left; cbn; lia.
    - assumption. }
  assert (Hdrop1 : forall x y l,
    ForallOrdPairs range_apart (x :: y :: l) ->
    ForallOrdPairs range_apart (x :: l)).
  { intros x y l. rewrite !ForallOrdPairs_cons_iff, !Forall_cons. tauto. }
  assert (Hdrop2 : forall x y z l,
    ForallOrdPairs range_apart (x :: y :: z :: l) ->
    ForallOrdPairs range_apart (x :: y :: l)).
  { intros x y z l. rewrite !ForallOrdPairs_cons_iff, !Forall_cons. tauto. }
  assert (Hblock : Forall (block_ok a b) (blocks ++ [(i, j, k)])).
  { apply Forall_app. split; [assumption|]. apply Forall_singleton.
    unfold block_ok. cbn [fst snd]. split_and!; try assumption; lia. }
  assert (Hperm : forall q,
    ForallOrdPairs range_apart
      (block_range (i, j, k) :: q ++ map block_range blocks) ->
    ForallOrdPairs range_apart
      (q ++ map block_range (blocks ++ [(i, j, k)]))).
  { intros q. apply ForallOrdPairs_perm; [apply range_apart_sym|].
    rewrite map_app. cbn [map].
    rewrite app_assoc, <- Permutation_cons_append. reflexivity. }
  destruct (Nat.ltb_spec alo i) as [Hi|Hi], (Nat.ltb_spec blo j) as [Hj|Hj],
    (Nat.ltb_spec (i + k) ahi) as [Hi'|Hi'],
    (Nat.ltb_spec (j + k) bhi) as [Hj'|Hj'];
    cbn [andb]; fold left right;
    (split_and!; [ | exact Hblock | ]);
    try (repeat (apply Forall_cons; split); try assumption;
         unfold range_in, left, right; cbn [fst snd]; lia).
  all: try (apply (Hperm (right :: left :: queue)); exact Hnorm).
  all: try (apply (Hperm (right :: queue)); cbn [app];
            eapply Hdrop2; exact Hnorm).
  all: try (apply (Hperm (left :: queue)); cbn [app];
            eapply Hdrop1; exact Hnorm).
  all: try (apply (Hperm queue); eapply Hdrop1, Hdrop1; exact Hnorm).
Qed.

End MatcherChain.

Lemma ForallOrdPairs_map {A B} (R : B -> B -> Prop) (f : A -> B) l :
  ForallOrdPairs R (map f l) <-> ForallOrdPairs (fun x y => R (f x) (f y)) l.
Proof.
  induction l as [|x l IH]; cbn [map].
  - split; constructor.
  - rewrite !ForallOrdPairs_cons_iff, IH, Forall_map. reflexivity.
Qed.

Section MatcherSorted.

Local Open Scope nat_scope.

Variables a b : list string.

(** On blocks that are apart and not empty, the order of the sort is the
    order of the blocks in the sequences. *)
Lemma match_leb_before x y :
  0 < x.2 -> 0 < y.2 ->
  range_apart (block_range x) (block_range y) ->
  if difflib.match_leb x y then block_before x y else block_before y x.
Proof.
  destruct x as [[i1 j1] k1], y as [[i2 j2] k2].
  unfold range_apart, range_before, block_range, block_before,
    difflib.match_leb. cbn [fst snd]. intros H1 H2 Hap.
  destruct (Nat.ltb_spec i1 i2); cbn [orb]; [lia|].
  destruct (Nat.eqb_spec i1 i2); cbn [andb]; lia.
Qed.

Lemma block_before_trans x y z :
  block_before x y -> block_before y z -> block_before x z.
Proof. unfold block_before. lia. Qed.

Lemma insert_sorted_blocks x s :
  0 < x.2 ->
  Forall (fun y => 0 < y.2
                   /\ range_apart (block_range x) (block_range y)) s ->
  StronglySorted block_before s ->
  StronglySorted block_before (Py.insert_sorted difflib.match_leb x s).
Proof.
  intros Hx Hall Hs. induction Hs as [|y s Hs IH Hy]; cbn.
  - repeat constructor.
  - apply Forall_cons in Hall as [[Hyk Hap] Hall].
    pose proof (match_leb_before x y Hx Hyk Hap) as Hc.
    destruct (difflib.match_leb x y).
    + constructor; [now constructor|]. constructor; [assumption|].
      eapply Forall_impl; [exact Hy|]. intros z Hz.
      now apply (block_before_trans x y z).
    + constructor; [now apply IH|].
      rewrite (insert_sorted_perm difflib.match_leb x s).
      now constructor.
Qed.

Lemma sorted_blocks l :
  Forall (fun y => 0 < y.2) l ->
  ForallOrdPairs (fun x y => range_apart (block_range x) (block_range y)) l ->
  StronglySorted block_before (Py.sorted difflib.match_leb l).
Proof.
  induction l as [|x l IH]; cbn [Py.sorted foldr]; [constructor|].
  intros Hk Hp. apply Forall_cons in Hk as [Hx Hk].
  apply ForallOrdPairs_cons_iff in Hp as [Hxl Hp].
  apply insert_sorted_blocks; [assumption| |now apply IH].
  fold (Py.sorted difflib.match_leb l).
  rewrite (sorted_perm difflib.match_leb l).
  apply Forall_forall. intros y Hy. rewrite Forall_forall in Hk, Hxl. auto.
Qed.

Lemma collapse_fold : forall rem cur acc,
  (let '((i1, j1, k1), non_adjacent) :=
     fold_left difflib.collapse_step rem (cur, acc) in
   if 0 <? k1 then non_adjacent ++ [(i1, j1, k1)] else non_adjacent)
  = acc ++ collapsed cur rem.
Proof.
  induction rem as [|[[i2 j2] k2] rem IH]; intros [[i1 j1] k1] acc.
  - destruct k1; cbn; [now rewrite app_nil_r | reflexivity].
  - cbn [fold_left difflib.collapse_step collapsed fst snd].
    destruct ((i1 + k1 =? i2) && (j1 + k1 =? j2)); rewrite IH;
      [reflexivity|].
    destruct (0 <? k1); [now rewrite <- app_assoc | reflexivity].
Qed.

Lemma is_match_join i j k1 k2 :
  is_match a b (i, j, k1) -> is_match a b (i + k1, j + k1, k2) ->
  is_match a b (i, j, k1 + k2).
Proof.
  intros H1 H2 t Ht. cbn [fst snd] in *.
  destruct (Nat.lt_ge_cases t k1) as [Hlt|Hge]; [now apply H1|].
  replace (i + t) with (i + k1 + (t - k1)) by lia.
  replace (j + t) with (j + k1 + (t - k1)) by lia.
  apply H2. cbn. lia.
Qed.

Lemma chain_cons m rest i j :
  i <= m.1.1 -> j <= m.1.2 -> is_match a b m ->
  m.1.1 + m.2 <= length a -> m.1.2 + m.2 <= length b ->
  (0 < m.2 \/ rest = []) ->
  chain a b (m.1.1 + m.2) (m.1.2 + m.2) rest ->
  chain a b i j (m :: rest).
Proof. cbn [chain]. auto 10. Qed.

Lemma collapsed_chain : forall rem cur i j,
  i <= cur.1.1 -> j <= cur.1.2 ->
  is_match a b cur ->
  cur.1.1 + cur.2 <= length a -> cur.1.2 + cur.2 <= length b ->
  Forall (block_before cur) rem ->
  StronglySorted block_before rem ->
  Forall (block_ok a b) rem ->
  chain a b i j (collapsed cur rem ++ [(length a, length b, 0)]).
Proof.
  assert (Hlast : forall i j, i <= length a -> j <= length b ->
            chain a b i j [(length a, length b, 0)]).
  { intros i j Hi Hj. cbn. split_and!; auto; try lia.
    intros t Ht. cbn in Ht. lia. }
  induction rem as [|y rem IH]; intros [[i1 j1] k1] i j Hi Hj Hm Ha Hb
    Hbef Hs Hok; cbn [fst snd] in *.
  - cbn [collapsed snd]. destruct (Nat.ltb_spec 0 k1).
    + cbn [app]. apply chain_cons; cbn [fst snd]; auto.
    + apply Hlast; lia.
  - apply Forall_cons in Hbef as [Hby Hbef].
    apply StronglySorted_cons in Hs as [Hy Hs].
    apply Forall_cons in Hok as [(Hyk & Hym & Hya & Hyb) Hok].
    destruct y as [[i2 j2] k2]. unfold block_before in Hby.
    cbn [fst snd] in *. cbn [collapsed fst snd].
    destruct (Nat.eqb_spec (i1 + k1) i2) as [Ei|Ei];
      [destruct (Nat.eqb_spec (j1 + k1) j2) as [Ej|Ej]|]; cbn [andb].
    + subst i2 j2. apply IH; cbn [fst snd]; try assumption; try lia.
      * now apply is_match_join.
      * eapply Forall_impl; [exact Hy|]. unfold block_before. cbn. lia.
    + destruct (Nat.ltb_spec 0 k1); cbn [app].
      * apply chain_cons; cbn [fst snd]; auto.
        apply IH; cbn [fst snd]; try assumption; lia.
      * apply IH; cbn [fst snd]; try assumption; lia.
    + destruct (Nat.ltb_spec 0 k1); cbn [app].
      * apply chain_cons; cbn [fst snd]; auto.
        apply IH; cbn [fst snd]; try assumption; lia.
      * apply IH; cbn [fst snd]; try assumption; lia.
Qed.

(** The matching blocks go up in both sequences, each is a common block,
    and the list ends with the empty block at the ends of the sequences. *)
Lemma get_matching_blocks_chain :
  chain a b 0 0 (difflib.get_matching_blocks a b).
Proof.
  unfold difflib.get_matching_blocks.
  pose proof (match_queue_inv a b (2 * length a + 1)
                [(0, length a, 0, length b)] []) as Hinv.
  pose proof (match_queue_empties a b) as Hempty.
  destruct (difflib.match_queue a b _ _ _) as [queue blocks].
  cbn [fst snd] in *. subst queue.
  destruct Hinv as (_ & Hok & Hp).
  { split_and!.
    - repeat constructor; cbn; lia.
    - constructor.
    - cbn. repeat constructor. }
  cbn [app] in Hp.
  apply (proj1 (ForallOrdPairs_map range_apart block_range blocks)) in Hp.
  pose proof (collapse_fold (Py.sorted difflib.match_leb blocks)
                (0, 0, 0) []) as Hfold.
  destruct (fold_left difflib.collapse_step _ _) as [[[i1 j1] k1] na].
  rewrite Hfold. cbn [app].
  apply collapsed_chain; cbn [fst snd]; try lia.
  - intros t Ht. cbn in Ht. lia.
  - apply Forall_forall. intros y _. unfold block_before. cbn. lia.
  - apply sorted_blocks; [|assumption].
    eapply Forall_impl; [exact Hok|]. now intros y (H & _).
  - now rewrite (sorted_perm difflib.match_leb blocks).
Qed.

End MatcherSorted.

(** * More of align: what [_gen_diffs] yields *)

Section GenDiffs.

Variables a b : list string.

(** The entry of [_gen_diffs] for one opcode. *)
Let entry (diff : difflib.opcode) : list (Z * Z * string) :=
  match _tag diff with
  | difflib.equal => []
  | _ =>
      let '(_, i1, i2, j1, j2) := diff in
      [(Z.of_nat i1, Z.of_nat i2,
        Py.join " " (Py.slice b (Z.of_nat j1) (Z.of_nat j2)))]
  end.

Lemma opcodes_gaps : forall blocks i j answer,
  flat_map entry (fold_left difflib.opcode_step blocks (i, j, answer)).2
  = flat_map entry answer ++ map (diff_of_gap b) (gaps i j blocks).
Proof.
  induction blocks as [|[[ai bj] size] blocks IH]; intros i j answer.
  - cbn. now rewrite app_nil_r.
  - cbn [fold_left difflib.opcode_step gaps fst snd]. rewrite IH.
    rewrite map_app, app_assoc. f_equal.
    destruct (Nat.ltb_spec i ai), (Nat.ltb_spec j bj); cbn [andb orb];
      destruct (0 <? size)%nat;
      rewrite ?flat_map_app; cbn; rewrite ?app_nil_r; reflexivity.
Qed.

Lemma _gen_diffs_gaps :
  _gen_diffs (Lst a) (Lst b)
  = map (diff_of_gap b) (gaps 0 0 (difflib.get_matching_blocks a b)).
Proof.
  unfold _gen_diffs, difflib.get_opcodes. cbn [_get_tokens].
  exact (opcodes_gaps _ 0%nat 0%nat []).
Qed.

(** The stretches between the blocks of a chain lie inside the sequences,
    go up, and are separated by a block that is not empty. *)
Lemma gaps_chain : forall blocks i j,
  chain a b i j blocks ->
  Forall (fun g => (i <= g.1.1.1 /\ g.1.1.1 <= g.1.1.2
                    /\ g.1.1.2 <= length a /\ j <= g.1.2
                    /\ g.1.2 <= g.2 /\ g.2 <= length b)%nat)
         (gaps i j blocks)
  /\ StronglySorted (fun g g' => (g.1.1.2 < g'.1.1.1)%nat) (gaps i j blocks).
Proof.
  induction blocks as [|[[ai bj] size] blocks IH]; intros i j Hc.
  - cbn. split; constructor.
  - cbn [chain fst snd] in Hc.
    destruct Hc as (Hi & Hj & _ & Ha & Hb & Hsize & Hc).
    destruct (IH _ _ Hc) as [Hin Hs].
    assert (Hin' : Forall (fun g => (i <= g.1.1.1 /\ g.1.1.1 <= g.1.1.2
                    /\ g.1.1.2 <= length a /\ j <= g.1.2
                    /\ g.1.2 <= g.2 /\ g.2 <= length b)%nat)
                   (gaps (ai + size) (bj + size) blocks)).
    { eapply Forall_impl; [exact Hin|]. cbn. intros g Hg. lia. }
    cbn [gaps fst snd].
    destruct ((i <? ai)%nat || (j <? bj)%nat); cbn [app]; [|auto].
    split.
    + constructor; [cbn; lia | assumption].
    + constructor; [assumption|].
      destruct Hsize as [Hpos| ->]; [|constructor].
      eapply Forall_impl; [exact Hin|]. cbn. intros g Hg. lia.
Qed.

End GenDiffs.

(** ** Inserting what [_gen_diffs] yields *)

Lemma no_overlap_after s e (anns : list TokenAnnotation) :
  Forall (fun x => end_ x < s) anns ->
  List.filter (overlaps s e) anns = [].
Proof.
  induction 1 as [|x anns Hx _ IH]; [reflexivity|].
  cbn [List.filter]. rewrite IH.
  destruct (overlaps s e x) eqn:E; [|reflexivity].
  apply overlaps_spec in E. unfold overlap_spec in E. lia.
Qed.

Lemma for_each_annotate_diffs tokens : forall diffs anns,
  Forall (fun d : Z * Z * string => d.1.1 <= d.1.2) diffs ->
  StronglySorted diff_before diffs ->
  Forall (fun x => Forall (fun d : Z * Z * string => end_ x < d.1.1) diffs)
         anns ->
  for_each diffs
    (fun diff => let '(l, r, repl) := diff in
                 annotate l r (Single repl) None (Policy OnOverlap.ERROR))
    (mkAnnotatedTokens tokens anns)
  = (Ok tt,
     mkAnnotatedTokens tokens
       (anns ++ map (annotation_of_diff tokens) diffs)).
Proof.
  induction diffs as [|[[l r] repl] diffs IH]; intros anns Hle Hs Hanns.
  - cbn. now rewrite app_nil_r.
  - apply Forall_cons in Hle as [Hlr Hle]. cbn [fst snd] in Hlr.
    apply StronglySorted_cons in Hs as [Hd Hs].
    cbn [for_each]. unfold bind at 1. unfold annotate at 1.
    rewrite annotate_with_no_overlap; [|assumption|].
    + unfold with_annotations, new_annotation.
      cbn [_tokens _annotations default from_option].
      rewrite IH; [|assumption|assumption|].
      * cbn [map]. now rewrite <- app_assoc.
      * apply Forall_app. split.
        -- eapply Forall_impl; [exact Hanns|]. cbn.
           intros x Hx. now apply Forall_cons in Hx as [_ Hx].
        -- apply Forall_singleton. cbn [end_].
           eapply Forall_impl; [exact Hd|]. now unfold diff_before.
    + apply no_overlap_after. eapply Forall_impl; [exact Hanns|]. cbn.
      intros x Hx. now apply Forall_cons in Hx as [Hx _].
Qed.

Lemma _gen_diffs_tokens (tokens : list string) (target : str_or_list) :
  _gen_diffs (Lst tokens) target
  = map (diff_of_gap (_get_tokens target))
        (gaps 0 0 (difflib.get_matching_blocks tokens (_get_tokens target))).
Proof.
  rewrite <- _gen_diffs_gaps. now destruct target.
Qed.

(** What [_gen_diffs] yields lies inside the source, goes up, and leaves at
    least one token between two entries. *)
Lemma _gen_diffs_separated (tokens : list string) (target : str_or_list) :
  Forall (fun d : Z * Z * string =>
            0 <= d.1.1 /\ d.1.1 <= d.1.2
            /\ d.1.2 <= Z.of_nat (length tokens))
         (_gen_diffs (Lst tokens) target)
  /\ StronglySorted diff_before (_gen_diffs (Lst tokens) target).
Proof.
  rewrite _gen_diffs_tokens.
  destruct (gaps_chain tokens (_get_tokens target) _ _ _
              (get_matching_blocks_chain tokens (_get_tokens target)))
    as [Hin Hs].
  split.
  - apply Forall_map. eapply Forall_impl; [exact Hin|]. cbn.
    intros g Hg. lia.
  - apply (StronglySorted_fmap _
             (fun g g' : nat * nat * nat * nat => (g.1.1.2 < g'.1.1.1)%nat)
             diff_before); [|exact Hs].
    unfold diff_before. cbn. intros g g' Hg. lia.
Qed.

(** X1.  [align] never raises.  For every source and target, given as texts
    or as token lists, it returns the buffer over the source tokens with one
    annotation for every entry of [_gen_diffs], in their order: every
    annotation lies inside the source, has the covered source tokens as
    source text, one suggestion and no metadata, and ends at least one token
    before the next one starts. *)
Theorem align_never_raises (source target : str_or_list) :
  exists anns,
    align source target = Ok (mkAnnotatedTokens (_get_tokens source) anns)
    /\ anns = map (annotation_of_diff (_get_tokens source))
                  (_gen_diffs (Lst (_get_tokens source)) target)
    /\ StronglySorted (fun x y => end_ x < start y) anns
    /\ Forall (fun x =>
                 0 <= start x /\ start x <= end_ x
                 /\ end_ x <= Z.of_nat (length (_get_tokens source))
                 /\ source_text x
                    = Py.join " " (Py.slice (_get_tokens source)
                                            (start x) (end_ x))
                 /\ (exists repl, suggestions x = [repl])
                 /\ meta x = [])
              anns.
Proof.
  set (tokens := _get_tokens source).
  destruct (_gen_diffs_separated tokens target) as [Hin Hs].
  exists (map (annotation_of_diff tokens) (_gen_diffs (Lst tokens) target)).
  split_and!.
  - unfold align.
    change (match source with Str s => Py.split s | Lst l => l end)
      with tokens.
    cbn [__init__].
    rewrite for_each_annotate_diffs; [reflexivity| |assumption|constructor].
    eapply Forall_impl; [exact Hin|]. cbn. tauto.
  - reflexivity.
  - apply (StronglySorted_fmap _ diff_before
             (fun x y => end_ x < start y)); [|exact Hs].
    now unfold diff_before.
  - apply Forall_map. eapply Forall_impl; [exact Hin|]. cbn.
    intros d (H1 & H2 & H3). split_and!; eauto.
Qed.

(** ** Strings of plain tokens *)

Lemma split_char_no_sep c t :
  (forall x, In x (list_ascii_of_string t) -> x <> c) ->
  forall s, Py.split_char c (t +:+ String c s) = t :: Py.split_char c s.
Proof.
  induction t as [|x t IH]; intros Hno s.
  - change (EmptyString +:+ String c s) with (String c s).
    cbn [Py.split_char]. now rewrite Ascii.eqb_refl.
  - change (String x t +:+ String c s) with (String x (t +:+ String c s)).
    cbn [Py.split_char].
    destruct (Ascii.eqb_spec x c) as [->|_].
    + exfalso. apply (Hno c); [now left | reflexivity].
    + rewrite IH; [reflexivity|]. intros y Hy. apply Hno. now right.
Qed.

Lemma split_char_whole c t :
  (forall x, In x (list_ascii_of_string t) -> x <> c) ->
  Py.split_char c t = [t].
Proof.
  induction t as [|x t IH]; intros Hno; [reflexivity|].
  cbn [Py.split_char].
  destruct (Ascii.eqb_spec x c) as [->|_].
  - exfalso. apply (Hno c); [now left | reflexivity].
  - rewrite IH; [reflexivity|]. intros y Hy. apply Hno. now right.
Qed.

Lemma has_space_spec t :
  has_space t = false ->
  forall x, In x (list_ascii_of_string t) -> x <> " "%char.
Proof.
  induction t as [|c t IH]; cbn; [easy|].
  intros H x [<-|Hx].
  - apply orb_false_iff in H as [H _]. now apply Ascii.eqb_neq in H.
  - apply orb_false_iff in H as [_ H]. now apply IH.
Qed.

(** Tokens without a space, joined by spaces and split again, come back. *)
Lemma split_join_plain toks :
  Forall plain_token toks -> toks <> [] ->
  Py.split_char " " (Py.join " " toks) = toks.
Proof.
  induction 1 as [|t toks [_ Ht] Hall IH]; [easy|]. intros _.
  rewrite join_cons. destruct toks as [|t' toks].
  - apply split_char_whole. now apply has_space_spec.
  - change (t +:+ " " +:+ Py.join " " (t' :: toks))
      with (t +:+ String " " (Py.join " " (t' :: toks))).
    rewrite split_char_no_sep by now apply has_space_spec.
    now rewrite IH.
Qed.

Lemma join_plain_truthy toks :
  Forall plain_token toks -> toks <> [] ->
  Py.truthy (Py.join " " toks) = true.
Proof.
  intros Hall Hne. destruct toks as [|t toks]; [easy|].
  apply Forall_cons in Hall as [[Ht _] _].
  rewrite join_cons. destruct t as [|c t]; [easy|]. now destruct toks.
Qed.

Lemma prefix_app sub : forall s post,
  String.prefix sub s = true -> String.prefix sub (s +:+ post) = true.
Proof.
  induction sub as [|c sub IH]; intros s post;
    [now destruct (s +:+ post)|].
  destruct s as [|x s]; [discriminate|].
  change (String x s +:+ post) with (String x (s +:+ post)).
  cbn [String.prefix].
  destruct (ascii_dec c x); [apply IH | discriminate].
Qed.

Lemma contains_app_r sub : forall s post,
  Py.contains sub s = true -> Py.contains sub (s +:+ post) = true.
Proof.
  induction s as [|x s IH]; intros post H.
  - destruct sub as [|c sub]; [now destruct post | discriminate].
  - change (String x s +:+ post) with (String x (s +:+ post)).
    cbn [Py.contains] in *.
    destruct (String.prefix sub (String x s)) eqn:E.
    + apply (prefix_app _ _ post) in E.
      change (String x s +:+ post) with (String x (s +:+ post)) in E.
      now rewrite E.
    + rewrite (IH post H).
      now destruct (String.prefix sub (String x (s +:+ post))).
Qed.

Lemma contains_app_l sub pre : forall s,
  Py.contains sub s = true -> Py.contains sub (pre +:+ s) = true.
Proof.
  induction pre as [|x pre IH]; intros s H; [assumption|].
  change (String x pre +:+ s) with (String x (pre +:+ s)).
  cbn [Py.contains]. rewrite (IH s H).
  now destruct (String.prefix sub (String x (pre +:+ s))).
Qed.

Lemma string_app_nil_r (s : string) : s +:+ EmptyString = s.
Proof.
  induction s as [|c s IH]; [reflexivity|].
  change (String c (s +:+ EmptyString) = String c s). now rewrite IH.
Qed.

(** A stretch of a token list, joined, is a stretch of the joined list. *)
Lemma join_infix (l1 l2 l3 : list string) :
  l2 <> [] ->
  exists pre post,
    Py.join " " (l1 ++ l2 ++ l3) = pre +:+ Py.join " " l2 +:+ post.
Proof.
  intros Hne.
  assert (exists post, Py.join " " (l2 ++ l3) = Py.join " " l2 +:+ post)
    as [post Hpost].
  { rewrite join_app. destruct l2 as [|x2 l2]; [easy|].
    destruct l3 as [|x3 l3].
    - exists EmptyString. now rewrite string_app_nil_r.
    - now exists (" " +:+ Py.join " " (x3 :: l3)). }
  rewrite join_app. destruct l1 as [|x1 l1].
  - now exists EmptyString, post.
  - destruct (l2 ++ l3) as [|y l23] eqn:E.
    { now destruct l2. }
    exists (Py.join " " (x1 :: l1) +:+ " "), post.
    rewrite Hpost. now rewrite !string_app_assoc.
Qed.

Lemma contains_join_stretch sub (l : list string) (i k : nat) :
  Py.contains sub EmptyString = false ->
  Py.contains sub (Py.join " " l) = false ->
  Py.contains sub (Py.join " " (take k (drop i l))) = false.
Proof.
  intros Hempty Hl.
  destruct (take k (drop i l)) as [|x l2] eqn:E; [exact Hempty|].
  destruct (Py.contains sub (Py.join " " (x :: l2))) eqn:Hc; [|reflexivity].
  destruct (join_infix (take i l) (x :: l2) (drop k (drop i l)))
    as (pre & post & Hj); [easy|].
  rewrite <- E, take_drop, take_drop in Hj.
  rewrite Hj in Hl. rewrite E in Hl.
  now rewrite (contains_app_l sub pre _ (contains_app_r sub _ post Hc)) in Hl.
Qed.

(** ** Slices at positions inside the list *)

Lemma slice_nat {A} (l : list A) (i j : nat) :
  (i <= j)%nat -> (j <= length l)%nat ->
  Py.slice l (Z.of_nat i) (Z.of_nat j) = take (j - i) (drop i l).
Proof.
  intros Hij Hj. unfold Py.slice, Py.clamp.
  destruct (Z.ltb_spec (Z.of_nat i) 0); [lia|].
  destruct (Z.ltb_spec (Z.of_nat j) 0); [lia|].
  rewrite !Z.min_l by lia. f_equal; [lia|]. f_equal. lia.
Qed.

Lemma slice_from_nat {A} (l : list A) (i : nat) :
  (i <= length l)%nat -> Py.slice_from l (Z.of_nat i) = drop i l.
Proof.
  intros Hi. unfold Py.slice_from, Py.clamp.
  destruct (Z.ltb_spec (Z.of_nat i) 0); [lia|].
  rewrite Z.min_l by lia. f_equal. lia.
Qed.

(** Sorting a list that is in order gives the list. *)
Lemma sorted_in_order {A} (leb : A -> A -> bool) (l : list A) :
  StronglySorted (fun x y => leb x y = true) l -> Py.sorted leb l = l.
Proof.
  induction 1 as [|x l _ IH Hx]; [reflexivity|].
  cbn [Py.sorted foldr]. fold (Py.sorted leb l). rewrite IH.
  destruct l as [|y l]; [reflexivity|].
  apply Forall_cons in Hx as [Hxy _]. cbn. now rewrite Hxy.
Qed.

(** ** Applying the suggestions of [align] *)

Lemma StronglySorted_weaken {A} (P : A -> Prop) (R R' : A -> A -> Prop)
    (l : list A) :
  (forall x y, P x -> R x y -> R' x y) ->
  Forall P l -> StronglySorted R l -> StronglySorted R' l.
Proof.
  intros HR Hall Hs. induction Hs as [|x l _ IH Hx]; [constructor|].
  apply Forall_cons in Hall as [Hp Hall]. constructor; [auto|].
  eapply Forall_impl; [exact Hx|]. cbn. auto.
Qed.

Lemma align_ok (source target : str_or_list) :
  align source target
  = Ok (mkAnnotatedTokens (_get_tokens source)
          (map (annotation_of_diff (_get_tokens source))
               (_gen_diffs (Lst (_get_tokens source)) target))).
Proof.
  set (tokens := _get_tokens source).
  destruct (_gen_diffs_separated tokens target) as [Hin Hs].
  unfold align.
  change (match source with Str s => Py.split s | Lst l => l end)
    with tokens.
  cbn [__init__].
  rewrite for_each_annotate_diffs; [reflexivity| |assumption|constructor].
  eapply Forall_impl; [exact Hin|]. cbn. tauto.
Qed.

(** The annotations of [align] stage the entries of [_gen_diffs]. *)
Lemma staged_diffs tokens : forall diffs m,
  fold_left
    (fun tokens ann =>
       match Py.index (suggestions ann) 0 with
       | Some sugg => MutableTokens.replace (start ann) (end_ ann) sugg tokens
       | None => tokens
       end)
    (map (annotation_of_diff tokens) diffs) m
  = MutableTokens.mk (MutableTokens._tokens m)
                     (MutableTokens._edits m ++ diffs).
Proof.
  induction diffs as [|[[l r] repl] diffs IH]; intros m.
  - cbn. rewrite app_nil_r. now destruct m.
  - cbn [map fold_left]. rewrite IH.
    change (Py.index (suggestions (annotation_of_diff tokens (l, r, repl))) 0)
      with (Some repl).
    cbn. now rewrite <- app_assoc.
Qed.

Section RoundTrip.

Variables a b : list string.
Hypothesis Hplain : Forall plain_token b.
Hypothesis Hclean : Py.contains NO_SUGGESTIONS (Py.join " " b) = false.

Lemma match_stretch (m : difflib.Match) :
  is_match a b m ->
  (m.1.1 + m.2 <= length a)%nat -> (m.1.2 + m.2 <= length b)%nat ->
  take m.2 (drop m.1.1 a) = take m.2 (drop m.1.2 b).
Proof.
  destruct m as [[ai bj] size]. cbn [fst snd]. intros Hm Ha Hb.
  apply list_eq. intros t.
  destruct (Nat.lt_ge_cases t size) as [Ht|Ht].
  - rewrite !lookup_take_lt, !lookup_drop by assumption.
    destruct (Hm t Ht) as [_ H]. exact H.
  - now rewrite !lookup_take_ge.
Qed.

(** One edit of [get_edited_tokens] for a stretch between two blocks. *)
Lemma edit_step_gap (res : list string) (p : nat)
    (g : nat * nat * nat * nat) :
  (p <= g.1.1.1 /\ g.1.1.1 <= g.1.1.2 /\ g.1.1.2 <= length a
   /\ g.1.2 <= g.2 /\ g.2 <= length b)%nat ->
  MutableTokens.edit_step false a (res, Z.of_nat p) (diff_of_gap b g)
  = (res ++ take (g.1.1.1 - p) (drop p a)
         ++ take (g.2 - g.1.2) (drop g.1.2 b),
     Z.of_nat g.1.1.2).
Proof.
  destruct g as [[[i ai] j] bj]. cbn [fst snd]. intros (Hp & Hi & Ha & Hj & Hb).
  unfold MutableTokens.edit_step, diff_of_gap. cbn [fst snd negb andb].
  rewrite !slice_nat by lia.
  change "NO_SUGGESTIONS"%string with NO_SUGGESTIONS.
  rewrite (contains_join_stretch NO_SUGGESTIONS b j (bj - j) eq_refl Hclean).
  f_equal.
  destruct (take (bj - j) (drop j b)) as [|x l] eqn:E.
  { cbn. now rewrite app_nil_r. }
  assert (Hp' : Forall plain_token (x :: l)).
  { rewrite <- E. apply Forall_take, Forall_drop, Hplain. }
  rewrite join_plain_truthy by easy.
  rewrite split_join_plain by easy. now rewrite app_assoc.
Qed.

(** Going through the stretches of a chain of blocks rebuilds [b]: from the
    tokens of [a] that are kept so far, what it adds is the rest of [b]. *)
Lemma edits_rebuild : forall blocks i j res p,
  chain a b i j blocks -> (p <= i)%nat ->
  let '(r, q) :=
    fold_left (MutableTokens.edit_step false a)
              (map (diff_of_gap b) (gaps i j blocks)) (res, Z.of_nat p) in
  r ++ Py.slice_from a q = res ++ take (i - p) (drop p a) ++ drop j b.
Proof.
  induction blocks as [|[[ai bj] size] blocks IH]; intros i j res p Hc Hp.
  - cbn in Hc. destruct Hc as [-> ->]. cbn [gaps map fold_left].
    rewrite slice_from_nat by assumption.
    rewrite take_ge by (rewrite length_drop; lia).
    rewrite (drop_ge b) by lia. now rewrite app_nil_r.
  - cbn [chain fst snd] in Hc.
    destruct Hc as (Hi & Hj & Hm & Ha & Hb & _ & Hc).
    pose proof (match_stretch _ Hm Ha Hb) as Heq. cbn [fst snd] in Heq.
    assert (Hb' : drop bj b = take size (drop bj b) ++ drop (bj + size) b).
    { now rewrite <- (drop_drop b size bj), take_drop. }
    cbn [gaps fst snd].
    destruct ((i <? ai)%nat || (j <? bj)%nat) eqn:Hgap.
    + cbn [app map fold_left].
      rewrite (edit_step_gap res p (i, ai, j, bj)) by (cbn [fst snd]; lia).
      cbn [fst snd].
      specialize (IH (ai + size)%nat (bj + size)%nat
                     (res ++ take (i - p) (drop p a)
                          ++ take (bj - j) (drop j b)) ai Hc).
      destruct (fold_left _ _ _) as [r q]. rewrite IH by lia.
      replace (ai + size - ai)%nat with size by lia.
      rewrite Heq, <- !app_assoc. do 2 f_equal.
      rewrite <- (take_drop (bj - j) (drop j b)) at 2.
      rewrite drop_drop. replace (j + (bj - j))%nat with bj by lia.
      now rewrite <- Hb'.
    + apply orb_false_iff in Hgap as [Hi' Hj'].
      apply Nat.ltb_ge in Hi', Hj'.
      cbn [app].
      assert (i = ai) as -> by lia. assert (j = bj) as -> by lia.
      specialize (IH (ai + size)%nat (bj + size)%nat res p Hc).
      destruct (fold_left _ _ _) as [r q]. rewrite IH by lia.
      f_equal. rewrite Hb', <- Heq, app_assoc. f_equal.
      replace (ai + size - p)%nat with ((ai - p) + size)%nat by lia.
      rewrite <- take_take_drop, drop_drop.
      now replace (p + (ai - p))%nat with ai by lia.
Qed.

Lemma get_corrected_tokens_align :
  get_corrected_tokens 0
    (mkAnnotatedTokens a (map (annotation_of_diff a)
                              (_gen_diffs (Lst a) (Lst b))))
  = b.
Proof.
  unfold get_corrected_tokens. cbn [_tokens _annotations].
  rewrite staged_diffs. cbn [MutableTokens.__init__ MutableTokens._tokens
                              MutableTokens._edits app].
  unfold MutableTokens.get_edited_tokens.
  cbn [MutableTokens._tokens MutableTokens._edits].
  rewrite sorted_in_order.
  - rewrite _gen_diffs_gaps.
    pose proof (edits_rebuild _ 0%nat 0%nat [] 0%nat
                  (get_matching_blocks_chain a b) (Nat.le_refl _)) as H.
    change (Z.of_nat 0) with 0 in H.
    destruct (fold_left _ _ _) as [r q]. rewrite H. reflexivity.
  - destruct (_gen_diffs_separated a (Lst b)) as [Hin Hs].
    eapply StronglySorted_weaken; [|exact Hin|exact Hs].
    intros [[l r] v] [[l' r'] v']. unfold diff_before. cbn [fst snd].
    intros (_ & Hlr & _) Hb. unfold MutableTokens.edit_leb.
    apply orb_true_iff. left. apply Z.ltb_lt. lia.
Qed.

End RoundTrip.

(** X2.  Round trip of [align] and [get_corrected_tokens]: when no target
    token is empty or holds a space, and the target text does not hold
    ["NO_SUGGESTIONS"], applying the suggestions of the buffer that [align]
    builds gives back the target tokens, and the corrected text is the
    target tokens joined by spaces, whatever the source is. *)
Theorem align_corrected_is_target (source target : str_or_list) :
  Forall plain_token (_get_tokens target) ->
  Py.contains NO_SUGGESTIONS (Py.join " " (_get_tokens target)) = false ->
  exists buffer,
    align source target = Ok buffer
    /\ get_original_tokens buffer = _get_tokens source
    /\ get_corrected_tokens 0 buffer = _get_tokens target
    /\ get_corrected_text 0 buffer = Py.join " " (_get_tokens target).
Proof.
  intros Hplain Hclean. eexists. split; [apply align_ok|].
  assert (H : get_corrected_tokens 0
                (mkAnnotatedTokens (_get_tokens source)
                   (map (annotation_of_diff (_get_tokens source))
                      (_gen_diffs (Lst (_get_tokens source)) target)))
              = _get_tokens target).
  { replace (_gen_diffs (Lst (_get_tokens source)) target)
      with (_gen_diffs (Lst (_get_tokens source)) (Lst (_get_tokens target)))
      by now destruct target.
    now apply get_corrected_tokens_align. }
  split_and!; [reflexivity | exact H |].
  unfold get_corrected_text. now rewrite H.
Qed.

Lemma align_corrected_is_target_witness :
  exists buffer,
    align (Str "the red fox jumps") (Str "a red fox jumped high") = Ok buffer
    /\ get_original_tokens buffer = ["the"; "red"; "fox"; "jumps"]%string
    /\ get_corrected_tokens 0 buffer
       = ["a"; "red"; "fox"; "jumped"; "high"]%string
    /\ get_corrected_text 0 buffer = "a red fox jumped high"%string.
Proof.
  apply (align_corrected_is_target
           (Str "the red fox jumps") (Str "a red fox jumped high")).
  - vm_compute. repeat constructor; discriminate.
  - vm_compute. reflexivity.
Defined.

(** ** The overlap policies *)

Lemma __eq___refl x : __eq__ x x = true.
Proof. apply __eq___spec, same_value_refl. Qed.

(** Removing the overlapping annotations one after the other, as the
    [OVERRIDE] branch does, leaves the others in their order. *)
Lemma remove_overlapping (p : TokenAnnotation -> bool) tokens :
  (forall x y, __eq__ y x = true -> p x = true -> p y = true) ->
  forall anns pre,
    Forall (fun z => p z = false) pre ->
    for_each (List.filter p anns) remove (mkAnnotatedTokens tokens (pre ++ anns))
    = (Ok tt,
       mkAnnotatedTokens tokens
         (pre ++ List.filter (fun a => negb (p a)) anns)).
Proof.
  intros Hp. induction anns as [|x anns IH]; intros pre Hpre; [reflexivity|].
  cbn [List.filter]. destruct (p x) eqn:Hx; cbn [negb].
  - cbn [for_each]. unfold bind at 1.
    rewrite (remove_ok _ x (pre ++ anns)).
    + now apply IH.
    + cbn [_annotations]. apply list_remove_split; [apply __eq___refl|].
      eapply Forall_impl; [exact Hpre|]. cbn. intros z Hz.
      destruct (__eq__ z x) eqn:E; [|reflexivity].
      now rewrite (Hp x z E Hx) in Hz.
  - replace (pre ++ x :: anns) with ((pre ++ [x]) ++ anns)
      by now rewrite <- app_assoc.
    rewrite IH; [now rewrite <- app_assoc|].
    apply Forall_app. split; [assumption|]. now apply Forall_singleton.
Qed.

Lemma filter_none {A} (p : A -> bool) (l : list A) :
  List.filter p l = [] -> List.filter (fun a => negb (p a)) l = l.
Proof.
  induction l as [|x l IH]; [reflexivity|]. cbn.
  destruct (p x); [discriminate|]. cbn. intros H. now rewrite IH.
Qed.

Lemma sublist_List_filter {A} (p : A -> bool) (l : list A) :
  sublist (List.filter p l) l.
Proof.
  induction l as [|x l IH]; [constructor|]. cbn.
  destruct (p x); now constructor.
Qed.

Lemma annotate_override s e v m self :
  s <= e ->
  annotate s e v m (Policy OnOverlap.OVERRIDE) self
  = (Ok tt,
     with_annotations self
       (List.filter (fun a => negb (overlaps s e a)) (_annotations self)
        ++ [new_annotation self s e v m])).
Proof.
  intros Hse. destruct (_get_overlaps self s e) as [|x l] eqn:E.
  - unfold annotate. rewrite annotate_with_no_overlap by assumption.
    unfold _get_overlaps in E. now rewrite (filter_none _ _ E).
  - unfold annotate. rewrite annotate_with_policy by (try rewrite E; easy).
    cbn zeta.
    change (String.eqb OnOverlap.OVERRIDE OnOverlap.SAVE_OLD) with false.
    change (String.eqb OnOverlap.OVERRIDE OnOverlap.OVERRIDE) with true.
    cbv iota. unfold bind at 1. unfold _get_overlaps.
    destruct self as [tokens anns]. cbn [_annotations].
    pose proof (remove_overlapping (overlaps s e) tokens
                  (fun x y => __eq___overlaps s e x y) anns []
                  (Forall_nil_2 _)) as H.
    cbn [app] in H. rewrite H. reflexivity.
Qed.

(** X3.  [annotate] under [OnOverlap.OVERRIDE] never raises on a span that
    goes forward: it drops exactly the annotations that overlap the span,
    keeps the others in their order and appends the new annotation; no
    annotation that stays overlaps the new span. *)
Theorem annotate_override_replaces_overlapping
    (self : AnnotatedTokens) (s e : Z) (v : correct_value)
    (m : option dict) :
  s <= e ->
  let kept :=
    List.filter (fun a => negb (overlaps s e a)) (_annotations self) in
  annotate s e v m (Policy OnOverlap.OVERRIDE) self
  = (Ok tt,
     mkAnnotatedTokens (_tokens self)
       (kept ++ [new_annotation self s e v m]))
  /\ sublist kept (_annotations self)
  /\ (forall a, In a kept <->
                In a (_annotations self) /\ overlaps s e a = false)
  /\ _get_overlaps (mkAnnotatedTokens (_tokens self) kept) s e = [].
Proof.
  intros Hse kept. split_and!.
  - now apply annotate_override.
  - apply sublist_List_filter.
  - intros a. unfold kept. rewrite filter_In, negb_true_iff. tauto.
  - unfold _get_overlaps, kept. cbn [_annotations].
    induction (_annotations self) as [|x l IH]; [reflexivity|].
    cbn [List.filter]. destruct (overlaps s e x) eqn:E; cbn [negb]; [exact IH|].
    cbn [List.filter]. now rewrite E.
Qed.

Lemma annotate_override_replaces_overlapping_witness :
  let self :=
    mkAnnotatedTokens ["the"; "red"; "fox"]%string
      [mkTokenAnnotation 0 1 "the" ["a"]%string [];
       mkTokenAnnotation 1 2 "red" ["brown"]%string []] in
  annotate 1 3 (Single "cat") None (Policy OnOverlap.OVERRIDE) self
  = (Ok tt,
     mkAnnotatedTokens ["the"; "red"; "fox"]%string
       [mkTokenAnnotation 0 1 "the" ["a"]%string [];
        mkTokenAnnotation 1 3 "red fox" ["cat"]%string []]).
Proof.
  intros self.
  exact (proj1 (annotate_override_replaces_overlapping
                  self 1 3 (Single "cat") None ltac:(lia))).
Defined.

(** ** Annotations stay apart *)

Lemma overlaps_sym x y :
  overlaps (start x) (end_ x) y = overlaps (start y) (end_ y) x.
Proof.
  apply eq_true_iff_eq. rewrite !overlaps_spec. unfold overlap_spec. lia.
Qed.

Lemma filter_nil_Forall {A} (p : A -> bool) (l : list A) :
  List.filter p l = [] -> Forall (fun y => p y = false) l.
Proof.
  induction l as [|x l IH]; [constructor|]. cbn.
  destruct (p x) eqn:E; [discriminate|]. intros H. constructor; auto.
Qed.

Lemma Forall_of_sublist {A} (P : A -> Prop) (l' l : list A) :
  sublist l' l -> Forall P l -> Forall P l'.
Proof.
  induction 1 as [|x l1 l2 _ IH|x l1 l2 _ IH]; intros H; [constructor| |].
  - apply Forall_cons in H as [Hx H]. constructor; auto.
  - apply Forall_cons in H as [_ H]. auto.
Qed.

Lemma ForallOrdPairs_of_sublist {A} (R : A -> A -> Prop) (l' l : list A) :
  sublist l' l -> ForallOrdPairs R l -> ForallOrdPairs R l'.
Proof.
  induction 1 as [|x l1 l2 Hs IH|x l1 l2 _ IH]; intros H; [constructor| |].
  - apply ForallOrdPairs_cons_iff in H as [Hx H].
    apply ForallOrdPairs_cons_iff. split; [|auto].
    now apply (Forall_of_sublist _ l1 l2).
  - apply ForallOrdPairs_cons_iff in H as [_ H]. auto.
Qed.

Lemma ForallOrdPairs_snoc {A} (R : A -> A -> Prop) (l : list A) x :
  ForallOrdPairs R l -> Forall (fun y => R y x) l ->
  ForallOrdPairs R (l ++ [x]).
Proof.
  induction l as [|y l IH]; intros Hl Hx.
  - cbn. apply ForallOrdPairs_cons_iff. split; constructor.
  - apply ForallOrdPairs_cons_iff in Hl as [Hy Hl].
    apply Forall_cons in Hx as [Hyx Hx].
    cbn [app]. apply ForallOrdPairs_cons_iff. split; [|auto].
    apply Forall_app. split; [assumption|]. now apply Forall_singleton.
Qed.

Lemma list_remove_sublist {A} (eqb : A -> A -> bool) x (l r : list A) :
  Py.list_remove eqb x l = Some r -> sublist r l.
Proof.
  intros H. apply list_remove_Some_inv in H as (pre & y & post & -> & -> & _).
  apply sublist_app; [reflexivity|]. now constructor.
Qed.

(** Part of a list that is apart, with an annotation that overlaps none of
    that part, is apart. *)
Lemma pairwise_apart_add anns' anns new :
  sublist anns' anns -> pairwise_apart anns ->
  List.filter (overlaps (start new) (end_ new)) anns' = [] ->
  pairwise_apart (anns' ++ [new]).
Proof.
  intros Hsub Hp Hf. apply ForallOrdPairs_snoc.
  - now apply (ForallOrdPairs_of_sublist _ anns' anns).
  - apply filter_nil_Forall in Hf. eapply Forall_impl; [exact Hf|]. cbn.
    intros y Hy. unfold apart. now rewrite overlaps_sym.
Qed.

Lemma spans_forward_add anns' anns new :
  sublist anns' anns -> spans_forward anns -> start new <= end_ new ->
  spans_forward (anns' ++ [new]).
Proof.
  intros Hsub Hp Hn. apply Forall_app. split.
  - now apply (Forall_of_sublist _ anns' anns).
  - now apply Forall_singleton.
Qed.

Lemma filter_negb_nil {A} (p : A -> bool) (l : list A) :
  List.filter p (List.filter (fun a => negb (p a)) l) = [].
Proof.
  induction l as [|x l IH]; [reflexivity|]. cbn [List.filter].
  destruct (p x) eqn:E; cbn [negb]; [exact IH|].
  cbn [List.filter]. now rewrite E.
Qed.

(** What a call of [annotate] with a named policy leaves: the buffer as it
    was, or part of its annotations and one more on the span of the call,
    which overlaps none of them. *)
Lemma annotate_policy_outcome self s e v m name out self' :
  annotate s e v m (Policy name) self = (out, self') ->
  self' = self
  \/ exists kept new,
       self' = mkAnnotatedTokens (_tokens self) (kept ++ [new])
       /\ sublist kept (_annotations self)
       /\ start new = s /\ end_ new = e /\ s <= e
       /\ List.filter (overlaps s e) kept = [].
Proof.
  intros H.
  destruct (Z.ltb_spec e s) as [Hes|Hse].
  { unfold annotate in H. rewrite annotate_with_bad_span in H by assumption.
    left. congruence. }
  destruct (_get_overlaps self s e) as [|x l] eqn:E.
  { unfold annotate in H. rewrite annotate_with_no_overlap in H by assumption.
    right. exists (_annotations self), (new_annotation self s e v m).
    split_and!; try easy. now injection H as _ <-. }
  destruct (String.eqb_spec name OnOverlap.OVERRIDE) as [->|Hno].
  { rewrite annotate_override in H by assumption.
    right.
    exists (List.filter (fun a => negb (overlaps s e a)) (_annotations self)),
           (new_annotation self s e v m).
    split_and!; try easy.
    - now injection H as _ <-.
    - apply sublist_List_filter.
    - apply filter_negb_nil. }
  destruct (String.eqb_spec name OnOverlap.MERGE_STRICT) as [->|Hnm].
  { destruct l as [|x' l].
    - destruct (Z.eq_dec (start x) s) as [Hs|Hs];
        [destruct (Z.eq_dec (end_ x) e) as [He|He]|].
      + destruct (annotate_merge_strict_one self s e v m x Hse E Hs He)
          as (anns & Hr & Hf & Ha).
        rewrite Ha in H. right.
        exists anns,
          (mkTokenAnnotation s e
             (Py.join " " (Py.slice (_tokens self) s e))
             (_unique_list
                (suggestions x ++ suggestions (new_annotation self s e v m)))
             (dict_merge (meta x) (default [] m))).
        split_and!; [now injection H as _ <- | | | | |]; try easy.
        now apply list_remove_sublist in Hr.
      + left. unfold annotate in H.
        rewrite annotate_with_policy in H by (try rewrite E; easy).
        rewrite E in H. cbn in H.
        rewrite (proj2 (Z.eqb_neq (end_ x) e) He) in H.
        rewrite orb_true_r in H. cbn in H. unfold raise in H. congruence.
      + left. unfold annotate in H.
        rewrite annotate_with_policy in H by (try rewrite E; easy).
        rewrite E in H. cbn in H.
        rewrite (proj2 (Z.eqb_neq (start x) s) Hs) in H.
        cbn in H. unfold raise in H. congruence.
    - left. unfold annotate in H.
      rewrite annotate_with_policy in H by (try rewrite E; easy).
      rewrite E in H. cbn in H. unfold raise in H. congruence. }
  left. unfold annotate in H.
  rewrite annotate_with_policy in H by (try rewrite E; easy).
  cbn zeta in H.
  rewrite (proj2 (String.eqb_neq name OnOverlap.OVERRIDE) Hno) in H.
  rewrite (proj2 (String.eqb_neq name OnOverlap.MERGE_STRICT) Hnm) in H.
  destruct (String.eqb name OnOverlap.SAVE_OLD); [cbn in H; unfold raise, ret in H; congruence|].
  destruct (String.eqb name OnOverlap.ERROR); [cbn in H; unfold raise, ret in H; congruence|].
  destruct (String.eqb name OnOverlap.MERGE_EXPAND); [|cbn in H; unfold raise in H; congruence].
  rewrite E in H. destruct l as [|x' l]; cbn in H; unfold raise in H; congruence.
Qed.

(** X4.  [annotate] with a named policy keeps the annotations apart: when no
    two annotations of the buffer overlap before the call, no two overlap
    after it, whatever the span, the policy name (known or not) and the
    outcome are; the tokens are never changed, and spans that go forward
    still do. *)
Theorem annotate_keeps_annotations_apart
    (self self' : AnnotatedTokens) (s e : Z) (v : correct_value)
    (m : option dict) (name : string) (out : outcome unit) :
  pairwise_apart (_annotations self) ->
  annotate s e v m (Policy name) self = (out, self') ->
  pairwise_apart (_annotations self')
  /\ _tokens self' = _tokens self
  /\ (spans_forward (_annotations self) ->
      spans_forward (_annotations self')).
Proof.
  intros Hp H.
  destruct (annotate_policy_outcome _ _ _ _ _ _ _ _ H)
    as [->|(kept & new & -> & Hsub & Hs & He & Hse & Hf)]; [easy|].
  cbn [_annotations _tokens]. split_and!; [|reflexivity|].
  - apply (pairwise_apart_add kept (_annotations self)); try assumption.
    now rewrite Hs, He.
  - intros Hfw. apply (spans_forward_add kept (_annotations self)); try easy.
    lia.
Qed.

Lemma annotate_keeps_annotations_apart_witness :
  let self :=
    mkAnnotatedTokens ["the"; "red"; "fox"]%string
      [mkTokenAnnotation 0 1 "the" ["a"]%string [];
       mkTokenAnnotation 1 2 "red" ["brown"]%string []] in
  let self' :=
    mkAnnotatedTokens ["the"; "red"; "fox"]%string
      [mkTokenAnnotation 0 1 "the" ["a"]%string [];
       mkTokenAnnotation 1 2 "red" ["brown"; "white"]%string []] in
  pairwise_apart (_annotations self')
  /\ _tokens self' = _tokens self
  /\ (spans_forward (_annotations self) ->
      spans_forward (_annotations self')).
Proof.
  intros self self'.
  apply (annotate_keeps_annotations_apart self self' 1 2 (Single "white")
           None OnOverlap.MERGE_STRICT (Ok tt)).
  - repeat constructor.
  - vm_compute. reflexivity.
Defined.

(** ** Looking up what was annotated *)

Lemma find_snoc {A} (f : A -> bool) (l : list A) x :
  Forall (fun y => f y = false) l -> f x = true ->
  List.find f (l ++ [x]) = Some x.
Proof.
  induction 1 as [|y l Hy _ IH]; intros Hx; cbn.
  - now rewrite Hx.
  - rewrite Hy. auto.
Qed.

Lemma no_overlap_no_same_span s e (anns : list TokenAnnotation) :
  s <= e -> List.filter (overlaps s e) anns = [] ->
  Forall (fun y => (start y =? s) && (end_ y =? e) = false) anns.
Proof.
  intros Hse Hf. apply filter_nil_Forall in Hf.
  eapply Forall_impl; [exact Hf|]. cbn. intros y Hy.
  destruct (Z.eqb_spec (start y) s) as [Hs|]; [|reflexivity].
  destruct (Z.eqb_spec (end_ y) e) as [He|]; [|reflexivity].
  now rewrite (overlaps_same_span s e y Hse Hs He) in Hy.
Qed.

(** X5.  What [annotate] adds can be looked up: when a call under
    [OnOverlap.ERROR] (the default) or [OnOverlap.OVERRIDE] returns,
    [get_annotation_at] on the span of the call gives the annotation the
    call built, which is the last of the list, and no other annotation of
    the buffer has that span. *)
Theorem annotate_then_get_annotation_at
    (self self' : AnnotatedTokens) (s e : Z) (v : correct_value)
    (m : option dict) (name : string) :
  name = OnOverlap.ERROR \/ name = OnOverlap.OVERRIDE ->
  annotate s e v m (Policy name) self = (Ok tt, self') ->
  get_annotation_at self' s e = Some (new_annotation self s e v m)
  /\ exists kept,
       _annotations self' = kept ++ [new_annotation self s e v m]
       /\ sublist kept (_annotations self)
       /\ Forall (fun a => start a <> s \/ end_ a <> e) kept.
Proof.
  intros Hname H.
  assert (Hse : s <= e).
  { destruct (Z.ltb_spec e s) as [Hes|]; [|assumption].
    unfold annotate in H. rewrite annotate_with_bad_span in H by assumption.
    discriminate. }
  assert (exists kept,
             self' = mkAnnotatedTokens (_tokens self)
                       (kept ++ [new_annotation self s e v m])
             /\ sublist kept (_annotations self)
             /\ List.filter (overlaps s e) kept = [])
    as (kept & -> & Hsub & Hf).
  { destruct Hname as [-> | ->].
    - destruct (_get_overlaps self s e) as [|x l] eqn:E.
      + unfold annotate in H.
        rewrite annotate_with_no_overlap in H by assumption.
        exists (_annotations self). split_and!; try easy.
        now injection H as <-.
      + rewrite annotate_error_overlap in H by (try rewrite E; easy).
        discriminate.
    - rewrite annotate_override in H by assumption.
      exists (List.filter (fun a => negb (overlaps s e a))
                          (_annotations self)).
      split_and!.
      + now injection H as <-.
      + apply sublist_List_filter.
      + apply filter_negb_nil. }
  pose proof (no_overlap_no_same_span s e kept Hse Hf) as Hno.
  split.
  - unfold get_annotation_at. cbn [_annotations].
    apply find_snoc; [assumption|].
    cbn [new_annotation start end_]. now rewrite !Z.eqb_refl.
  - exists kept. split_and!; try easy.
    eapply Forall_impl; [exact Hno|]. cbn. intros a Ha.
    apply andb_false_iff in Ha as [Ha|Ha]; apply Z.eqb_neq in Ha; tauto.
Qed.

Lemma annotate_then_get_annotation_at_witness :
  let self :=
    mkAnnotatedTokens ["the"; "red"; "fox"]%string
      [mkTokenAnnotation 0 1 "the" ["a"]%string []] in
  let self' :=
    mkAnnotatedTokens ["the"; "red"; "fox"]%string
      [mkTokenAnnotation 0 1 "the" ["a"]%string [];
       mkTokenAnnotation 1 2 "red" ["brown"]%string []] in
  get_annotation_at self' 1 2
  = Some (mkTokenAnnotation 1 2 "red" ["brown"]%string []).
Proof.
  intros self self'.
  apply (annotate_then_get_annotation_at self self' 1 2 (Single "brown")
           None OnOverlap.ERROR).
  - left. reflexivity.
  - vm_compute. reflexivity.
Defined.

(** ** Filtering annotations *)

Section Filter.

Variable g : TokenAnnotation -> bool.
Hypothesis g_by_value : forall x y, same_value x y -> g x = g y.

(** The body [filter_annotations] runs at every [yield]. *)
Let body : nat -> TokenAnnotation -> M unit :=
  fun _ ann => self <- get_self ;; if g ann then ret tt else remove ann.

Lemma filter_loop tokens : forall rest kept visited fuel,
  Forall (fun a => g a = true) kept ->
  (length rest < fuel)%nat ->
  iter_annotations_from fuel body
    (Z.of_nat (length kept)) (Z.of_nat (length (kept ++ rest)))
    visited (mkAnnotatedTokens tokens (kept ++ rest))
  = Exhausted (visited ++ rest)
      (mkAnnotatedTokens tokens (kept ++ List.filter g rest)).
Proof.
  induction rest as [|x rest IH]; intros kept visited fuel Hk Hfuel;
    (destruct fuel as [|fuel]; [cbn in Hfuel; lia|]);
    cbn [iter_annotations_from].
  - rewrite !app_nil_r. now rewrite Z.ltb_irrefl.
  - assert (Hlen : Z.of_nat (length kept)
                   < Z.of_nat (length (kept ++ x :: rest)))
      by (rewrite length_app; cbn [length]; lia).
    rewrite (proj2 (Z.ltb_lt _ _) Hlen). cbn [_annotations].
    rewrite index_in_range by lia.
    rewrite Nat2Z.id, list_lookup_middle by reflexivity.
    unfold body at 1. unfold bind, get_self. cbn [List.filter].
    destruct (g x) eqn:Hx.
    + unfold ret. cbn [_annotations].
      replace (Z.of_nat (length kept)
               + (Z.of_nat (length (kept ++ x :: rest))
                  - Z.of_nat (length (kept ++ x :: rest)) + 1))
        with (Z.of_nat (length (kept ++ [x])))
        by (rewrite !length_app; cbn [length]; lia).
      replace (kept ++ x :: rest) with ((kept ++ [x]) ++ rest)
        by now rewrite <- app_assoc.
      rewrite IH.
      * now rewrite <- !app_assoc.
      * apply Forall_app. split; [assumption|]. now apply Forall_singleton.
      * cbn [length] in Hfuel. lia.
    + rewrite (remove_ok _ x (kept ++ rest)).
      * cbn [_annotations].
        replace (Z.of_nat (length kept)
                 + (Z.of_nat (length (kept ++ rest))
                    - Z.of_nat (length (kept ++ x :: rest)) + 1))
          with (Z.of_nat (length kept))
          by (rewrite !length_app; cbn [length]; lia).
        rewrite IH; [|assumption|cbn [length] in Hfuel; lia].
        now rewrite <- app_assoc.
      * cbn [_annotations]. apply list_remove_split; [apply __eq___refl|].
        eapply Forall_impl; [exact Hk|]. cbn. intros z Hz.
        destruct (__eq__ z x) eqn:E; [|reflexivity].
        apply __eq___spec, g_by_value in E. congruence.
Qed.

End Filter.

(** X6.  [filter_annotations] with a function of the annotation that gives
    the same answer on annotations that are equal by value: the call ends
    without raising, visits every annotation once in the order of the list,
    keeps exactly the annotations the function accepts, in their order, and
    leaves the tokens as they are. *)
Theorem filter_annotations_keeps_accepted
    (g : TokenAnnotation -> bool) (self : AnnotatedTokens) (fuel : nat) :
  (forall x y, same_value x y -> g x = g y) ->
  (length (_annotations self) < fuel)%nat ->
  filter_annotations fuel (fun ann _ => g ann) self
  = Exhausted (_annotations self)
      (mkAnnotatedTokens (_tokens self) (List.filter g (_annotations self))).
Proof.
  intros Hg Hfuel. destruct self as [tokens anns].
  unfold filter_annotations, iter_annotations. cbn [_annotations _tokens].
  exact (filter_loop g Hg tokens anns [] [] fuel (Forall_nil_2 _) Hfuel).
Qed.

Lemma filter_annotations_keeps_accepted_witness :
  filter_annotations 3
    (fun ann _ => match suggestions ann with [] => false | _ => true end)
    (mkAnnotatedTokens ["the"; "red"; "fox"]%string
       [mkTokenAnnotation 0 1 "the" [] [];
        mkTokenAnnotation 1 2 "red" ["brown"]%string []])
  = Exhausted
      [mkTokenAnnotation 0 1 "the" [] [];
       mkTokenAnnotation 1 2 "red" ["brown"]%string []]
      (mkAnnotatedTokens ["the"; "red"; "fox"]%string
         [mkTokenAnnotation 1 2 "red" ["brown"]%string []]).
Proof.
  apply (filter_annotations_keeps_accepted
           (fun ann => match suggestions ann with [] => false | _ => true end)
           (mkAnnotatedTokens ["the"; "red"; "fox"]%string
              [mkTokenAnnotation 0 1 "the" [] [];
               mkTokenAnnotation 1 2 "red" ["brown"]%string []])
           3%nat).
  - intros x y (_ & _ & _ & Hs & _). now rewrite Hs.
  - cbn. lia.
Defined.

(** ** [span_intersect] *)

Lemma span_intersect_from_spec begin end_ : forall spans index,
  (span_intersect_from index spans begin end_ = -1
   /\ Forall (fun sp => ~ intersects begin end_ sp) spans)
  \/ exists (k : nat) sp,
       span_intersect_from index spans begin end_ = index + Z.of_nat k
       /\ spans !! k = Some sp
       /\ intersects begin end_ sp
       /\ Forall (fun sp => ~ intersects begin end_ sp) (take k spans).
Proof.
  induction spans as [|[b e] spans IH]; intros index.
  - left. split; [reflexivity | constructor].
  - cbn [span_intersect_from]. unfold strictly_inside.
    destruct (Z.eqb_spec (Z.max 0 (Z.min end_ e - Z.max begin b)) 0)
      as [H0|H0]; cbn [negb].
    2:{ right. exists 0%nat, (b, e).
        split_and!; [lia | reflexivity | | constructor].
        unfold intersects. cbn [fst snd]. lia. }
    destruct ((begin <? b) && (b <=? e) && (e <? end_)) eqn:H1.
    { right. exists 0%nat, (b, e).
      split_and!; [lia | reflexivity | | constructor].
      apply andb_true_iff in H1 as [H1 H3].
      apply andb_true_iff in H1 as [H1 H2].
      unfold intersects. cbn [fst snd]. lia. }
    destruct ((b <? begin) && (begin <=? end_) && (end_ <? e)) eqn:H2.
    { right. exists 0%nat, (b, e).
      split_and!; [lia | reflexivity | | constructor].
      apply andb_true_iff in H2 as [H2 H4].
      apply andb_true_iff in H2 as [H2 H3].
      unfold intersects. cbn [fst snd]. lia. }
    assert (Hmiss : ~ intersects begin end_ (b, e)).
    { unfold intersects. cbn [fst snd]. intros [H|[H|H]].
      - lia.
      - rewrite (proj2 (Z.ltb_lt _ _)), (proj2 (Z.leb_le _ _)),
          (proj2 (Z.ltb_lt _ _)) in H1 by lia. discriminate.
      - rewrite (proj2 (Z.ltb_lt _ _)), (proj2 (Z.leb_le _ _)),
          (proj2 (Z.ltb_lt _ _)) in H2 by lia. discriminate. }
    destruct (IH (index + 1)) as [[Hr Hall]|(k & sp & Hr & Hk & Hsp & Hall)].
    + left. split; [assumption | now constructor].
    + right. exists (S k), sp.
      split_and!; [lia | assumption | assumption | now constructor].
Qed.

(** X7.  [span_intersect] returns -1 exactly when no span intersects the
    interval, and otherwise the position of the first span that does: the
    result is a valid index of the list, and no span before it
    intersects. *)
Theorem span_intersect_first_hit (spans : list (Z * Z)) (begin end_ : Z) :
  (span_intersect spans begin end_ = -1
   /\ Forall (fun sp => ~ intersects begin end_ sp) spans)
  \/ exists (k : nat) sp,
       span_intersect spans begin end_ = Z.of_nat k
       /\ spans !! k = Some sp
       /\ (k < length spans)%nat
       /\ intersects begin end_ sp
       /\ Forall (fun sp => ~ intersects begin end_ sp) (take k spans).
Proof.
  unfold span_intersect.
  destruct (span_intersect_from_spec begin end_ spans 0)
    as [H|(k & sp & Hr & Hk & Hsp & Hall)]; [now left|].
  right. exists k, sp. split_and!; try assumption.
  now apply lookup_lt_Some in Hk.
Qed.

(** ** Combining buffers *)

(** The call of [annotate] that [combine] makes for an annotation. *)
Lemma combine_step_apart name : forall new self out self',
  for_each new
    (fun ann =>
       annotate (start ann) (end_ ann) (Several (suggestions ann))
                (Some (meta ann)) (Policy name))
    self
  = (out, self') ->
  _tokens self' = _tokens self
  /\ (pairwise_apart (_annotations self) ->
      pairwise_apart (_annotations self'))
  /\ (spans_forward (_annotations self) ->
      spans_forward (_annotations self')).
Proof.
  induction new as [|a new IH]; intros self out self' H.
  - cbn in H. unfold ret in H. injection H as _ <-. easy.
  - cbn [for_each] in H. unfold bind at 1 in H.
    destruct (annotate _ _ _ _ _ self) as [o1 self1] eqn:E1.
    assert (H1 : _tokens self1 = _tokens self
                 /\ (pairwise_apart (_annotations self) ->
                     pairwise_apart (_annotations self1))
                 /\ (spans_forward (_annotations self) ->
                     spans_forward (_annotations self1))).
    { destruct (annotate_policy_outcome _ _ _ _ _ _ _ _ E1)
        as [->|(kept & x & -> & Hsub & Hs & He & Hse & Hf)]; [easy|].
      cbn [_annotations _tokens]. split_and!; [reflexivity| |].
      - intros Hp.
        apply (pairwise_apart_add kept (_annotations self)); try assumption.
        now rewrite Hs, He.
      - intros Hfw.
        apply (spans_forward_add kept (_annotations self)); try easy. lia. }
    destruct H1 as (Ht & Hp & Hfw).
    destruct o1 as [[]|err].
    + apply IH in H as (Ht' & Hp' & Hfw'). split_and!; [congruence|auto|auto].
    + injection H as _ <-. easy.
Qed.

(** X8.  [combine] keeps the annotations apart, with overlaps discarded or
    not and whatever the outcome is: when no two annotations of the buffer
    overlap before the call, no two overlap after it; the tokens are not
    changed, and spans that go forward still do. *)
Theorem combine_keeps_annotations_apart
    (self other self' : AnnotatedTokens) (discard_overlap : bool)
    (out : outcome unit) :
  pairwise_apart (_annotations self) ->
  combine other discard_overlap self = (out, self') ->
  pairwise_apart (_annotations self')
  /\ _tokens self' = _tokens self
  /\ (spans_forward (_annotations self) ->
      spans_forward (_annotations self')).
Proof.
  intros Hp H. unfold combine, bind at 1, get_self at 1 in H.
  destruct (negb (String.eqb (get_original_text self)
                             (get_original_text other))).
  - unfold raise in H. injection H as _ <-. easy.
  - apply combine_step_apart in H as (Ht & Hp' & Hfw). auto.
Qed.

Lemma combine_keeps_annotations_apart_witness :
  let self :=
    mkAnnotatedTokens ["the"; "red"; "fox"]%string
      [mkTokenAnnotation 1 2 "red" ["brown"]%string []] in
  let other :=
    mkAnnotatedTokens ["the"; "red"; "fox"]%string
      [mkTokenAnnotation 0 2 "the red" ["a"]%string [];
       mkTokenAnnotation 2 3 "fox" ["cat"]%string []] in
  let self' :=
    mkAnnotatedTokens ["the"; "red"; "fox"]%string
      [mkTokenAnnotation 1 2 "red" ["brown"]%string [];
       mkTokenAnnotation 2 3 "fox" ["cat"]%string []] in
  pairwise_apart (_annotations self')
  /\ _tokens self' = _tokens self
  /\ (spans_forward (_annotations self) ->
      spans_forward (_annotations self')).
Proof.
  intros self other self'.
  apply (combine_keeps_annotations_apart self other self' true (Ok tt)).
  - repeat constructor.
  - vm_compute. reflexivity.
Defined.

(** After a pass of [combine] that discards overlaps, every annotation it
    was given overlaps an annotation of the buffer. *)
Lemma combine_pass_covers : forall new self self',
  for_each new
    (fun ann =>
       annotate (start ann) (end_ ann) (Several (suggestions ann))
                (Some (meta ann)) (Policy "save_old"))
    self
  = (Ok tt, self') ->
  _tokens self' = _tokens self
  /\ (exists extra, _annotations self' = _annotations self ++ extra)
  /\ Forall (fun a =>
               start a <= end_ a
               /\ exists y, In y (_annotations self')
                            /\ overlaps (start a) (end_ a) y = true)
            new.
Proof.
  induction new as [|a new IH]; intros self self' H.
  - cbn in H. unfold ret in H. injection H as <-.
    split_and!; [reflexivity | exists []; now rewrite app_nil_r | constructor].
  - cbn [for_each] in H. unfold bind at 1 in H.
    destruct (annotate _ _ _ _ _ self) as [o1 self1] eqn:E1.
    destruct o1 as [[]|err]; [|discriminate].
    apply IH in H as (Ht & [extra He] & Hall).
    assert (Hse : start a <= end_ a).
    { destruct (Z.ltb_spec (end_ a) (start a)) as [Hes|]; [|assumption].
      unfold annotate in E1.
      rewrite annotate_with_bad_span in E1 by assumption. discriminate. }
    destruct (_get_overlaps self (start a) (end_ a)) as [|x l] eqn:E.
    + unfold annotate in E1.
      rewrite annotate_with_no_overlap in E1 by assumption.
      injection E1 as <-. cbn [_tokens _annotations with_annotations] in *.
      split_and!; [assumption| |].
      * rewrite He, <- app_assoc. eauto.
      * constructor; [|assumption]. split; [assumption|].
        eexists. split.
        -- rewrite He. apply in_or_app. left. apply in_or_app. right.
           left. reflexivity.
        -- now apply overlaps_same_span.
    + unfold annotate in E1.
      rewrite annotate_with_policy in E1 by (try rewrite E; easy).
      cbn in E1. unfold ret in E1. injection E1 as <-.
      split_and!; [assumption | eauto |].
      constructor; [|assumption]. split; [assumption|].
      exists x. split.
      * rewrite He. apply in_or_app. left.
        assert (Hx : In x (_get_overlaps self (start a) (end_ a)))
          by (rewrite E; now left).
        unfold _get_overlaps in Hx. now apply filter_In in Hx as [Hx _].
      * assert (Hx : In x (_get_overlaps self (start a) (end_ a)))
          by (rewrite E; now left).
        unfold _get_overlaps in Hx. now apply filter_In in Hx as [_ Hx].
Qed.

Lemma combine_pass_covered : forall new self,
  Forall (fun a =>
            start a <= end_ a
            /\ exists y, In y (_annotations self)
                         /\ overlaps (start a) (end_ a) y = true)
         new ->
  for_each new
    (fun ann =>
       annotate (start ann) (end_ ann) (Several (suggestions ann))
                (Some (meta ann)) (Policy "save_old"))
    self
  = (Ok tt, self).
Proof.
  induction 1 as [|a new [Hse (y & Hy & Hov)] _ IH]; [reflexivity|].
  cbn [for_each]. unfold bind at 1. unfold annotate at 1.
  rewrite annotate_with_policy; [exact IH | assumption |].
  intros E. unfold _get_overlaps in E.
  assert (Hin : In y (List.filter (overlaps (start a) (end_ a))
                                  (_annotations self)))
    by now apply filter_In.
  now rewrite E in Hin.
Qed.

(** X9.  [combine] with overlaps discarded is idempotent: when
    [self.combine(other)] returns, combining with [other] once more returns
    and leaves the buffer as the first call left it. *)
Theorem combine_again_changes_nothing
    (self other self' : AnnotatedTokens) :
  combine other true self = (Ok tt, self') ->
  combine other true self' = (Ok tt, self').
Proof.
  intros H. unfold combine, bind at 1, get_self at 1 in H.
  destruct (String.eqb_spec (get_original_text self)
                            (get_original_text other)) as [Heq|];
    [|discriminate].
  cbn [negb] in H.
  apply combine_pass_covers in H as (Ht & _ & Hall).
  unfold combine, bind at 1, get_self at 1.
  unfold get_original_text, get_original_tokens in *.
  rewrite Ht, Heq, String.eqb_refl. cbn [negb].
  now apply combine_pass_covered.
Qed.

Lemma combine_again_changes_nothing_witness :
  let other :=
    mkAnnotatedTokens ["the"; "red"; "fox"]%string
      [mkTokenAnnotation 0 2 "the red" ["a"]%string [];
       mkTokenAnnotation 2 3 "fox" ["cat"]%string []] in
  let self' :=
    mkAnnotatedTokens ["the"; "red"; "fox"]%string
      [mkTokenAnnotation 1 2 "red" ["brown"]%string [];
       mkTokenAnnotation 2 3 "fox" ["cat"]%string []] in
  combine other true self' = (Ok tt, self').
Proof.
  intros other self'.
  apply (combine_again_changes_nothing
           (mkAnnotatedTokens ["the"; "red"; "fox"]%string
              [mkTokenAnnotation 1 2 "red" ["brown"]%string []])
           other self').
  vm_compute. reflexivity.
Defined.

(** ** The tokens after [apply_correction] *)

(** [get_edited_tokens] with one staged edit. *)
Lemma single_edit (t : list string) (s e : Z) (repl : string) :
  MutableTokens.get_edited_tokens false
    (MutableTokens.replace s e repl (MutableTokens.__init__ t))
  = Py.slice t 0 s
    ++ (if Py.contains NO_SUGGESTIONS repl then Py.slice t s e
        else if Py.truthy repl then Py.split_char " " repl else [])
    ++ Py.slice_from t e.
Proof.
  unfold MutableTokens.get_edited_tokens, MutableTokens.replace,
    MutableTokens.__init__.
  cbn [MutableTokens._tokens MutableTokens._edits app Py.sorted foldr
       Py.insert_sorted fold_left MutableTokens.edit_step negb andb].
  change "NO_SUGGESTIONS"%string with NO_SUGGESTIONS.
  destruct (Py.contains NO_SUGGESTIONS repl);
    [|destruct (Py.truthy repl)]; now rewrite <- ?app_assoc, ?app_nil_r.
Qed.

Lemma token_count_join_plain (l : list string) :
  Forall plain_token l ->
  token_count (Py.join " " l) = Z.of_nat (length l).
Proof.
  intros Hl. unfold token_count. destruct l as [|x l]; [reflexivity|].
  rewrite join_plain_truthy by easy. now rewrite split_join_plain.
Qed.

(** X10.  [apply_correction] on an annotation of the buffer that has a
    replacement returns, and the tokens become the tokens before the span,
    the replacement split on spaces, and the tokens after the span; a
    replacement that holds ["NO_SUGGESTIONS"] leaves the covered tokens in
    place.  When the span lies inside the buffer, the source text of the
    annotation is the covered text and the covered tokens are plain, the
    shift applied to the annotations that follow is the change of the number
    of tokens. *)
Theorem apply_correction_replaces_tokens
    (self : AnnotatedTokens) (ann : TokenAnnotation) (level : Z)
    (repl : string) :
  In ann (_annotations self) ->
  replacement ann level = Some repl ->
  let s := start ann in
  let e := end_ ann in
  let tokens := _tokens self in
  exists self',
    apply_correction ann level self = (Ok tt, self')
    /\ _tokens self'
       = Py.slice tokens 0 s
         ++ (if Py.contains NO_SUGGESTIONS repl then Py.slice tokens s e
             else if Py.truthy repl then Py.split_char " " repl else [])
         ++ Py.slice_from tokens e
    /\ (0 <= s -> s <= e -> e <= Z.of_nat (length tokens) ->
        Py.contains NO_SUGGESTIONS repl = false ->
        source_text ann = Py.join " " (Py.slice tokens s e) ->
        Forall plain_token (Py.slice tokens s e) ->
        Z.of_nat (length (_tokens self'))
        = Z.of_nat (length tokens)
          + (token_count repl - token_count (source_text ann))).
Proof.
  intros Hin Hrepl s e tokens.
  destruct (list_remove_found __eq__ ann (_annotations self) ann Hin
              (__eq___refl ann)) as [anns Hr].
  eexists. split; [exact (apply_correction_ok self ann level anns repl Hr Hrepl)|].
  cbn [_tokens]. fold s e tokens. rewrite single_edit. split; [reflexivity|].
  intros Hs Hse He Hns Hsrc Hplain. rewrite Hns, Hsrc.
  rewrite token_count_join_plain by assumption.
  assert (H0 : Py.slice tokens 0 s = take (Z.to_nat s) tokens).
  { rewrite <- (Z2Nat.id s) at 1 by assumption.
    change 0 with (Z.of_nat 0). rewrite slice_nat by lia.
    now rewrite Nat.sub_0_r. }
  assert (H1 : Py.slice tokens s e
               = take (Z.to_nat e - Z.to_nat s) (drop (Z.to_nat s) tokens)).
  { rewrite <- (Z2Nat.id s) at 1 by assumption.
    rewrite <- (Z2Nat.id e) at 1 by lia. now rewrite slice_nat by lia. }
  assert (H2 : Py.slice_from tokens e = drop (Z.to_nat e) tokens).
  { rewrite <- (Z2Nat.id e) at 1 by lia. now rewrite slice_from_nat by lia. }
  rewrite H0, H1, H2, !length_app, length_take, length_drop, length_take,
    length_drop.
  unfold token_count. destruct (Py.truthy repl); cbn [length]; lia.
Qed.

Lemma apply_correction_replaces_tokens_witness :
  let self :=
    mkAnnotatedTokens ["one"; "too"]%string
      [mkTokenAnnotation 0 1 "one" ["ONE and a half"]%string [];
       mkTokenAnnotation 1 2 "too" ["two"]%string []] in
  exists self',
    apply_correction (mkTokenAnnotation 0 1 "one" ["ONE and a half"]%string [])
                     0 self
    = (Ok tt, self')
    /\ _tokens self' = ["ONE"; "and"; "a"; "half"; "too"]%string
    /\ Z.of_nat (length (_tokens self')) = 2 + (4 - 1).
Proof.
  intros self.
  destruct (apply_correction_replaces_tokens self
              (mkTokenAnnotation 0 1 "one" ["ONE and a half"]%string [])
              0 "ONE and a half")
    as (self' & H & Ht & Hlen).
  - left. reflexivity.
  - reflexivity.
  - exists self'. split_and!; [exact H | exact Ht |].
    apply Hlen.
    + vm_compute. discriminate.
    + vm_compute. discriminate.
    + vm_compute. discriminate.
    + reflexivity.
    + reflexivity.
    + vm_compute. repeat constructor; discriminate.
Defined.

(** ** Texts as [align] takes them *)

Lemma split_ws_go_plain (s : string) :
  has_space (Py.split_ws_go s).1 = false
  /\ Forall plain_token (Py.split_ws_go s).2.
Proof.
  induction s as [|x s [IHw IHws]]; [split; [reflexivity | constructor]|].
  cbn [Py.split_ws_go]. destruct (Py.split_ws_go s) as [w ws].
  cbn [fst snd] in *. destruct (Py.isspace x) eqn:Hx; cbn [fst snd].
  - split; [reflexivity|]. destruct w as [|c w]; [assumption|].
    constructor; [|assumption]. split; [discriminate | assumption].
  - split; [|assumption]. cbn [has_space]. rewrite IHw, orb_false_r.
    destruct (Ascii.eqb_spec x " ") as [->|]; [discriminate | reflexivity].
Qed.

(** [str.split()] makes plain tokens. *)
Lemma split_plain (s : string) : Forall plain_token (Py.split s).
Proof.
  unfold Py.split. pose proof (split_ws_go_plain s) as [Hw Hws].
  destruct (Py.split_ws_go s) as [w ws]. cbn [fst snd] in *.
  destruct w as [|c w]; [assumption|].
  constructor; [|assumption]. split; [discriminate | assumption].
Qed.

(** X11.  Round trip of [align] on texts: for a source text and a target
    text whose tokens do not spell ["NO_SUGGESTIONS"], the corrected text of
    the buffer that [align] builds is the target text with every run of
    whitespace turned into one space, and the original text is the source
    text treated the same way. *)
Theorem align_texts_corrected_text (source target : string) :
  Py.contains NO_SUGGESTIONS (Py.join " " (Py.split target)) = false ->
  exists buffer,
    align (Str source) (Str target) = Ok buffer
    /\ get_original_text buffer = Py.join " " (Py.split source)
    /\ get_corrected_text 0 buffer = Py.join " " (Py.split target).
Proof.
  intros Hclean. eexists. split; [apply align_ok|].
  split; [reflexivity|]. unfold get_corrected_text. f_equal.
  change (_gen_diffs (Lst (_get_tokens (Str source))) (Str target))
    with (_gen_diffs (Lst (Py.split source)) (Lst (Py.split target))).
  apply get_corrected_tokens_align; [apply split_plain | exact Hclean].
Qed.

Lemma align_texts_corrected_text_witness :
  exists buffer,
    align (Str "Hello   world") (Str " Hey  world ") = Ok buffer
    /\ get_original_text buffer = "Hello world"%string
    /\ get_corrected_text 0 buffer = "Hey world"%string.
Proof.
  apply (align_texts_corrected_text "Hello   world" " Hey  world ").
  vm_compute. reflexivity.
Defined.

(** ** Applying every correction of [align], one after the other *)

Section ApplyAll.

Variables a b : list string.
Hypothesis a_plain : Forall plain_token a.
Hypothesis b_plain : Forall plain_token b.
Hypothesis b_clean : Py.contains NO_SUGGESTIONS (Py.join " " b) = false.

Lemma annotation_of_gap (g : nat * nat * nat * nat) :
  annotation_of_diff a (diff_of_gap b g) = moved_annotation a b 0 g.
Proof.
  unfold annotation_of_diff, diff_of_gap, moved_annotation. cbn [fst snd].
  now rewrite !Z.add_0_r.
Qed.

(** Past a block, the tokens of [b] so far and the rest of [a] are the
    same list as before the block. *)
Lemma past_block (ai bj size : nat) :
  is_match a b (ai, bj, size) ->
  (ai + size <= length a)%nat -> (bj + size <= length b)%nat ->
  take bj b ++ drop ai a = take (bj + size) b ++ drop (ai + size) a.
Proof.
  intros Hm Ha Hb.
  pose proof (match_stretch a b (ai, bj, size) Hm Ha Hb) as Heq.
  cbn [fst snd] in Heq.
  rewrite <- (take_take_drop b bj size), <- Heq, <- app_assoc. f_equal.
  rewrite <- (take_drop size (drop ai a)) at 1. f_equal.
  now rewrite drop_drop.
Qed.

(** The replacement of a stretch, split into tokens. *)
Lemma gap_replacement (j bj : nat) :
  (j <= bj)%nat -> (bj <= length b)%nat ->
  let repl := Py.join " " (Py.slice b (Z.of_nat j) (Z.of_nat bj)) in
  Py.contains NO_SUGGESTIONS repl = false
  /\ (if Py.truthy repl then Py.split_char " " repl else [])
     = take (bj - j) (drop j b)
  /\ token_count repl = Z.of_nat (bj - j).
Proof.
  intros Hj Hb repl. unfold repl. rewrite slice_nat by lia.
  assert (Hp : Forall plain_token (take (bj - j) (drop j b)))
    by apply Forall_take, Forall_drop, b_plain.
  split_and!.
  - exact (contains_join_stretch NO_SUGGESTIONS b j (bj - j) eq_refl b_clean).
  - destruct (take (bj - j) (drop j b)) as [|x l] eqn:E; [reflexivity|].
    rewrite join_plain_truthy by easy. now apply split_join_plain.
  - rewrite token_count_join_plain by assumption.
    rewrite length_take, length_drop. f_equal. lia.
Qed.

Lemma gap_source (i ai : nat) :
  (i <= ai)%nat -> (ai <= length a)%nat ->
  token_count (Py.join " " (Py.slice a (Z.of_nat i) (Z.of_nat ai)))
  = Z.of_nat (ai - i).
Proof.
  intros Hi Ha. rewrite slice_nat by lia.
  rewrite token_count_join_plain
    by apply Forall_take, Forall_drop, a_plain.
  rewrite length_take, length_drop. f_equal. lia.
Qed.

(** One correction: the stretch of [a] in front of the buffer gives way to
    its stretch of [b], and the annotations that follow move along. *)
Lemma apply_gap (i ai j bj : nat) (rest : list (nat * nat * nat * nat)) :
  (i <= ai)%nat -> (ai <= length a)%nat ->
  (j <= bj)%nat -> (bj <= length b)%nat ->
  Forall (fun g => (ai <= g.1.1.1)%nat) rest ->
  let shift := Z.of_nat j - Z.of_nat i in
  let ann := moved_annotation a b shift (i, ai, j, bj) in
  apply_correction ann 0
    (mkAnnotatedTokens (take j b ++ drop i a)
       (ann :: map (moved_annotation a b shift) rest))
  = (Ok tt,
     mkAnnotatedTokens (take bj b ++ drop ai a)
       (map (moved_annotation a b (Z.of_nat bj - Z.of_nat ai)) rest)).
Proof.
  intros Hi Ha Hj Hb Hrest shift ann.
  destruct (gap_replacement j bj Hj Hb) as (Hns & Hsplit & Hcount).
  rewrite (apply_correction_ok _ ann 0
             (map (moved_annotation a b shift) rest)
             (Py.join " " (Py.slice b (Z.of_nat j) (Z.of_nat bj)))).
  - f_equal. f_equal.
    + rewrite single_edit. cbn [_tokens]. rewrite Hns, Hsplit.
      unfold ann, moved_annotation, shift. cbn [start end_ fst snd].
      replace (Z.of_nat i + (Z.of_nat j - Z.of_nat i)) with (Z.of_nat j)
        by lia.
      replace (Z.of_nat ai + (Z.of_nat j - Z.of_nat i))
        with (Z.of_nat (j + (ai - i))) by lia.
      assert (Hlen : length (take j b) = j) by (rewrite length_take; lia).
      change 0 with (Z.of_nat 0).
      rewrite slice_nat, slice_from_nat
        by (rewrite ?length_app, ?length_drop, ?Hlen; lia).
      rewrite Nat.sub_0_r, drop_0.
      rewrite take_app_le by lia. rewrite take_take, Nat.min_l by lia.
      rewrite drop_app_ge by lia. rewrite Hlen, drop_drop.
      replace (j + (ai - i) - j)%nat with (ai - i)%nat by lia.
      replace (i + (ai - i))%nat with ai by lia.
      rewrite app_assoc. f_equal.
      rewrite (take_take_drop b j (bj - j)).
      now replace (j + (bj - j))%nat with bj by lia.
    + change (source_text ann)
        with (Py.join " " (Py.slice a (Z.of_nat i) (Z.of_nat ai))).
      change (start ann) with (Z.of_nat i + shift).
      rewrite Hcount, gap_source by assumption.
      rewrite map_map. apply map_ext_in. intros g Hg.
      rewrite Forall_forall in Hrest.
      apply list_elem_of_In, Hrest in Hg.
      unfold remap, moved_annotation, _replace, shift.
      cbn [start end_ source_text suggestions meta].
      rewrite (proj2 (Z.geb_le _ _)) by lia. f_equal; lia.
  - cbn [_annotations Py.list_remove]. now rewrite __eq___refl.
  - reflexivity.
Qed.

Lemma apply_all_loop : forall blocks i j visited fuel,
  chain a b i j blocks ->
  (i <= length a)%nat -> (j <= length b)%nat ->
  (length (gaps i j blocks) < fuel)%nat ->
  let anns :=
    map (moved_annotation a b (Z.of_nat j - Z.of_nat i)) (gaps i j blocks) in
  iter_annotations_from fuel (fun _ ann => apply_correction ann 0) 0
    (Z.of_nat (length anns)) visited
    (mkAnnotatedTokens (take j b ++ drop i a) anns)
  = Exhausted
      (visited
       ++ map (fun g => moved_annotation a b
                          (Z.of_nat g.1.2 - Z.of_nat g.1.1.1) g)
              (gaps i j blocks))
      (mkAnnotatedTokens b []).
Proof.
  induction blocks as [|[[ai bj] size] blocks IH];
    intros i j visited fuel Hc Hi Hj Hfuel; cbn zeta.
  - cbn in Hc. destruct Hc as [-> ->].
    destruct fuel as [|fuel]; [cbn in Hfuel; lia|].
    cbn. rewrite app_nil_r, firstn_all, drop_all.
    now rewrite app_nil_r.
  - cbn [chain fst snd] in Hc.
    destruct Hc as (Hi' & Hj' & Hm & Ha & Hb & _ & Hc).
    pose proof (gaps_chain a b _ _ _ Hc) as [Hin _].
    revert Hfuel. cbn [gaps fst snd].
    destruct ((i <? ai)%nat || (j <? bj)%nat) eqn:Hgap; cbn [app].
    + intros Hfuel. destruct fuel as [|fuel]; [cbn in Hfuel; lia|].
      cbn [map length iter_annotations_from].
      rewrite (proj2 (Z.ltb_lt 0 _)) by lia.
      rewrite index_in_range by (cbn [_annotations length]; lia).
      cbn [_annotations].
      change ((?x :: ?l) !! Z.to_nat 0) with (Some x). cbv beta iota.
      rewrite apply_gap; try lia.
      2:{ eapply Forall_impl; [exact Hin|]. cbn. intros g Hg. lia. }
      cbn [_annotations]. rewrite length_map.
      replace (0 + (Z.of_nat (length (gaps (ai + size) (bj + size) blocks))
                    - Z.of_nat (S (length (map
                         (moved_annotation a b (Z.of_nat j - Z.of_nat i))
                         (gaps (ai + size) (bj + size) blocks)))) + 1))
        with 0 by (rewrite length_map; lia).
      rewrite (past_block ai bj size Hm Ha Hb).
      replace (Z.of_nat bj - Z.of_nat ai)
        with (Z.of_nat (bj + size) - Z.of_nat (ai + size)) by lia.
      specialize (IH (ai + size)%nat (bj + size)%nat
                     (visited
                      ++ [moved_annotation a b (Z.of_nat j - Z.of_nat i)
                            (i, ai, j, bj)])
                     fuel Hc Ha Hb).
      cbn zeta in IH. rewrite length_map in IH. rewrite IH.
      * now rewrite <- app_assoc.
      * cbn [length] in Hfuel. lia.
    + intros Hfuel.
      apply orb_false_iff in Hgap as [Hi0 Hj0].
      apply Nat.ltb_ge in Hi0, Hj0.
      assert (i = ai) as -> by lia. assert (j = bj) as -> by lia.
      rewrite (past_block ai bj size Hm Ha Hb).
      replace (Z.of_nat bj - Z.of_nat ai)
        with (Z.of_nat (bj + size) - Z.of_nat (ai + size)) by lia.
      now apply IH.
Qed.

End ApplyAll.

(** X12.  Applying every correction of [align] while iterating: when the
    tokens of the source and of the target are plain and the target text
    does not hold ["NO_SUGGESTIONS"], the loop
    [for ann in buffer.iter_annotations(): buffer.apply_correction(ann)] on
    the buffer that [align] builds ends without raising, visits as many
    annotations as the buffer has, and leaves the target tokens and no
    annotation. *)
Theorem align_apply_all_gives_target (source target : str_or_list) :
  Forall plain_token (_get_tokens source) ->
  Forall plain_token (_get_tokens target) ->
  Py.contains NO_SUGGESTIONS (Py.join " " (_get_tokens target)) = false ->
  exists buffer,
    align source target = Ok buffer
    /\ forall fuel,
         (length (_annotations buffer) < fuel)%nat ->
         exists visited,
           iter_annotations fuel (fun _ ann => apply_correction ann 0) buffer
           = Exhausted visited (mkAnnotatedTokens (_get_tokens target) [])
           /\ length visited = length (_annotations buffer).
Proof.
  intros Hs Ht Hclean. eexists. split; [apply align_ok|].
  set (a := _get_tokens source). set (b := _get_tokens target).
  cbn [_annotations]. rewrite _gen_diffs_tokens. fold b.
  rewrite map_map, length_map. intros fuel Hfuel.
  pose proof (apply_all_loop a b Hs Ht Hclean _ 0%nat 0%nat [] fuel
                (get_matching_blocks_chain a b) (Nat.le_0_l _) (Nat.le_0_l _)
                Hfuel) as H.
  cbn zeta in H. cbn [take drop app] in H.
  change (Z.of_nat 0 - Z.of_nat 0) with 0 in H.
  eexists. split.
  - unfold iter_annotations. cbn [_annotations].
    rewrite (map_ext _ (moved_annotation a b 0)
               (fun g => annotation_of_gap a b g)).
    rewrite length_map. rewrite length_map in H. exact H.
  - now rewrite length_map.
Qed.

Lemma align_apply_all_gives_target_witness :
  exists buffer,
    align (Str "the red fox jumps") (Str "a red fox jumped high") = Ok buffer
    /\ forall fuel,
         (length (_annotations buffer) < fuel)%nat ->
         exists visited,
           iter_annotations fuel (fun _ ann => apply_correction ann 0) buffer
           = Exhausted visited
               (mkAnnotatedTokens
                  ["a"; "red"; "fox"; "jumped"; "high"]%string [])
           /\ length visited = length (_annotations buffer).
Proof.
  apply (align_apply_all_gives_target
           (Str "the red fox jumps") (Str "a red fox jumped high")).
  - vm_compute. repeat constructor; discriminate.
  - vm_compute. repeat constructor; discriminate.
  - vm_compute. reflexivity.
Defined.

(** ** The order of the annotations does not show *)

#[local] Instance edit_lt_trans : Transitive edit_lt.
Proof. intros x y z. unfold edit_lt. lia. Qed.

#[local] Instance edit_lt_antisym : AntiSymm (=) edit_lt.
Proof. intros x y. unfold edit_lt. lia. Qed.

Lemma insert_sorted_edits x l :
  Sorted edit_lt l ->
  Forall (fun y => edit_key y <> edit_key x) l ->
  Sorted edit_lt (Py.insert_sorted MutableTokens.edit_leb x l).
Proof.
  assert (Hleb : forall y, edit_key y <> edit_key x ->
            if MutableTokens.edit_leb x y then edit_lt x y else edit_lt y x).
  { intros [[b2 e2] v2]. destruct x as [[b1 e1] v1].
    unfold edit_key, edit_lt, MutableTokens.edit_leb. cbn [fst snd].
    intros Hk.
    assert (b1 <> b2 \/ e1 <> e2) by (destruct (Z.eq_dec b1 b2); [right|left]; congruence).
    destruct (Z.ltb_spec b1 b2); cbn [orb]; [lia|].
    destruct (Z.eqb_spec b1 b2); cbn [andb]; [|lia].
    destruct (Z.leb_spec e1 e2); lia. }
  induction 1 as [|y l Hs IH Hd]; intros Hk; cbn [Py.insert_sorted].
  - repeat constructor.
  - apply Forall_cons in Hk as [Hy Hk]. pose proof (Hleb y Hy) as Hxy.
    destruct (MutableTokens.edit_leb x y).
    + constructor; [now constructor | now constructor].
    + constructor; [auto|].
      destruct l as [|z l]; cbn [Py.insert_sorted].
      * now constructor.
      * destruct (MutableTokens.edit_leb x z); constructor;
          [assumption | now inversion Hd].
Qed.

Lemma sorted_edits l :
  NoDup (map edit_key l) ->
  Sorted edit_lt (Py.sorted MutableTokens.edit_leb l).
Proof.
  induction l as [|x l IH]; cbn [map]; intros Hnd; [constructor|].
  apply NoDup_cons in Hnd as [Hx Hnd].
  cbn [Py.sorted foldr]. apply insert_sorted_edits; [now apply IH|].
  apply Forall_forall. intros y Hy Hk. apply Hx.
  rewrite <- Hk. apply list_elem_of_fmap_2.
  now rewrite <- (sorted_perm MutableTokens.edit_leb l).
Qed.

Lemma sorted_edits_perm l l' :
  l ≡ₚ l' -> NoDup (map edit_key l) ->
  Py.sorted MutableTokens.edit_leb l = Py.sorted MutableTokens.edit_leb l'.
Proof.
  intros Hp Hnd. apply (Sorted_unique edit_lt).
  - now apply sorted_edits.
  - apply sorted_edits. now rewrite <- Hp.
  - now rewrite !sorted_perm.
Qed.

(** [get_edited_tokens] does not depend on the order in which edits with
    different spans were staged. *)
Lemma get_edited_tokens_perm highlight t e e' :
  e ≡ₚ e' -> NoDup (map edit_key e) ->
  MutableTokens.get_edited_tokens highlight (MutableTokens.mk t e)
  = MutableTokens.get_edited_tokens highlight (MutableTokens.mk t e').
Proof.
  intros Hp Hnd. unfold MutableTokens.get_edited_tokens.
  cbn [MutableTokens._tokens MutableTokens._edits].
  now rewrite (sorted_edits_perm e e' Hp Hnd).
Qed.

Lemma staged_corrections level anns : forall m,
  fold_left
    (fun tokens ann =>
       match Py.index (suggestions ann) level with
       | Some sugg => MutableTokens.replace (start ann) (end_ ann) sugg tokens
       | None => tokens
       end)
    anns m
  = MutableTokens.mk (MutableTokens._tokens m)
      (MutableTokens._edits m ++ flat_map (correction_edit level) anns).
Proof.
  induction anns as [|ann anns IH]; intros m.
  - cbn. rewrite app_nil_r. now destruct m.
  - cbn [fold_left flat_map]. rewrite IH. unfold correction_edit at 2.
    destruct (Py.index (suggestions ann) level); cbn; [|reflexivity].
    now rewrite <- app_assoc.
Qed.

Lemma correction_edit_keys level anns :
  NoDup (map span anns) ->
  NoDup (map edit_key (flat_map (correction_edit level) anns)).
Proof.
  assert (Hin : forall l k,
             k ∈ map edit_key (flat_map (correction_edit level) l) ->
             k ∈ map span l).
  { induction l as [|x l IHl]; intros k; cbn [flat_map map]; [easy|].
    rewrite map_app, elem_of_app. unfold correction_edit at 1.
    intros [Hk|Hk].
    - destruct (Py.index (suggestions x) level); cbn in Hk.
      + apply list_elem_of_singleton in Hk as ->. left.
      + now apply elem_of_nil in Hk.
    - right. auto. }
  induction anns as [|x anns IH]; cbn [map flat_map]; intros Hnd;
    [constructor|].
  apply NoDup_cons in Hnd as [Hx Hnd]. rewrite map_app.
  apply NoDup_app. split_and!; [| |auto].
  - unfold correction_edit. destruct (Py.index (suggestions x) level); cbn.
    + apply NoDup_singleton.
    + constructor.
  - intros k Hk Hk'. apply Hin in Hk'.
    unfold correction_edit in Hk.
    destruct (Py.index (suggestions x) level); cbn in Hk.
    + now apply list_elem_of_singleton in Hk as ->.
    + now apply elem_of_nil in Hk.
Qed.

(** X13.  The order in which annotations with different spans were added
    does not show: two buffers over the same tokens whose annotation lists
    are permutations of each other, with no span twice, have the same
    annotated text and the same corrected tokens and text at every level. *)
Theorem rendering_ignores_annotation_order
    (tokens : list string) (anns anns' : list TokenAnnotation) :
  anns ≡ₚ anns' ->
  NoDup (map span anns) ->
  (forall with_meta,
      get_annotated_text with_meta (mkAnnotatedTokens tokens anns)
      = get_annotated_text with_meta (mkAnnotatedTokens tokens anns'))
  /\ (forall level,
         get_corrected_tokens level (mkAnnotatedTokens tokens anns)
         = get_corrected_tokens level (mkAnnotatedTokens tokens anns'))
  /\ (forall level,
         get_corrected_text level (mkAnnotatedTokens tokens anns)
         = get_corrected_text level (mkAnnotatedTokens tokens anns')).
Proof.
  intros Hp Hnd.
  assert (Hc : forall level,
             get_corrected_tokens level (mkAnnotatedTokens tokens anns)
             = get_corrected_tokens level (mkAnnotatedTokens tokens anns')).
  { intros level. unfold get_corrected_tokens. cbn [_tokens _annotations].
    rewrite !staged_corrections. cbn [MutableTokens.__init__
      MutableTokens._tokens MutableTokens._edits app].
    apply get_edited_tokens_perm.
    - now apply Permutation_flat_map.
    - now apply correction_edit_keys. }
  split_and!; [|exact Hc|].
  - intros with_meta. unfold get_annotated_text. cbn [_tokens _annotations].
    rewrite !staged_edits. cbn [MutableTokens.__init__
      MutableTokens._tokens MutableTokens._edits app].
    f_equal. apply get_edited_tokens_perm.
    + now apply Permutation_map.
    + now rewrite map_map.
  - intros level. unfold get_corrected_text. now rewrite Hc.
Qed.

Lemma rendering_ignores_annotation_order_witness :
  get_annotated_text true
    (mkAnnotatedTokens ["the"; "red"; "fox"]%string
       [mkTokenAnnotation 2 3 "fox" ["cat"]%string [];
        mkTokenAnnotation 0 1 "the" ["a"]%string []])
  = get_annotated_text true
      (mkAnnotatedTokens ["the"; "red"; "fox"]%string
         [mkTokenAnnotation 0 1 "the" ["a"]%string [];
          mkTokenAnnotation 2 3 "fox" ["cat"]%string []]).
Proof.
  apply (rendering_ignores_annotation_order ["the"; "red"; "fox"]%string
           [mkTokenAnnotation 2 3 "fox" ["cat"]%string [];
            mkTokenAnnotation 0 1 "the" ["a"]%string []]
           [mkTokenAnnotation 0 1 "the" ["a"]%string [];
            mkTokenAnnotation 2 3 "fox" ["cat"]%string []]).
  - apply Permutation_swap.
  - vm_compute. repeat constructor; set_solver.
Defined.

(** ** [_unique_list] *)

Lemma unique_fold_nodup : forall array res,
  NoDup (res ++ array) -> fold_left unique_step array res = res ++ array.
Proof.
  induction array as [|y array IH]; intros res Hnd.
  - now rewrite app_nil_r.
  - cbn [fold_left]. unfold unique_step at 2. case_bool_decide as Hy.
    + apply NoDup_app in Hnd as (_ & Hd & _). exfalso.
      apply (Hd y Hy). now left.
    + rewrite IH; [now rewrite <- app_assoc|].
      now rewrite <- app_assoc.
Qed.

(** Reading one more element: an element met before is dropped, a new one
    goes to the end. *)
Lemma _unique_list_snoc (array : list string) (x : string) :
  _unique_list (array ++ [x])
  = if bool_decide (x ∈ array) then _unique_list array
    else _unique_list array ++ [x].
Proof.
  rewrite !_unique_list_fold, fold_left_app. cbn [fold_left].
  unfold unique_step at 1. rewrite <- _unique_list_fold.
  destruct (_unique_list_spec array) as (_ & _ & Hel).
  case_bool_decide as H1; case_bool_decide as H2; try reflexivity.
  - exfalso. apply H2, list_elem_of_In, Hel. now apply list_elem_of_In.
  - exfalso. apply H1, list_elem_of_In, Hel. now apply list_elem_of_In.
Qed.

Lemma filter_snoc {A} (p : A -> bool) (l : list A) x :
  List.filter p (l ++ [x])
  = List.filter p l ++ (if p x then [x] else []).
Proof.
  induction l as [|y l IH]; cbn [app List.filter].
  - now destruct (p x).
  - rewrite IH. now destruct (p y).
Qed.

(** The first element stays first, and its later copies are dropped. *)
Lemma _unique_list_cons (x : string) : forall array,
  _unique_list (x :: array)
  = x :: _unique_list (List.filter (fun y => negb (String.eqb y x)) array).
Proof.
  induction array as [|y array IH] using rev_ind; [reflexivity|].
  change (x :: array ++ [y]) with ((x :: array) ++ [y]).
  rewrite _unique_list_snoc, IH, filter_snoc.
  destruct (String.eqb_spec y x) as [->|Hyx]; cbn [negb].
  - rewrite app_nil_r. rewrite bool_decide_eq_true_2 by left. reflexivity.
  - rewrite _unique_list_snoc.
    assert (Hin : y ∈ x :: array
                  <-> y ∈ List.filter (fun y => negb (String.eqb y x)) array).
    { rewrite !list_elem_of_In, filter_In, negb_true_iff, String.eqb_neq.
      cbn [In]. split; [intros [?|?]; [congruence|tauto] | tauto]. }
    case_bool_decide as H1; case_bool_decide as H2; try reflexivity; tauto.
Qed.

(** X14.  [_unique_list] keeps the first occurrence of every element, in
    the order of these first occurrences, and drops the later ones: the
    first element of the argument stays first and its later copies are
    dropped, and so on for what is left; read from the other end, an element
    met before changes nothing and a new one goes to the end.  Hence the
    result has no duplicates, is a subsequence of the argument and has the
    same elements; a list without duplicates comes back as it is, and the
    function is idempotent. *)
Theorem unique_list_keeps_first_occurrences (array : list string) :
  match array with
  | [] => _unique_list array = []
  | x :: rest =>
      _unique_list array
      = x :: _unique_list
               (List.filter (fun y => negb (String.eqb y x)) rest)
  end
  /\ (forall x,
         _unique_list (array ++ [x])
         = if bool_decide (x ∈ array) then _unique_list array
           else _unique_list array ++ [x])
  /\ NoDup (_unique_list array)
  /\ sublist (_unique_list array) array
  /\ (forall x, In x (_unique_list array) <-> In x array)
  /\ (NoDup array -> _unique_list array = array)
  /\ _unique_list (_unique_list array) = _unique_list array.
Proof.
  destruct (_unique_list_spec array) as (Hnd & Hsub & Hel).
  assert (Hfix : forall l, NoDup l -> _unique_list l = l).
  { intros l Hl. rewrite _unique_list_fold.
    now rewrite (unique_fold_nodup l []). }
  split_and!; auto.
  - destruct array as [|x rest]; [reflexivity | apply _unique_list_cons].
  - intros x. apply _unique_list_snoc.
Qed.

Lemma unique_list_keeps_first_occurrences_witness :
  _unique_list ["hello"; "hola"; "hello"; "hi"; "hola"]%string
  = ["hello"; "hola"; "hi"]%string
  /\ _unique_list ["hello"; "hola"; "hi"]%string
     = ["hello"; "hola"; "hi"]%string.
Proof.
  split.
  - exact (proj1 (unique_list_keeps_first_occurrences
                    ["hello"; "hola"; "hello"; "hi"; "hola"]%string)).
  - apply (proj1 (proj2 (proj2 (proj2 (proj2 (proj2
             (unique_list_keeps_first_occurrences
                ["hello"; "hola"; "hi"]%string))))))).
    repeat constructor; set_solver.
Defined.

(** ** The checks of [annotate] *)

(** X15.  The argument checks of [annotate].  A span whose start lies after
    its end raises [ValueError] under every policy, callable or named, and
    leaves the buffer as it is.  A policy name that is none of the five
    known ones is only found out when the span overlaps an annotation: then
    the call raises [ValueError] and leaves the buffer as it is; without an
    overlap the annotation is appended as under any other policy. *)
Theorem annotate_checks_arguments
    (self : AnnotatedTokens) (s e : Z) (v : correct_value)
    (m : option dict) :
  (forall on_overlap,
      e < s ->
      annotate s e v m on_overlap self
      = (Raise (ValueError StartAfterEnd), self))
  /\ (forall name,
         s <= e ->
         name <> OnOverlap.ERROR -> name <> OnOverlap.OVERRIDE ->
         name <> OnOverlap.SAVE_OLD -> name <> OnOverlap.MERGE_STRICT ->
         name <> OnOverlap.MERGE_EXPAND ->
         (_get_overlaps self s e <> [] ->
          annotate s e v m (Policy name) self
          = (Raise (ValueError UnknownAction), self))
         /\ (_get_overlaps self s e = [] ->
             annotate s e v m (Policy name) self
             = (Ok tt,
                mkAnnotatedTokens (_tokens self)
                  (_annotations self ++ [new_annotation self s e v m])))).
Proof.
  split.
  - intros on_overlap Hes. now apply annotate_with_bad_span.
  - intros name Hse H1 H2 H3 H4 H5. split.
    + intros Hov. unfold annotate.
      rewrite annotate_with_policy by assumption. cbn zeta.
      now rewrite !(proj2 (String.eqb_neq name _)) by assumption.
    + intros Hov. unfold annotate.
      now rewrite annotate_with_no_overlap by assumption.
Qed.

Lemma annotate_checks_arguments_witness :
  let self :=
    mkAnnotatedTokens ["the"; "red"; "fox"]%string
      [mkTokenAnnotation 0 1 "the" ["a"]%string []] in
  annotate 0 2 (Single "one") None (Policy "merge") self
  = (Raise (ValueError UnknownAction), self).
Proof.
  intros self.
  apply (proj2 (annotate_checks_arguments self 0 2 (Single "one") None)
               "merge"%string);
    vm_compute; discriminate.
Defined.

(** ** Equality of annotations and of buffers *)

Lemma __eq___sym x y : __eq__ x y = __eq__ y x.
Proof.
  apply eq_true_iff_eq. rewrite !__eq___spec.
  split; apply same_value_sym.
Qed.

(** X16.  [TokenAnnotation.__eq__] is an equivalence: it compares the
    start, the end, the source text and the suggestions as they are, and the
    metadata as a collection of items whatever their insertion order is. *)
Theorem annotation_eq_is_equivalence :
  (forall x, __eq__ x x = true)
  /\ (forall x y, __eq__ x y = __eq__ y x)
  /\ (forall x y z,
         __eq__ x y = true -> __eq__ y z = true -> __eq__ x z = true)
  /\ (forall x y,
         __eq__ x y = true
         <-> start x = start y /\ end_ x = end_ y
             /\ source_text x = source_text y
             /\ suggestions x = suggestions y
             /\ meta x ≡ₚ meta y).
Proof.
  split_and!.
  - apply __eq___refl.
  - apply __eq___sym.
  - intros x y z. rewrite !__eq___spec. apply same_value_trans.
  - intros x y. apply __eq___spec.
Qed.

Lemma find_by_span (l : list TokenAnnotation) x :
  NoDup (map span l) -> In x l ->
  List.find (fun ann => (start ann =? start x) && (end_ ann =? end_ x)) l
  = Some x.
Proof.
  induction l as [|y l IH]; cbn [map List.find]; intros Hnd Hin; [easy|].
  apply NoDup_cons in Hnd as [Hy Hnd]. destruct Hin as [->|Hin].
  - now rewrite !Z.eqb_refl.
  - destruct (Z.eqb_spec (start y) (start x)) as [Hs|];
      [destruct (Z.eqb_spec (end_ y) (end_ x)) as [He|]|]; cbn [andb]; auto.
    exfalso. apply Hy. unfold span at 1. rewrite Hs, He.
    apply (list_elem_of_fmap_2 span). now apply list_elem_of_In.
Qed.

(** X17.  [AnnotatedTokens.__eq__] does not look at the order of the
    annotations: two buffers over the same tokens whose annotation lists
    are permutations of each other, with no span twice, are equal, so that
    such a buffer is equal to itself.  Buffers that are equal have the same
    tokens, as many annotations, and for every annotation of the second one
    an annotation of the first one that is equal by value. *)
Theorem buffers_equal_whatever_the_order :
  (forall tokens anns anns',
      anns ≡ₚ anns' -> NoDup (map span anns) ->
      AnnotatedTokens__eq__ (mkAnnotatedTokens tokens anns)
                            (mkAnnotatedTokens tokens anns') = true)
  /\ (forall self other,
         AnnotatedTokens__eq__ self other = true ->
         _tokens self = _tokens other
         /\ length (_annotations self) = length (_annotations other)
         /\ Forall (fun ann =>
                      exists found,
                        In found (_annotations self)
                        /\ same_value ann found)
                   (_annotations other)).
Proof.
  split.
  - intros tokens anns anns' Hp Hnd. unfold AnnotatedTokens__eq__.
    cbn [_tokens _annotations]. rewrite bool_decide_eq_true_2 by reflexivity.
    rewrite (Permutation_length Hp), Nat.eqb_refl. cbn [negb].
    apply forallb_forall. intros x Hx. unfold get_annotation_at.
    cbn [_annotations]. rewrite (find_by_span anns x Hnd).
    + apply __eq___refl.
    + apply list_elem_of_In. rewrite Hp. now apply list_elem_of_In.
  - intros self other H. unfold AnnotatedTokens__eq__ in H.
    case_bool_decide as Ht; [|discriminate]. cbn [negb] in H.
    destruct (Nat.eqb_spec (length (_annotations self))
                           (length (_annotations other))) as [Hl|];
      [|discriminate].
    cbn [negb] in H. split_and!; [assumption..|].
    apply Forall_forall. intros ann Hann.
    rewrite forallb_forall in H. apply list_elem_of_In, H in Hann.
    unfold get_annotation_at in Hann.
    destruct (List.find _ _) as [found|] eqn:E; [|discriminate].
    exists found. split; [now apply find_some in E|].
    now apply __eq___spec.
Qed.

Lemma buffers_equal_whatever_the_order_witness :
  AnnotatedTokens__eq__
    (mkAnnotatedTokens ["the"; "red"; "fox"]%string
       [mkTokenAnnotation 2 3 "fox" ["cat"]%string [];
        mkTokenAnnotation 0 1 "the" ["a"]%string []])
    (mkAnnotatedTokens ["the"; "red"; "fox"]%string
       [mkTokenAnnotation 0 1 "the" ["a"]%string [];
        mkTokenAnnotation 2 3 "fox" ["cat"]%string []])
  = true.
Proof.
  apply (proj1 buffers_equal_whatever_the_order).
  - apply Permutation_swap.
  - vm_compute. repeat constructor; set_solver.
Defined.

(** ** A buffer made from a text *)

(** X18.  Round trip of a buffer made from a text: [AnnotatedTokens(text)]
    splits on single spaces and the texts join with single spaces, so that
    for every text, whatever its whitespace is, the original text, the
    corrected text at every level and the annotated text of the new buffer
    are the text itself; the new buffer has no annotation. *)
Theorem text_buffer_round_trip (text : string) :
  let buffer := __init__ (Str text) in
  get_annotations buffer = []
  /\ get_original_text buffer = text
  /\ (forall level, get_corrected_text level buffer = text)
  /\ (forall with_meta, get_annotated_text with_meta buffer = text).
Proof.
  cbn zeta. cbn [__init__]. split_and!.
  - reflexivity.
  - apply (join_split_char " ").
  - intros level. rewrite get_corrected_text_no_annotations.
    apply (join_split_char " ").
  - intros with_meta. unfold get_annotated_text.
    cbn [_annotations _tokens fold_left].
    unfold MutableTokens.get_edited_tokens, MutableTokens.__init__.
    cbn [MutableTokens._edits MutableTokens._tokens Py.sorted foldr
         fold_left app].
    rewrite slice_from_0. apply (join_split_char " ").
Qed.

(** ** Annotations without a suggestion at the level *)

Lemma flat_map_filter_nonempty {A B} (f : A -> list B) (p : A -> bool)
    (l : list A) :
  (forall x, p x = false -> f x = []) ->
  flat_map f (List.filter p l) = flat_map f l.
Proof.
  intros Hp. induction l as [|x l IH]; [reflexivity|].
  cbn [List.filter flat_map]. destruct (p x) eqn:E.
  - cbn [flat_map]. now rewrite IH.
  - now rewrite (Hp x E), IH.
Qed.

(** X19.  [get_corrected_tokens] passes over the annotations that have no
    suggestion at the level instead of raising: the result is the one for
    the buffer with those annotations left out, and when no annotation has a
    suggestion at the level it is the original tokens. *)
Theorem get_corrected_tokens_skips_missing_levels
    (self : AnnotatedTokens) (level : Z) :
  let has_level ann :=
    match Py.index (suggestions ann) level with
    | Some _ => true
    | None => false
    end in
  get_corrected_tokens level self
  = get_corrected_tokens level
      (mkAnnotatedTokens (_tokens self)
         (List.filter has_level (_annotations self)))
  /\ (Forall (fun ann => Py.index (suggestions ann) level = None)
             (_annotations self) ->
      get_corrected_tokens level self = get_original_tokens self
      /\ get_corrected_text level self = get_original_text self).
Proof.
  intros has_level.
  assert (Hskip : get_corrected_tokens level self
                  = get_corrected_tokens level
                      (mkAnnotatedTokens (_tokens self)
                         (List.filter has_level (_annotations self)))).
  { unfold get_corrected_tokens. cbn [_tokens _annotations].
    rewrite !staged_corrections. do 3 f_equal.
    symmetry. apply flat_map_filter_nonempty.
    intros x. unfold has_level, correction_edit.
    now destruct (Py.index (suggestions x) level). }
  split; [exact Hskip|].
  intros Hnone.
  assert (Ht : get_corrected_tokens level self = get_original_tokens self).
  { rewrite Hskip.
    replace (List.filter has_level (_annotations self)) with
      (@nil TokenAnnotation).
    - unfold get_corrected_tokens, get_original_tokens.
      cbn [_tokens _annotations fold_left].
      unfold MutableTokens.get_edited_tokens, MutableTokens.__init__.
      cbn [MutableTokens._edits MutableTokens._tokens Py.sorted foldr
           fold_left app].
      apply slice_from_0.
    - symmetry. clear Hskip.
      induction Hnone as [|x l Hx _ IH]; [reflexivity|].
      cbn [List.filter]. unfold has_level at 1. now rewrite Hx. }
  split; [exact Ht|].
  unfold get_corrected_text, get_original_text. now rewrite Ht.
Qed.

Lemma get_corrected_tokens_skips_missing_levels_witness :
  let self :=
    mkAnnotatedTokens ["the"; "red"; "fox"]%string
      [mkTokenAnnotation 0 1 "the" ["a"]%string [];
       mkTokenAnnotation 1 2 "red" [] []] in
  get_corrected_tokens 1 self = ["the"; "red"; "fox"]%string
  /\ get_corrected_text 1 self = "the red fox"%string.
Proof.
  intros self.
  apply (proj2 (get_corrected_tokens_skips_missing_levels self 1)).
  repeat constructor.
Defined.

(** ** The strict merge *)

(** X20.  The outcomes of [annotate] under [OnOverlap.MERGE_STRICT] on a
    span that goes forward and overlaps some annotation.  With two or more
    overlapping annotations, or with one whose span is not the span of the
    call, it raises [OverlapError] and leaves the buffer as it is.  With one
    overlapping annotation on exactly the span, it returns: that annotation
    is taken out, the others keep their order, and the merged annotation is
    appended, with the suggestions of the old one followed by the new ones,
    each once, and the metadata of the old one updated with the new one. *)
Theorem annotate_merge_strict_outcomes
    (self : AnnotatedTokens) (s e : Z) (v : correct_value)
    (m : option dict) :
  s <= e ->
  match _get_overlaps self s e with
  | [] => True
  | [existing] =>
      if (start existing =? s) && (end_ existing =? e) then
        exists anns,
          Py.list_remove __eq__ existing (_annotations self) = Some anns
          /\ sublist anns (_annotations self)
          /\ annotate s e v m (Policy OnOverlap.MERGE_STRICT) self
             = (Ok tt,
                mkAnnotatedTokens (_tokens self)
                  (anns ++
                   [mkTokenAnnotation s e
                      (Py.join " " (Py.slice (_tokens self) s e))
                      (_unique_list
                         (suggestions existing
                          ++ suggestions (new_annotation self s e v m)))
                      (dict_merge (meta existing) (default [] m))]))
      else
        annotate s e v m (Policy OnOverlap.MERGE_STRICT) self
        = (Raise (OverlapError SpansDiffer), self)
  | overlapping =>
      annotate s e v m (Policy OnOverlap.MERGE_STRICT) self
      = (Raise (OverlapError (MergeNotOneToOne (length overlapping))), self)
  end.
Proof.
  intros Hse. destruct (_get_overlaps self s e) as [|x [|y l]] eqn:E; [easy| |].
  - destruct (Z.eqb_spec (start x) s) as [Hs|Hs];
      [destruct (Z.eqb_spec (end_ x) e) as [He|He]|]; cbn [andb].
    + destruct (annotate_merge_strict_one self s e v m x Hse E Hs He)
        as (anns & Hr & _ & Ha).
      exists anns. split_and!; [assumption| |assumption].
      now apply list_remove_sublist in Hr.
    + unfold annotate.
      rewrite annotate_with_policy by (try rewrite E; easy).
      rewrite E. cbn. rewrite (proj2 (Z.eqb_neq (end_ x) e) He).
      now rewrite orb_true_r.
    + unfold annotate.
      rewrite annotate_with_policy by (try rewrite E; easy).
      rewrite E. cbn. now rewrite (proj2 (Z.eqb_neq (start x) s) Hs).
  - unfold annotate.
    rewrite annotate_with_policy by (try rewrite E; easy).
    rewrite E. reflexivity.
Qed.

Lemma annotate_merge_strict_outcomes_witness :
  let self :=
    mkAnnotatedTokens ["the"; "red"; "fox"]%string
      [mkTokenAnnotation 0 1 "the" ["a"]%string [];
       mkTokenAnnotation 1 2 "red" ["brown"]%string []] in
  annotate 1 3 (Single "cat") None (Policy OnOverlap.MERGE_STRICT) self
  = (Raise (OverlapError SpansDiffer), self).
Proof.
  intros self.
  exact (annotate_merge_strict_outcomes self 1 3 (Single "cat") None
           ltac:(lia)).
Defined.
